(** * debby: package database, dependency resolver, archive sources

    A shallow embedding of the metadata-ingestion and dependency-resolution
    engine of debby (Go), and the properties of it that the specification
    states.

    Layout, following the Go packages:
    - [btree]      the ordered container of github.com/google/btree, as the
                   ascending list of its items;
    - [version], [arch], [dependency]
                   the value types the engine is written against;
    - [types]      [Package], its [ID] and its [Compare];
    - [packages]   [PackageDB] and the [Resolver];
    - [util]       [Decompress] and the hash reader;
    - [source]     [Source.Components] and [Component.Packages]. *)

From Stdlib Require Import ZArith String Ascii List Bool Lia Sorted.
From Stdlib.Strings Require Import Byte.
From stdpp Require Import base option list gmap strings.

Local Open Scope Z_scope.

(** ** Go's [strings] package *)

Module strings.

(** [strings.Compare]: -1, 0 or +1 by lexicographic byte order. *)
Definition Compare (a b : string) : Z :=
  match String.compare a b with
  | Lt => -1
  | Eq => 0
  | Gt => 1
  end.

(** The rest of [s] after the prefix [p], when [s] begins with [p]. *)
Fixpoint CutPrefix (s p : string) {struct p} : option string :=
  match p, s with
  | EmptyString, _ => Some s
  | String a p', String b s' =>
      if Ascii.eqb a b then CutPrefix s' p' else None
  | String _ _, EmptyString => None
  end.

(** [strings.HasPrefix]. *)
Definition HasPrefix (s p : string) : bool :=
  match CutPrefix s p with Some _ => true | None => false end.

(** [strings.TrimPrefix]: [s] without the leading [p], or [s] itself when
    [p] is not a prefix of it. *)
Definition TrimPrefix (s p : string) : string :=
  match CutPrefix s p with Some rest => rest | None => s end.

(** [strings.SplitN s "=" 2]: the text before the first [=], and the text
    after it when there is one. *)
Fixpoint SplitEq2 (s : string) : string * option string :=
  match s with
  | EmptyString => (EmptyString, None)
  | String c s' =>
      if Ascii.eqb c "="%char then (EmptyString, Some s')
      else let '(a, b) := SplitEq2 s' in (String c a, b)
  end.

Lemma strCompare_refl a : Compare a a = 0.
Proof.
  unfold Compare. pose proof (String.compare_antisym a a) as H.
  destruct (String.compare a a); simpl in H; congruence.
Qed.

Lemma strCompare_eq a b : Compare a b = 0 <-> a = b.
Proof.
  split.
  - unfold Compare. destruct (String.compare a b) eqn:E; try discriminate.
    intros _. now apply String.compare_eq_iff.
  - intros ->. apply strCompare_refl.
Qed.

Lemma strCompare_antisym a b : Compare a b = - Compare b a.
Proof.
  unfold Compare. rewrite (String.compare_antisym a b).
  destruct (String.compare b a); reflexivity.
Qed.

End strings.

(** ** The ordered container

    [btree.BTreeG] keeps one item per equivalence class of its [less]
    function ("if !less(a, b) && !less(b, a), we treat this to mean a == b")
    and iterates in ascending order.  The items of a tree are modelled as the
    ascending list that [Ascend] walks; every operation is the scan of that
    list that the documented behaviour describes. *)

Module btree.
Section BTreeG.
Context {T : Type} (less : T -> T -> bool).

(** [ReplaceOrInsert]: the item replaces the one equal to it, or is put at
    its place in the order. *)
Fixpoint ReplaceOrInsert (item : T) (t : list T) : list T :=
  match t with
  | [] => [item]
  | x :: t' =>
      if less x item then x :: ReplaceOrInsert item t'
      else if less item x then item :: x :: t'
      else item :: t'
  end.

(** [Delete]: removes the item equal to the one passed, if there is one. *)
Fixpoint Delete (item : T) (t : list T) : list T :=
  match t with
  | [] => []
  | x :: t' =>
      if less x item then x :: Delete item t'
      else if less item x then x :: t'
      else t'
  end.

(** [Get]: the item of the tree equal to the key. *)
Fixpoint Get (key : T) (t : list T) : option T :=
  match t with
  | [] => None
  | x :: t' =>
      if less x key then Get key t'
      else if less key x then None
      else Some x
  end.

(** [Ascend]: every item, in ascending order. *)
Definition Ascend (t : list T) : list T := t.

(** [AscendGreaterOrEqual pivot]: the items from the first one that is not
    below the pivot, in ascending order. *)
Fixpoint AscendGreaterOrEqual (pivot : T) (t : list T) : list T :=
  match t with
  | [] => []
  | x :: t' => if less x pivot then AscendGreaterOrEqual pivot t' else x :: t'
  end.

(** The items up to the last one that is not above the pivot. *)
Fixpoint upTo (pivot : T) (t : list T) : list T :=
  match t with
  | [] => []
  | x :: t' => if less pivot x then [] else x :: upTo pivot t'
  end.

(** [DescendLessOrEqual pivot]: the items not above the pivot, in
    descending order. *)
Definition DescendLessOrEqual (pivot : T) (t : list T) : list T :=
  rev (upTo pivot t).

(** An iterator callback returns [false] to stop the walk.  [walk f acc l]
    runs the callback [f] over the items [l] that an iteration yields,
    threading what the callback accumulates. *)
Fixpoint walk {A : Type} (f : A -> T -> A * bool) (acc : A) (l : list T) : A :=
  match l with
  | [] => acc
  | x :: l' => let '(acc', continue) := f acc x in
               if continue then walk f acc' l' else acc'
  end.

Lemma AscendGreaterOrEqual_incl pivot t x :
  In x (AscendGreaterOrEqual pivot t) -> In x t.
Proof.
  induction t as [|y t IH]; simpl; [tauto|].
  destruct (less y pivot); simpl; intuition.
Qed.

Lemma upTo_incl pivot t x : In x (upTo pivot t) -> In x t.
Proof.
  induction t as [|y t IH]; simpl; [tauto|].
  destruct (less pivot y); simpl; intuition.
Qed.

Lemma DescendLessOrEqual_incl pivot t x :
  In x (DescendLessOrEqual pivot t) -> In x t.
Proof.
  unfold DescendLessOrEqual. rewrite <- in_rev. apply upTo_incl.
Qed.

Lemma upTo_not_above pivot t x :
  In x (upTo pivot t) -> less pivot x = false.
Proof.
  induction t as [|y t IH]; simpl; [tauto|].
  destruct (less pivot y) eqn:E; simpl; [tauto|].
  intros [<-|H]; auto.
Qed.

Lemma Get_In key t x : Get key t = Some x -> In x t.
Proof.
  induction t as [|y t IH]; simpl; [discriminate|].
  destruct (less y key); [auto|].
  destruct (less key y); [discriminate|].
  intros [= ->]. now left.
Qed.

Lemma Get_equal key t x :
  Get key t = Some x -> less x key = false /\ less key x = false.
Proof.
  induction t as [|y t IH]; simpl; [discriminate|].
  destruct (less y key) eqn:E1; [auto|].
  destruct (less key y) eqn:E2; [discriminate|].
  intros [= <-]. auto.
Qed.

Lemma Delete_incl item t x : In x (Delete item t) -> In x t.
Proof.
  induction t as [|y t IH]; simpl; [tauto|].
  destruct (less y item); simpl; [intuition|].
  destruct (less item y); simpl; intuition.
Qed.

Lemma Delete_length item t : (length (Delete item t) <= length t)%nat.
Proof.
  induction t as [|y t IH]; simpl; [lia|].
  destruct (less y item); simpl; [lia|].
  destruct (less item y); simpl; lia.
Qed.

Lemma ReplaceOrInsert_In item t x :
  In x (ReplaceOrInsert item t) -> x = item \/ In x t.
Proof.
  induction t as [|y t IH]; simpl; [intuition|].
  destruct (less y item); simpl; [intuition|].
  destruct (less item y); simpl; intuition.
Qed.

Lemma ReplaceOrInsert_item item t : In item (ReplaceOrInsert item t).
Proof.
  induction t as [|y t IH]; simpl; [auto|].
  destruct (less y item); simpl; [auto|].
  destruct (less item y); simpl; auto.
Qed.

End BTreeG.
End btree.

(** ** Versions

    The [version] package is not among the sources at hand.  The database and
    the resolver use a version only through its comparison, its zero value,
    its parser and its rendering; they are written against that interface,
    [version.Ops].  [version.Debian] below is the model of the package that
    the specification describes. *)

Module version.

Class Ops (Version : Type) := {
(** the zero value [version.Version{}] of an unset [Version] field *)
zero : Version;
(** [a.Compare(b)]: negative, zero or positive *)
Compare : Version -> Version -> Z;
(** [version.Parse], [None] for its error *)
Parse : string -> option Version;
(** [v.String()] *)
String : Version -> string;
}.

(** What the engine relies on when it keeps versions in an ordered
    container: the comparison is a total preorder. *)
Class Laws (Version : Type) `{Ops Version} : Prop := {
  Compare_antisym : forall a b, Z.sgn (Compare a b) = - Z.sgn (Compare b a);
  Compare_trans : forall a b c,
    Compare a b <= 0 -> Compare b c <= 0 -> Compare a c <= 0;
}.

Section LawFacts.
Context {Version : Type} `{Laws Version}.

Lemma vcmp_refl a : Compare a a = 0.
Proof. pose proof (Compare_antisym a a). lia. Qed.

Lemma vcmp_flip_pos a b : 0 < Compare a b <-> Compare b a < 0.
Proof. pose proof (Compare_antisym a b). lia. Qed.

Lemma vcmp_flip_zero a b : Compare a b = 0 <-> Compare b a = 0.
Proof. pose proof (Compare_antisym a b). lia. Qed.

Lemma vcmp_eq_trans a b c :
  Compare a b = 0 -> Compare b c = 0 -> Compare a c = 0.
Proof.
  intros Hab Hbc.
  assert (Compare a c <= 0) by (apply (Compare_trans a b c); lia).
  assert (Compare c a <= 0).
  { apply (Compare_trans c b a).
    - apply vcmp_flip_zero in Hbc. lia.
    - apply vcmp_flip_zero in Hab. lia. }
  pose proof (Compare_antisym a c). lia.
Qed.

Lemma vcmp_lt_le_trans a b c :
  Compare a b < 0 -> Compare b c <= 0 -> Compare a c < 0.
Proof.
  intros Hab Hbc.
  assert (Hac : Compare a c <= 0) by (apply (Compare_trans a b c); lia).
  destruct (Z.eq_dec (Compare a c) 0) as [E|]; [|lia].
  assert (Compare b a <= 0).
  { apply (Compare_trans b c a); [lia|].
    apply vcmp_flip_zero in E. lia. }
  pose proof (Compare_antisym a b). lia.
Qed.

Lemma vcmp_le_lt_trans a b c :
  Compare a b <= 0 -> Compare b c < 0 -> Compare a c < 0.
Proof.
  intros Hab Hbc.
  assert (Hac : Compare a c <= 0) by (apply (Compare_trans a b c); lia).
  destruct (Z.eq_dec (Compare a c) 0) as [E|]; [|lia].
  assert (Compare c b <= 0).
  { apply (Compare_trans c a b); [|lia].
    apply vcmp_flip_zero in E. lia. }
  pose proof (Compare_antisym b c). lia.
Qed.

Lemma vcmp_eq_l a b c :
  Compare a b = 0 -> Z.sgn (Compare a c) = Z.sgn (Compare b c).
Proof.
  intros Hab.
  pose proof (vcmp_flip_zero a b) as Hf.
  destruct (Z.lt_trichotomy (Compare b c) 0) as [L|[E|G]].
  - assert (Compare a c < 0) by (apply (vcmp_le_lt_trans a b c); lia). lia.
  - rewrite (vcmp_eq_trans a b c Hab E), E. reflexivity.
  - apply vcmp_flip_pos in G.
    assert (Hca : Compare c a < 0).
    { apply (vcmp_lt_le_trans c b a); [lia|]. lia. }
    apply vcmp_flip_pos in Hca.
    pose proof (vcmp_flip_pos b c). lia.
Qed.

Lemma vcmp_eq_r a b c :
  Compare b c = 0 -> Z.sgn (Compare a b) = Z.sgn (Compare a c).
Proof.
  intros Hbc. apply vcmp_flip_zero in Hbc.
  pose proof (vcmp_eq_l c b a Hbc) as E.
  pose proof (Compare_antisym a b). pose proof (Compare_antisym a c). lia.
Qed.

End LawFacts.

End version.

(** ** Architectures

    The [arch] package is not among the sources either.  The engine uses
    [Arch.Is], [Arch.String], the zero value of an unset [Architecture]
    field and the literal [arch.MustParse("all")]. *)

Module arch.

Class Ops (Arch : Type) := {
(** the zero value [arch.Arch{}] *)
zero : Arch;
(** [a.Is(&b)] *)
Is : Arch -> Arch -> bool;
(** [a.String()] *)
String : Arch -> string;
(** [arch.MustParse("all")] *)
all : Arch;
}.

(** Architectures without wildcards: two that match have the same name. *)
Class Plain (Arch : Type) `{Ops Arch} : Prop := {
  Is_String : forall a b, Is a b = true -> String a = String b;
}.

End arch.

(** ** Dependency relations

    The fields of the [dependency] package's types that the database and the
    resolver read: a [Dependency] is a list of [Relation]s, a [Relation] a
    list of alternative [Possibility]s, a [Possibility] a name with an
    optional [VersionRelation] (a nil pointer when absent). *)

Module dependency.
Section Types.
Context {Ver : Type}.

Record VersionRelation := {
  Operator : string;
  Version : Ver;
}.

Record Possibility := {
  Name : string;
  PossiVersion : option VersionRelation;   (* field [Version *VersionRelation] *)
}.

Record Relation := {
  Possibilities : list Possibility;
}.

Record Dependency := {
  Relations : list Relation;
}.

(** The zero value of an unset dependency field. *)
Definition none : Dependency := {| Relations := [] |}.

End Types.
Arguments VersionRelation : clear implicits.
Arguments Possibility : clear implicits.
Arguments Relation : clear implicits.
Arguments Dependency : clear implicits.
End dependency.

(** ** Packages *)

Module types.
Section Package.
Context {Ver Arc : Type} `{version.Ops Ver} `{arch.Ops Arc}.

(** [types.Package], with the fields that the database, the resolver and the
    sources read or write.  The descriptive fields of the control paragraph
    (Source, Maintainer, Description, ...) take no part in them. *)
#[warnings="-register-all"]
Inductive Package := mkPackage {
  Name : string;                            (* field [Package] *)
  Version : Ver;
  Architecture : Arc;
  Provides : dependency.Dependency Ver;
  Depends : dependency.Dependency Ver;
  PreDepends : dependency.Dependency Ver;
  Priority : string;
  Filename : string;
  URLs : list string;
  IsVirtual : bool;
  Providers : list Package;
}.

(** [p.ID()] *)
Definition ID (p : Package) : string :=
  (Name p ++ "_" ++ version.String (Version p) ++ "_"
     ++ arch.String (Architecture p))%string.

(** [a.Compare(b)] *)
Definition Compare (a b : Package) : Z :=
  let cmp := strings.Compare (Name a) (Name b) in
  if negb (cmp =? 0) then cmp else
  let cmp := version.Compare (Version a) (Version b) in
  if negb (cmp =? 0) then cmp else
  if arch.Is (Architecture a) (Architecture b)
     || arch.Is (Architecture b) (Architecture a) then 0 else
  let cmp := strings.Compare (arch.String (Architecture a))
                             (arch.String (Architecture b)) in
  if negb (cmp =? 0) then cmp else
  0.

(** The [less] function that [NewPackageDB] gives its tree. *)
Definition less (a b : Package) : bool := Compare a b <? 0.

(** A composite literal [types.Package{Package: name, Version: v}]: every
    other field has its zero value. *)
Definition keyOf (name : string) (v : Ver) (virtual : bool) : Package :=
  {| Name := name; Version := v; Architecture := arch.zero;
     Provides := dependency.none; Depends := dependency.none;
     PreDepends := dependency.none; Priority := ""; Filename := "";
     URLs := []; IsVirtual := virtual; Providers := [] |}.

Definition withProviders (p : Package) (ps : list Package) : Package :=
  {| Name := Name p; Version := Version p; Architecture := Architecture p;
     Provides := Provides p; Depends := Depends p;
     PreDepends := PreDepends p; Priority := Priority p;
     Filename := Filename p; URLs := URLs p; IsVirtual := IsVirtual p;
     Providers := ps |}.

Definition withURLs (p : Package) (us : list string) : Package :=
  {| Name := Name p; Version := Version p; Architecture := Architecture p;
     Provides := Provides p; Depends := Depends p;
     PreDepends := PreDepends p; Priority := Priority p;
     Filename := Filename p; URLs := us; IsVirtual := IsVirtual p;
     Providers := Providers p |}.

(** Every possibility of a dependency field, relation by relation. *)
Definition possibilities (d : dependency.Dependency Ver)
  : list (dependency.Possibility Ver) :=
  concat (map dependency.Possibilities (dependency.Relations d)).

End Package.
Arguments Package : clear implicits.
End types.

(** ** The package database and the resolver *)

Module packages.
Section PackageDB.
Context {Ver Arc : Type} `{version.Ops Ver} `{arch.Ops Arc}.

Abbreviation Package := (types.Package Ver Arc).
Abbreviation Possibility := (dependency.Possibility Ver).
Abbreviation Relation := (dependency.Relation Ver).

(** The contents of a [PackageDB]: the items of [db.tree], ascending.  The
    readers-writer lock serialises the methods and has no other effect on
    what they return. *)
Definition PackageDB := list Package.

Definition NewPackageDB : PackageDB := [].

Definition Len (db : PackageDB) : nat := length db.

(** The key of the virtual package that a [Provides] possibility names. *)
Definition virtualFor (possi : Possibility) : Package :=
  types.keyOf (dependency.Name possi)
    (match dependency.PossiVersion possi with
     | Some vr => dependency.Version vr
     | None => version.zero
     end) true.

(** The body of the loop of [addPackage] over the possibilities of
    [pkg.Provides]. *)
Definition provide (pkg : Package) (tree : PackageDB) (possi : Possibility)
  : PackageDB :=
  let virtualPkg := virtualFor possi in
  let virtualPkg :=
    match btree.Get types.less virtualPkg tree with
    | Some existing => existing
    | None => virtualPkg
    end in
  let found :=
    existsb (fun provider => types.Compare provider pkg =? 0)
            (types.Providers virtualPkg) in
  if found then tree
  else btree.ReplaceOrInsert types.less
         (types.withProviders virtualPkg (types.Providers virtualPkg ++ [pkg]))
         tree.

Definition addPackage (db : PackageDB) (pkg : Package) : PackageDB :=
  fold_left (provide pkg) (types.possibilities (types.Provides pkg))
            (btree.ReplaceOrInsert types.less pkg db).

Definition Add (db : PackageDB) (pkg : Package) : PackageDB :=
  addPackage db pkg.

Definition AddAll (db : PackageDB) (packageList : list Package) : PackageDB :=
  fold_left addPackage packageList db.

(** The body of the loop of [Remove] over the possibilities of
    [pkg.Provides]. *)
Definition unprovide (pkg : Package) (tree : PackageDB) (possi : Possibility)
  : PackageDB :=
  match btree.Get types.less (virtualFor possi) tree with
  | Some virtualPkg =>
      let updatedProviders :=
        List.filter (fun provider => negb (types.Compare provider pkg =? 0))
                    (types.Providers virtualPkg) in
      let virtualPkg := types.withProviders virtualPkg updatedProviders in
      if (length updatedProviders =? 0)%nat
      then btree.Delete types.less virtualPkg tree
      else btree.ReplaceOrInsert types.less virtualPkg tree
  | None => tree
  end.

Definition Remove (db : PackageDB) (pkg : Package) : PackageDB :=
  fold_left (unprovide pkg) (types.possibilities (types.Provides pkg))
            (btree.Delete types.less pkg db).

(** [ForEach] with a callback that never fails visits every item. *)
Definition ForEach (db : PackageDB) : list Package := btree.Ascend db.

Definition Get (db : PackageDB) (name : string) : list Package :=
  btree.walk
    (fun packageList pkg =>
       if negb (String.eqb (types.Name pkg) name) then (packageList, false)
       else (packageList ++ [pkg], true))
    []
    (btree.AscendGreaterOrEqual types.less
       (types.keyOf name version.zero false) db).

Definition StrictlyEarlier (db : PackageDB) (name : string) (v : Ver)
  : list Package :=
  btree.walk
    (fun packageList pkg =>
       if negb (String.eqb (types.Name pkg) name) then (packageList, false)
       else if version.Compare (types.Version pkg) v =? 0
            then (packageList, true)
            else (packageList ++ [pkg], true))
    []
    (btree.DescendLessOrEqual types.less (types.keyOf name v false) db).

Definition EarlierOrEqual (db : PackageDB) (name : string) (v : Ver)
  : list Package :=
  btree.walk
    (fun packageList pkg =>
       if negb (String.eqb (types.Name pkg) name) then (packageList, false)
       else (packageList ++ [pkg], true))
    []
    (btree.DescendLessOrEqual types.less (types.keyOf name v false) db).

Definition ExactlyEqual (db : PackageDB) (name : string) (v : Ver)
  : option Package :=
  btree.walk
    (fun foundPackage pkg =>
       if negb (String.eqb (types.Name pkg) name) then (foundPackage, false)
       else if version.Compare (types.Version pkg) v =? 0
            then (Some pkg, false)
            else (foundPackage, false))
    None
    (btree.AscendGreaterOrEqual types.less (types.keyOf name v false) db).

Definition LaterOrEqual (db : PackageDB) (name : string) (v : Ver)
  : list Package :=
  btree.walk
    (fun packageList pkg =>
       if negb (String.eqb (types.Name pkg) name) then (packageList, false)
       else (packageList ++ [pkg], true))
    []
    (btree.AscendGreaterOrEqual types.less (types.keyOf name v false) db).

Definition StrictlyLater (db : PackageDB) (name : string) (v : Ver)
  : list Package :=
  btree.walk
    (fun packageList pkg =>
       if negb (String.eqb (types.Name pkg) name) then (packageList, false)
       else if version.Compare (types.Version pkg) v =? 0
            then (packageList, true)
            else (packageList ++ [pkg], true))
    []
    (btree.AscendGreaterOrEqual types.less (types.keyOf name v false) db).


End PackageDB.
Arguments PackageDB : clear implicits.

(** *** The resolver *)

Section Resolver.
Context {Ver Arc : Type} `{version.Ops Ver} `{arch.Ops Arc}.

Abbreviation Package := (types.Package Ver Arc).
Abbreviation Possibility := (dependency.Possibility Ver).
Abbreviation Relation := (dependency.Relation Ver).
Abbreviation DB := (PackageDB Ver Arc).

(** The errors that the resolver builds with [fmt.Errorf], by the message that
    distinguishes them. *)
Inductive Error :=
| InvalidVersion (text : string)
    (* "invalid version: %s: %w" *)
| UnableToLocate (packageNameVersion : string)
    (* "unable to locate package: %s" *)
| FailedDependencies (name : string) (cause : Error)
    (* "failed to get dependencies for package %s: %w" *)
| UnknownOperator (operator : string)
    (* "unknown version relation operator: %s" *)
| UnsatisfiableDependency (rel : Relation)
    (* "unsatisfiable dependency: %s", rel.String() *)
| UnsatisfiableVirtual (name : string)
    (* "unsatisfiable dependency: %s", virtualPkg.Package *)
| MultipleCandidates (name : string)
    (* "virtual package with multiple installation candidates: %s" *)
| NotSelected (name : string) (v : option Ver).
    (* "requested package %s[=%s] is not selected" *)

Inductive Result (A : Type) :=
| Ok (a : A)
| Err (e : Error).
Arguments Ok {A} a.
Arguments Err {A} e.

Definition isErr {A} (r : Result A) : bool :=
  match r with Ok _ => false | Err _ => true end.

(** The providers of a virtual package that the pool holds, as the first loop
    of [resolveVirtualPackage] collects them. *)
Definition virtualProviders (packageDB : DB) (virtualPkg : Package)
  : list Package :=
  flat_map
    (fun provider =>
       match ExactlyEqual packageDB (types.Name provider)
                          (types.Version provider) with
       | Some pkg => [pkg]
       | None => []
       end)
    (types.Providers virtualPkg).

Definition resolveVirtualPackage (packageDB candidateDB : DB)
    (virtualPkg : Package) : Result Package :=
  let virtualProviders := virtualProviders packageDB virtualPkg in
  match virtualProviders with
  | [] => Err (UnsatisfiableVirtual (types.Name virtualPkg))
  | [pkg] => Ok pkg
  | _ =>
      (* Has a provider already been selected? *)
      match
        List.find
          (fun pkg =>
             match ExactlyEqual candidateDB (types.Name pkg)
                                (types.Version pkg) with
             | Some _ => true
             | None => false
             end)
          virtualProviders
      with
      | Some pkg => Ok pkg
      | None =>
          (* Is one of the providers marked as required priority? *)
          match
            List.find (fun pkg => String.eqb (types.Priority pkg) "required")
                      virtualProviders
          with
          | Some pkg => Ok pkg
          | None => Err (MultipleCandidates (types.Name virtualPkg))
          end
      end
  end.

(** The [switch] of [getDependencies] over a possibility's version relation:
    the packages of the pool that the possibility names. *)
Definition packageListFor (packageDB : DB) (possi : Possibility)
  : Result (list Package) :=
  let name := dependency.Name possi in
  match dependency.PossiVersion possi with
  | Some rel =>
      let operator := dependency.Operator rel in
      let v := dependency.Version rel in
      if String.eqb operator "<<" then Ok (EarlierOrEqual packageDB name v)
      else if String.eqb operator "<=" then Ok (EarlierOrEqual packageDB name v)
      else if String.eqb operator "=" then
        Ok (match ExactlyEqual packageDB name v with
            | Some pkg => [pkg]
            | None => []
            end)
      else if String.eqb operator ">=" then Ok (LaterOrEqual packageDB name v)
      else if String.eqb operator ">>" then Ok (LaterOrEqual packageDB name v)
      else Err (UnknownOperator operator)
  | None => Ok (Get packageDB name)
  end.

(** "Resolve virtual packages": a virtual package of the list stands for the
    provider chosen for it, and is dropped when none can be chosen. *)
Definition resolvedPackages (packageDB candidateDB : DB)
    (packageList : list Package) : list Package :=
  flat_map
    (fun pkg =>
       if types.IsVirtual pkg then
         match resolveVirtualPackage packageDB candidateDB pkg with
         | Ok resolvedPkg => [resolvedPkg]
         | Err _ => []
         end
       else [pkg])
    packageList.

(** The loop over the possibilities of one relation: the first possibility
    with a package to show for it resolves the relation. *)
Fixpoint resolveRelation (packageDB candidateDB : DB)
    (possis : list Possibility) : Result (option (list Package)) :=
  match possis with
  | [] => Ok None
  | possi :: possis' =>
      match packageListFor packageDB possi with
      | Err e => Err e
      | Ok packageList =>
          let resolved := resolvedPackages packageDB candidateDB packageList in
          if (0 <? length resolved)%nat then Ok (Some resolved)
          else resolveRelation packageDB candidateDB possis'
      end
  end.

(** The loop over the relations, with the dependencies found so far. *)
Fixpoint dependenciesOf (packageDB candidateDB : DB)
    (relations : list Relation) (dependencies : list Package)
  : Result (list Package) :=
  match relations with
  | [] => Ok dependencies
  | rel :: relations' =>
      match resolveRelation packageDB candidateDB
                            (dependency.Possibilities rel) with
      | Err e => Err e
      | Ok None => Err (UnsatisfiableDependency rel)
      | Ok (Some resolved) =>
          dependenciesOf packageDB candidateDB relations'
                         (dependencies ++ resolved)
      end
  end.

(** The relations that the resolver follows: Pre-Depends, then Depends. *)
Definition relationsOf (pkg : Package) : list Relation :=
  dependency.Relations (types.PreDepends pkg)
  ++ dependency.Relations (types.Depends pkg).

Definition getDependencies (packageDB candidateDB : DB) (pkg : Package)
  : Result (list Package) :=
  dependenciesOf packageDB candidateDB (relationsOf pkg) [].

(** **** Pointers to databases

    [Resolve] works on three [*PackageDB]: the pool that the resolver was
    built with, and the candidate and selected databases that it creates.  A
    pointer is a location of a heap of databases; [NewPackageDB()] takes the
    next free one. *)

Definition loc := nat.
Definition Heap := list DB.

Definition deref (h : Heap) (db : loc) : DB := default [] (h !! db).

Definition alloc (h : Heap) : loc * Heap := (length h, h ++ [NewPackageDB]).

(** A method with a pointer receiver that changes the database. *)
Definition update (db : loc) (f : DB -> DB) (h : Heap) : Heap :=
  alter f db h.

Record Resolver := { packageDB : loc }.

Definition NewResolver (packageDB : loc) : Resolver :=
  {| packageDB := packageDB |}.

(** One entry of [packageNameVersions]: the name, and the version after the
    first [=] when there is one. *)
Definition parseRequest (packageNameVersion : string)
  : Result (string * option Ver) :=
  let '(name, rest) := strings.SplitEq2 packageNameVersion in
  match rest with
  | None => Ok (name, None)
  | Some text =>
      match version.Parse text with
      | Some v => Ok (name, Some v)
      | None => Err (InvalidVersion text)
      end
  end.

(** The first loop of [Resolve]: it records every request in
    [requestedPackages] and puts the packages it names into the candidate
    database. *)
Fixpoint seed (r : Resolver) (candidateDB : loc)
    (packageNameVersions : list string)
    (requestedPackages : gmap string (option Ver)) (h : Heap)
  : Heap * Result (gmap string (option Ver)) :=
  match packageNameVersions with
  | [] => (h, Ok requestedPackages)
  | packageNameVersion :: rest =>
      match parseRequest packageNameVersion with
      | Err e => (h, Err e)
      | Ok (name, packageVersion) =>
          let requestedPackages := <[name := packageVersion]> requestedPackages in
          match packageVersion with
          | Some v =>
              match ExactlyEqual (deref h (packageDB r)) name v with
              | None => (h, Err (UnableToLocate packageNameVersion))
              | Some pkg =>
                  seed r candidateDB rest requestedPackages
                       (update candidateDB (fun db => Add db pkg) h)
              end
          | None =>
              let packageList := Get (deref h (packageDB r)) name in
              if (length packageList =? 0)%nat
              then (h, Err (UnableToLocate packageNameVersion))
              else seed r candidateDB rest requestedPackages
                        (update candidateDB (fun db => AddAll db packageList) h)
          end
      end
  end.

(** How a loop that the model bounds came to its end. *)
Inductive Outcome (A : Type) :=
| Done (a : A)
| Failed (e : Error)
| OutOfFuel.
Arguments Done {A} a.
Arguments Failed {A} e.
Arguments OutOfFuel {A}.

(** [visited[id]] on a [map[string]bool]: false for a missing key. *)
Definition isVisited (visited : gmap string bool) (id : string) : bool :=
  default false (visited !! id).

(** The work-queue loop of [Resolve]; [fuel] bounds the number of packages
    taken from the queue. *)
Fixpoint expand (fuel : nat) (r : Resolver) (candidateDB : loc)
    (queue : list Package) (visited : gmap string bool) (h : Heap)
  : Heap * Outcome unit :=
  match queue with
  | [] => (h, Done tt)
  | pkg :: queue =>
      match fuel with
      | O => (h, OutOfFuel)
      | S fuel =>
          let id := types.ID pkg in
          if isVisited visited id then expand fuel r candidateDB queue visited h
          else
            let visited := <[id := true]> visited in
            match getDependencies (deref h (packageDB r))
                                  (deref h candidateDB) pkg with
            | Err e => (h, Failed (FailedDependencies (types.Name pkg) e))
            | Ok deps =>
                let new :=
                  List.filter
                    (fun pkg => negb (isVisited visited (types.ID pkg))) deps in
                expand fuel r candidateDB (queue ++ new) visited
                       (update candidateDB (fun db => AddAll db new) h)
            end
      end
  end.

(** [pruneUnsatisfied]; [fuel] bounds the number of times the scan is
    repeated.  The result says whether the loop reached its [break]. *)
Fixpoint pruneUnsatisfied (fuel : nat) (candidateDB : loc) (h : Heap)
  : Heap * bool :=
  let db := deref h candidateDB in
  let pruneList :=
    List.filter (fun pkg => isErr (getDependencies db db pkg)) (ForEach db) in
  let h :=
    fold_left (fun h pkg => update candidateDB (fun db => Remove db pkg) h)
              pruneList h in
  if (length pruneList =? 0)%nat then (h, true)
  else
    match fuel with
    | O => (h, false)
    | S fuel => pruneUnsatisfied fuel candidateDB h
    end.

(** The callback of the version-collapse walk over the candidates. *)
Definition selectPackage (requestedPackages : gmap string (option Ver))
    (selectedDB : DB) (pkg : Package) : DB :=
  match requestedPackages !! types.Name pkg with
  | Some (Some packageVersion) =>
      (* requested with an explicit version *)
      if version.Compare (types.Version pkg) packageVersion =? 0
      then Add selectedDB pkg
      else selectedDB
  | _ =>
      match Get selectedDB (types.Name pkg) with
      | existing0 :: _ =>
          if 0 <? version.Compare (types.Version pkg) (types.Version existing0)
          then Add (Remove selectedDB existing0) pkg
          else selectedDB
      | [] => Add selectedDB pkg
      end
  end.

(** Whether a request is met by the selected database. *)
Definition isSelected (selectedDB : DB) (name : string) (v : option Ver)
  : bool :=
  match v with
  | Some v =>
      match ExactlyEqual selectedDB name v with
      | Some _ => true
      | None => false
      end
  | None => negb (length (Get selectedDB name) =? 0)%nat
  end.

(** The last loop of [Resolve].  Go walks the map in an order of its own
    choosing; the request that the error names is the first unmet one in the
    order of [map_to_list]. *)
Definition confirmRequested (requestedPackages : gmap string (option Ver))
    (selectedDB : DB) : Result unit :=
  match
    List.find (fun '(name, v) => negb (isSelected selectedDB name v))
              (map_to_list requestedPackages)
  with
  | Some (name, v) => Err (NotSelected name v)
  | None => Ok tt
  end.

(** The version-collapse walk, on the heap. *)
Definition selectNewest (requestedPackages : gmap string (option Ver))
    (candidateDB selectedDB : loc) (h : Heap) : Heap :=
  fold_left
    (fun h pkg =>
       update selectedDB
              (fun db => selectPackage requestedPackages db pkg) h)
    (ForEach (deref h candidateDB)) h.

Definition Resolve (fuel : nat) (r : Resolver)
    (packageNameVersions : list string) (h : Heap) : Heap * Outcome loc :=
  let '(candidateDB, h) := alloc h in
  match seed r candidateDB packageNameVersions ∅ h with
  | (h, Err e) => (h, Failed e)
  | (h, Ok requestedPackages) =>
      let queue := ForEach (deref h candidateDB) in
      match expand fuel r candidateDB queue ∅ h with
      | (h, OutOfFuel) => (h, OutOfFuel)
      | (h, Failed e) => (h, Failed e)
      | (h, Done _) =>
          match pruneUnsatisfied fuel candidateDB h with
          | (h, false) => (h, OutOfFuel)
          | (h, true) =>
              let '(selectedDB, h) := alloc h in
              let h := selectNewest requestedPackages candidateDB selectedDB h in
              match pruneUnsatisfied fuel selectedDB h with
              | (h, false) => (h, OutOfFuel)
              | (h, true) =>
                  match confirmRequested requestedPackages
                                         (deref h selectedDB) with
                  | Err e => (h, Failed e)
                  | Ok _ => (h, Done selectedDB)
                  end
              end
          end
      end
  end.

End Resolver.
Arguments Error : clear implicits.
Arguments InvalidVersion {Ver} text.
Arguments UnableToLocate {Ver} packageNameVersion.
Arguments FailedDependencies {Ver} name cause.
Arguments UnknownOperator {Ver} operator.
Arguments UnsatisfiableDependency {Ver} rel.
Arguments UnsatisfiableVirtual {Ver} name.
Arguments MultipleCandidates {Ver} name.
Arguments NotSelected {Ver} name v.
Arguments Result : clear implicits.
Arguments Ok {Ver A} a.
Arguments Err {Ver A} e.
Arguments Outcome : clear implicits.
Arguments Done {Ver A} a.
Arguments Failed {Ver A} e.
Arguments OutOfFuel {Ver A}.
Arguments Heap : clear implicits.
End packages.

(** ** Comparisons that are total preorders

    The shape of a three-way comparison that orders its values: it is
    antisymmetric, and compatible with its own equivalence. *)

Module order.
Section Cmp.
Context {A : Type} (cmp : A -> A -> comparison).

Record Total : Prop := {
  antisym : forall x y, cmp x y = CompOpp (cmp y x);
  eq_l : forall x y z, cmp x y = Eq -> cmp x z = cmp y z;
  lt_trans : forall x y z, cmp x y = Lt -> cmp y z = Lt -> cmp x z = Lt;
}.

Lemma total_refl : Total -> forall x, cmp x x = Eq.
Proof.
  intros T x. pose proof (antisym T x x) as E.
  destruct (cmp x x); simpl in E; congruence.
Qed.

Lemma total_eq_r : Total -> forall x y z, cmp y z = Eq -> cmp x y = cmp x z.
Proof.
  intros T x y z E.
  rewrite (antisym T x y), (antisym T x z). f_equal.
  symmetry. apply (eq_l T).
  rewrite (antisym T), E. reflexivity.
Qed.

Lemma total_gt_trans :
  Total -> forall x y z, cmp x y = Gt -> cmp y z = Gt -> cmp x z = Gt.
Proof.
  intros T x y z E1 E2.
  rewrite (antisym T) in E1, E2 |- *.
  assert (L1 : cmp y x = Lt) by (destruct (cmp y x); simpl in *; congruence).
  assert (L2 : cmp z y = Lt) by (destruct (cmp z y); simpl in *; congruence).
  rewrite (lt_trans T z y x L2 L1). reflexivity.
Qed.

(** Comparing sequences position by position, a missing position counting
    as [pad]; [n] bounds the positions looked at. *)
Context (pad : A).

Definition headOr (l : list A) : A :=
  match l with [] => pad | x :: _ => x end.

Fixpoint lexUpTo (n : nat) (a b : list A) : comparison :=
  match n with
  | O => Eq
  | S n =>
      match cmp (headOr a) (headOr b) with
      | Eq => lexUpTo n (tl a) (tl b)
      | c => c
      end
  end.

Definition lex (a b : list A) : comparison :=
  lexUpTo (Nat.max (length a) (length b)) a b.

Lemma lexUpTo_nil : Total -> forall n, lexUpTo n [] [] = Eq.
Proof.
  intros T. induction n as [|n IH]; simpl; [reflexivity|].
  rewrite (total_refl T). exact IH.
Qed.

Lemma lexUpTo_more :
  Total -> forall n m a b,
  (length a <= n)%nat -> (length b <= n)%nat -> (n <= m)%nat ->
  lexUpTo m a b = lexUpTo n a b.
Proof.
  intros T. induction n as [|n IH]; intros m a b Ha Hb Hm.
  - destruct a; [|simpl in Ha; lia]. destruct b; [|simpl in Hb; lia].
    simpl. apply (lexUpTo_nil T).
  - destruct m as [|m]; [lia|]. simpl.
    destruct (cmp (headOr a) (headOr b)); try reflexivity.
    apply IH; try lia.
    + destruct a; simpl in *; lia.
    + destruct b; simpl in *; lia.
Qed.

Lemma lex_at : Total -> forall n a b,
  (length a <= n)%nat -> (length b <= n)%nat -> lex a b = lexUpTo n a b.
Proof.
  intros T n a b Ha Hb. unfold lex. symmetry.
  apply (lexUpTo_more T); lia.
Qed.

Lemma lexUpTo_total : Total -> forall n,
  (forall a b, lexUpTo n a b = CompOpp (lexUpTo n b a))
  /\ (forall a b c, lexUpTo n a b = Eq -> lexUpTo n a c = lexUpTo n b c)
  /\ (forall a b c, lexUpTo n a b = Lt -> lexUpTo n b c = Lt ->
                    lexUpTo n a c = Lt).
Proof.
  intros T. induction n as [|n (IH1 & IH2 & IH3)].
  - simpl. repeat split; auto; discriminate.
  - repeat split.
    + intros a b. simpl. rewrite (antisym T (headOr a) (headOr b)).
      destruct (cmp (headOr b) (headOr a)); simpl; auto.
    + intros a b c. simpl.
      destruct (cmp (headOr a) (headOr b)) eqn:E; try discriminate.
      intros E'. rewrite (eq_l T _ _ (headOr c) E).
      destruct (cmp (headOr b) (headOr c)); auto.
    + intros a b c. simpl.
      destruct (cmp (headOr a) (headOr b)) eqn:E1; try discriminate.
      * intros L1. rewrite (eq_l T _ _ (headOr c) E1).
        destruct (cmp (headOr b) (headOr c)) eqn:E2; try discriminate; auto.
        intros L2. apply (IH3 _ _ _ L1 L2).
      * intros _.
        destruct (cmp (headOr b) (headOr c)) eqn:E2; try discriminate.
        -- intros _. rewrite (total_eq_r T _ _ _ E2) in E1. rewrite E1. reflexivity.
        -- intros _. rewrite (lt_trans T _ _ _ E1 E2). reflexivity.
Qed.

Lemma lex_total : Total -> forall a b c : list A,
  lex a b = CompOpp (lex b a)
  /\ (lex a b = Eq -> lex a c = lex b c)
  /\ (lex a b = Lt -> lex b c = Lt -> lex a c = Lt).
Proof.
  intros T a b c.
  set (n := Nat.max (length a) (Nat.max (length b) (length c))).
  rewrite !(lex_at T n) by lia.
  destruct (lexUpTo_total T n) as (H1 & H2 & H3).
  repeat split; auto. apply H3.
Qed.

End Cmp.

(** The lexicographic product of two comparisons. *)
Definition pair {A B : Type} (ca : A -> A -> comparison)
    (cb : B -> B -> comparison) (x y : A * B) : comparison :=
  match ca (fst x) (fst y) with
  | Eq => cb (snd x) (snd y)
  | c => c
  end.

Lemma pair_total {A B : Type} (ca : A -> A -> comparison)
    (cb : B -> B -> comparison) :
  Total ca -> Total cb -> Total (pair ca cb).
Proof.
  intros Ta Tb. split.
  - intros x y. unfold pair. rewrite (antisym _ Ta (fst x) (fst y)).
    destruct (ca (fst y) (fst x)); simpl; auto. apply (antisym _ Tb).
  - intros x y z. unfold pair.
    destruct (ca (fst x) (fst y)) eqn:E; try discriminate.
    intros E'. rewrite (eq_l _ Ta _ _ (fst z) E).
    destruct (ca (fst y) (fst z)); auto. apply (eq_l _ Tb _ _ _ E').
  - intros x y z. unfold pair.
    destruct (ca (fst x) (fst y)) eqn:E1; try discriminate.
    + intros L1. rewrite (eq_l _ Ta _ _ (fst z) E1).
      destruct (ca (fst y) (fst z)); try discriminate; auto.
      intros L2. apply (lt_trans _ Tb _ _ _ L1 L2).
    + intros _. destruct (ca (fst y) (fst z)) eqn:E2; try discriminate.
      * intros _. rewrite (total_eq_r _ Ta _ _ _ E2) in E1. rewrite E1. reflexivity.
      * intros _. rewrite (lt_trans _ Ta _ _ _ E1 E2). reflexivity.
Qed.

Lemma lex_Total {A : Type} (cmp : A -> A -> comparison) (pad : A) :
  Total cmp -> Total (lex cmp pad).
Proof.
  intros T. split.
  - intros x y. apply (lex_total cmp pad T x y y).
  - intros x y z. apply (lex_total cmp pad T x y z).
  - intros x y z. apply (lex_total cmp pad T x y z).
Qed.

(** A comparison through a key. *)
Lemma on_total {A B : Type} (cmp : B -> B -> comparison) (key : A -> B) :
  Total cmp -> Total (fun x y => cmp (key x) (key y)).
Proof.
  intros T. split.
  - intros x y. apply (antisym _ T).
  - intros x y z. apply (eq_l _ T).
  - intros x y z. apply (lt_trans _ T).
Qed.

Lemma Z_total : Total Z.compare.
Proof.
  split.
  - intros x y. apply Z.compare_antisym.
  - intros x y z E. apply Z.compare_eq in E. now subst.
  - intros x y z. rewrite !Z.compare_lt_iff. lia.
Qed.

Lemma N_total : Total N.compare.
Proof.
  split.
  - intros x y. apply N.compare_antisym.
  - intros x y z E. apply N.compare_eq in E. now subst.
  - intros x y z. rewrite !N.compare_lt_iff. lia.
Qed.

End order.

(** ** The Debian version order

    Modelled from the spec: the [version] package (its [Version] type,
    [Parse], [Compare] and [String]) is not among the sources.  A version is
    a triple of an epoch, an upstream text and a revision text, rendered
    [[E:]U[-R]]; the order compares epochs numerically, then the upstream
    texts, then the revision texts, each split into segments that alternate a
    non-digit run and a digit run: non-digit runs character by character in
    the order [~] < end of run < letters < other characters, digit runs
    numerically. *)

Module debian.

Record Version := {
  Epoch : N;
  Upstream : string;
  Revision : string;
}.

Definition isDigit (c : ascii) : bool :=
  let n := N_of_ascii c in ((48 <=? n) && (n <=? 57))%N.

Definition isLetter (c : ascii) : bool :=
  let n := N_of_ascii c in
  (((65 <=? n) && (n <=? 90)) || ((97 <=? n) && (n <=? 122)))%N.

(** The rank of a character of a non-digit run; the end of the run ranks 0. *)
Definition rank (c : ascii) : Z :=
  if Ascii.eqb c "~"%char then -1
  else if isLetter c then Z.of_N (N_of_ascii c)
  else Z.of_N (N_of_ascii c) + 256.

(** A segment: the ranks of a non-digit run, and the value of the digit run
    that follows it.  A missing segment is an empty run and the number 0. *)
Definition segment : Type := list Z * N.

Definition noSegment : segment := ([], 0%N).

Definition digitValue (c : ascii) : N := (N_of_ascii c - 48)%N.

(** The segments of a text, read left to right; [run] holds the ranks of the
    non-digit run being read (last first) and [num] the value of the digit
    run being read, if one has begun. *)
Fixpoint segments (l : list ascii) (run : list Z) (num : option N)
  : list segment :=
  match l with
  | [] => [(rev run, default 0%N num)]
  | c :: l' =>
      if isDigit c
      then segments l' run (Some (10 * default 0 num + digitValue c)%N)
      else match num with
           | None => segments l' (rank c :: run) None
           | Some n => (rev run, n) :: segments l' [rank c] None
           end
  end.

Definition segmentsOf (s : string) : list segment :=
  segments (list_ascii_of_string s) [] None.

Definition compareRun : list Z -> list Z -> comparison :=
  order.lex Z.compare 0.

Definition compareSegment : segment -> segment -> comparison :=
  order.pair compareRun N.compare.

(** The comparison of two upstream texts, or of two revision texts. *)
Definition compareText (a b : string) : comparison :=
  order.lex compareSegment noSegment (segmentsOf a) (segmentsOf b).

Definition compare (a b : Version) : comparison :=
  order.pair N.compare (order.pair compareText compareText)
    (Epoch a, (Upstream a, Revision a))
    (Epoch b, (Upstream b, Revision b)).

Definition Compare (a b : Version) : Z :=
  match compare a b with
  | Lt => -1
  | Eq => 0
  | Gt => 1
  end.

(** The text before and after the first [c] of [s]. *)
Fixpoint splitFirst (c : ascii) (s : string) : option (string * string) :=
  match s with
  | EmptyString => None
  | String x s' =>
      if Ascii.eqb x c then Some (EmptyString, s')
      else match splitFirst c s' with
           | Some (a, b) => Some (String x a, b)
           | None => None
           end
  end.

(** The text before and after the last [c] of [s]. *)
Fixpoint splitLast (c : ascii) (s : string) : option (string * string) :=
  match s with
  | EmptyString => None
  | String x s' =>
      match splitLast c s' with
      | Some (a, b) => Some (String x a, b)
      | None => if Ascii.eqb x c then Some (EmptyString, s') else None
      end
  end.

Definition allowed (c : ascii) : bool :=
  isDigit c || isLetter c
  || existsb (Ascii.eqb c) ["."; "+"; "-"; "~"; ":"]%char.

Definition number (s : string) : N :=
  fold_left (fun n c => (10 * n + digitValue c)%N) (list_ascii_of_string s) 0%N.

Definition startsWithDigit (s : string) : bool :=
  match s with
  | EmptyString => false
  | String c _ => isDigit c
  end.

(** [Parse]: the epoch is the text before the first colon, the revision the
    text after the last hyphen.  Errors: the empty text, an epoch that is not
    a number, a character that is not allowed, and, without an epoch, an
    upstream text that does not start with a digit. *)
Definition Parse (s : string) : option Version :=
  if String.eqb s "" then None else
  let '(epoch, rest) :=
    match splitFirst ":" s with
    | Some (e, rest) => (Some e, rest)
    | None => (None, s)
    end in
  let '(upstream, revision) :=
    match splitLast "-" rest with
    | Some (u, r) => (u, r)
    | None => (rest, EmptyString)
    end in
  let epochOk :=
    match epoch with
    | Some e => negb (String.eqb e "")
                && forallb isDigit (list_ascii_of_string e)
    | None => startsWithDigit upstream
    end in
  if epochOk
     && forallb allowed (list_ascii_of_string upstream)
     && forallb allowed (list_ascii_of_string revision)
  then Some {| Epoch := match epoch with Some e => number e | None => 0%N end;
               Upstream := upstream; Revision := revision |}
  else None.

Fixpoint digitsOf (fuel : nat) (n : N) (acc : string) : string :=
  match fuel with
  | O => acc
  | S fuel =>
      let acc := String (ascii_of_N (48 + n mod 10)) acc in
      if (n <? 10)%N then acc else digitsOf fuel (n / 10)%N acc
  end.

Definition decimal (n : N) : string := digitsOf (S (N.to_nat (N.log2 n))) n "".

(** The rendering [[E:]U[-R]]. *)
Definition render (v : Version) : string :=
  ((if (Epoch v =? 0)%N then "" else decimal (Epoch v) ++ ":")
   ++ Upstream v
   ++ (if String.eqb (Revision v) "" then "" else "-" ++ Revision v))%string.

#[global] Instance ops : version.Ops Version := {|
  version.zero := {| Epoch := 0; Upstream := ""; Revision := "" |};
  version.Compare := Compare;
  version.Parse := Parse;
  version.String := render;
|}.

Lemma compareText_total : order.Total compareText.
Proof.
  unfold compareText.
  apply (order.on_total (order.lex compareSegment noSegment) segmentsOf).
  apply order.lex_Total. apply order.pair_total.
  - apply order.lex_Total. apply order.Z_total.
  - apply order.N_total.
Qed.

Lemma compare_total : order.Total compare.
Proof.
  unfold compare.
  apply (order.on_total
           (order.pair N.compare (order.pair compareText compareText))
           (fun v => (Epoch v, (Upstream v, Revision v)))).
  apply order.pair_total; [apply order.N_total|].
  apply order.pair_total; apply compareText_total.
Qed.

#[global] Instance laws : version.Laws Version.
Proof.
  pose proof compare_total as T. split.
  - intros a b. simpl. unfold Compare.
    rewrite (order.antisym _ T a b). destruct (compare b a); reflexivity.
  - intros a b c. simpl. unfold Compare.
    destruct (compare a b) eqn:E1; try lia;
    destruct (compare b c) eqn:E2; try lia; intros _ _.
    + rewrite (order.eq_l _ T _ _ c E1), E2. lia.
    + rewrite (order.eq_l _ T _ _ c E1), E2. lia.
    + rewrite (order.total_eq_r _ T _ _ _ E2) in E1. rewrite E1. lia.
    + rewrite (order.lt_trans _ T _ _ _ E1 E2). lia.
Qed.

End debian.

(** ** Architectures by name

    Modelled from the spec: the [arch] package is not among the sources.  The
    architectures used to run the model are the concrete ones of an archive
    ([amd64], [arm64], ...) and [all], each known by its name; none is a
    wildcard, and two of them match when they are the same ([all] matches
    [all] only, as the enumeration of components requires).  An unset
    architecture has the empty name. *)

Module archname.

Definition Arch : Type := string.

#[global] Instance ops : arch.Ops Arch := {|
  arch.zero := EmptyString;
  arch.Is := String.eqb;
  arch.String := fun a => a;
  arch.all := "all"%string;
|}.

#[global] Instance plain : arch.Plain Arch.
Proof.
  split. intros a b E. simpl in *. now apply String.eqb_eq in E.
Qed.

End archname.

(** ** Streams: the decompressor and the hash reader *)

Module util.
Section Decompress.

(** The decoders of [compress/gzip] and of [github.com/ulikunitz/xz] are
    collaborators from outside.  A reader is known by the bytes that reading
    it to the end yields; [gzipNewReader] and [xzNewReader] give the reader
    that [gzip.NewReader] and [xz.NewReader] build over a stream, or [None]
    for the error they return. *)
Context (gzipNewReader xzNewReader : list byte -> option (list byte)).

Inductive DecompressError :=
| PeekFailed      (* the error of [bufioReader.Peek(8)] *)
| DecoderFailed.  (* the error of [gzip.NewReader] or of [xz.NewReader] *)

(** [bytes.HasPrefix] *)
Fixpoint HasPrefix (s prefix : list byte) {struct prefix} : bool :=
  match prefix, s with
  | [], _ => true
  | p :: prefix', x :: s' => Byte.eqb x p && HasPrefix s' prefix'
  | _ :: _, [] => false
  end.

Definition gzipMagic : list byte := [x1f; x8b].
Definition xzMagic : list byte := [xfd; x37; x7a; x58; x5a; x00].

(** [bufioReader.Peek(n)]: the next [n] bytes, without consuming them; an
    error when the stream ends before. *)
Definition Peek (n : nat) (r : list byte) : option (list byte) :=
  if (length r <? n)%nat then None else Some (firstn n r).

(** [Decompress] over the stream [r]: the reader it returns, or its error.
    Nothing has been consumed from the buffered reader when a decoder, or
    [io.NopCloser], is put over it. *)
Definition Decompress (r : list byte) : DecompressError + list byte :=
  match Peek 8 r with
  | None => inl PeekFailed
  | Some buf =>
      if HasPrefix buf gzipMagic then
        match gzipNewReader r with
        | Some reader => inr reader
        | None => inl DecoderFailed
        end
      else if HasPrefix buf xzMagic then
        match xzNewReader r with
        | Some reader => inr reader
        | None => inl DecoderFailed
        end
      else inr r
  end.

End Decompress.

Section HashReader.

(** SHA-256, from [crypto/sha256]. *)
Context (sha256 : list byte -> list byte).

Fixpoint bytesEqual (a b : list byte) : bool :=
  match a, b with
  | [], [] => true
  | x :: a', y :: b' => Byte.eqb x y && bytesEqual a' b'
  | _, _ => false
  end.

(** [hr.Verify(expected)] when [read] is what has been read through the hash
    reader: [true] when the sums agree. *)
Definition Verify (read expected : list byte) : bool :=
  bytesEqual (sha256 read) expected.

End HashReader.
End util.

(** ** Sources and components *)

Module source.
Section Source.
Context {Ver Arc : Type} `{version.Ops Ver} `{arch.Ops Arc}.

Abbreviation Package := (types.Package Ver Arc).

(** [path.Join] and [path.Base], of Go's [path] package. *)
Context (Join : list string -> string) (Base : string -> string).

(** A [*url.URL]: what comes before the path (scheme and host), and the
    path.  [url.Parse(u.String())] gives [u] back. *)
Record URL := {
  Host : string;
  Path : string;
}.

(** The method [String] of [*url.URL], of Go's [net/url] package: the text
    of a URL, with its path escaped. *)
Context (URLString : URL -> string).

Definition withPath (u : URL) (p : string) : URL :=
  {| Host := Host u; Path := p |}.

(** [types.Release], as the decoder fills it from the InRelease paragraph:
    the fields that [Components] reads, and what [release.SHA256Sums()]
    returns ([None] for its error). *)
Record Release := {
  Architectures : list Arc;
  ReleaseComponents : list string;          (* field [Components] *)
  SHA256Sums : option (gmap string (list byte));
}.

Definition defaultDistribution : string := "stable".
Definition defaultComponents : list string := ["main"%string].

(** [latestconfig.SourceConfig], with the URL parsed. *)
Record SourceConfig := {
  ConfURL : URL;
  ConfDistribution : string;
  ConfComponents : list string;
}.

Record Source := {
  sourceURL : URL;
  distribution : string;
  components : list string;
}.

Definition NewSource (conf : SourceConfig) : Source :=
  {| sourceURL := ConfURL conf;
     distribution :=
       if String.eqb (ConfDistribution conf) "" then defaultDistribution
       else ConfDistribution conf;
     components :=
       if (0 <? length (ConfComponents conf))%nat then ConfComponents conf
       else defaultComponents |}.

Record Component := {
  Name : string;
  Arch : Arc;
  ComponentURL : URL;                          (* field [URL] *)
  ComponentSHA256Sums : gmap string (list byte);  (* field [SHA256Sums] *)
  componentSourceURL : URL;                    (* field [sourceURL] *)
}.

(** What the GET of the InRelease file and its decoding come to: the HTTP
    client, the keyring and the [deb822] decoder are collaborators. *)
Inductive InRelease :=
| DownloadFailed                  (* [httpClient.Do] fails *)
| BadStatus (status : string)     (* a status that is not 200 *)
| NoDecoder                       (* [deb822.NewDecoder] fails *)
| Unsigned                        (* [decoder.Signer() == nil] *)
| Undecodable                     (* [decoder.Decode] fails *)
| Signed (release : Release).

Inductive ComponentsError :=
| InReleaseDownload               (* "failed to download InRelease file: %w" *)
| InReleaseStatus (status : string)
| InReleaseDecoder                (* "failed to create decoder: %w" *)
| InReleaseNotSigned              (* "InRelease file is not signed" *)
| InReleaseUnmarshal              (* "failed to unmarshal InRelease file: %w" *)
| SHA256SumsFailed.               (* "failed to get SHA256 sums: %w" *)

Context (fetchInRelease : string -> InRelease).

(** The set [desiredComponents], a [map[string]bool]. *)
Definition desiredComponents (s : Source) : gmap string bool :=
  fold_left (fun m component => <[component := true]> m) (components s)
    (fold_left (fun m component => <[component := true]> m)
               defaultComponents ∅).

Definition isDesired (desired : gmap string bool) (component : string)
  : bool :=
  default false (desired !! component).

(** The directory of a component in the paths of the Release file. *)
Definition componentDir (component : string) (a : Arc) : string :=
  Join [Base component; ("binary-" ++ arch.String a)%string].

(** The loop that fills [componentSHA256Sums] from the sums of the Release
    file. *)
Definition componentSums (dir : string)
    (releaseSHA256Sums : gmap string (list byte)) : gmap string (list byte) :=
  map_fold
    (fun filename sum (sums : gmap string (list byte)) =>
       if strings.HasPrefix filename dir
       then <[strings.TrimPrefix filename (dir ++ "/") := sum]> sums
       else sums)
    ∅ releaseSHA256Sums.

Definition componentFor (s : Source)
    (releaseSHA256Sums : gmap string (list byte))
    (component : string) (a : Arc) : Component :=
  {| Name := component;
     Arch := a;
     ComponentURL :=
       withPath (sourceURL s)
         (Join [Path (sourceURL s); "dists"; distribution s; component;
                "binary-" ++ arch.String a])%string;
     ComponentSHA256Sums :=
       componentSums (componentDir component a) releaseSHA256Sums;
     componentSourceURL := sourceURL s |}.

Definition availableArchitectures (release : Release) (targetArch : Arc)
  : list Arc :=
  List.filter
    (fun releaseArch =>
       arch.Is releaseArch arch.all || arch.Is releaseArch targetArch)
    (Architectures release).

Definition availableComponents (s : Source) (release : Release)
  : list string :=
  List.filter (isDesired (desiredComponents s)) (ReleaseComponents release).

Definition Components (s : Source) (targetArch : Arc)
  : ComponentsError + list Component :=
  let inReleaseURL :=
    withPath (sourceURL s)
      (Join [Path (sourceURL s); "dists"; distribution s; "InRelease"])%string in
  match fetchInRelease (URLString inReleaseURL) with
  | DownloadFailed => inl InReleaseDownload
  | BadStatus status => inl (InReleaseStatus status)
  | NoDecoder => inl InReleaseDecoder
  | Unsigned => inl InReleaseNotSigned
  | Undecodable => inl InReleaseUnmarshal
  | Signed release =>
      let availableArchitectures := availableArchitectures release targetArch in
      if (length availableArchitectures =? 0)%nat then inr [] else
      let availableComponents := availableComponents s release in
      if (length availableComponents =? 0)%nat then inr [] else
      match SHA256Sums release with
      | None => inl SHA256SumsFailed
      | Some releaseSHA256Sums =>
          inr (flat_map
                 (fun component =>
                    map (componentFor s releaseSHA256Sums component)
                        availableArchitectures)
                 availableComponents)
      end
  end.

(** *** [Component.Packages] *)

(** What [httpClient.Do] comes to for a GET. *)
Inductive Response :=
| NoResponse
| Responded (statusCode : Z) (status : string) (body : list byte).

(** What the [deb822] decoder over a decompressed stream comes to. *)
Inductive Decoding :=
| NewDecoderFailed
| DecodeFailed
| Decoded (packageList : list Package).

Context (httpGet : string -> Response)
        (gzipNewReader xzNewReader : list byte -> option (list byte))
        (decodePackages : list byte -> Decoding)
        (sha256 : list byte -> list byte).

(** Why a candidate file was given up. *)
Inductive Cause :=
| DownloadError (name : string)        (* "failed to download %s file: %w" *)
| StatusError (name status : string)   (* "failed to download %s file: %s" *)
| DecompressError (name : string) (e : util.DecompressError)
                                       (* "failed to decompress %s file: %w" *)
| DecoderError                         (* "failed to create decoder: %w" *)
| UnmarshalError (name : string)       (* "failed to unmarshal %s file: %w" *)
| VerifyError (name : string).         (* "failed to verify %s file: %w" *)

Definition candidateNames : list string :=
  ["Packages.xz"; "Packages.gz"; "Packages"]%string.

(** The sum that the Release file states for a file of the component; a
    missing key of the Go map gives the nil slice. *)
Definition statedSum (c : Component) (name : string) : list byte :=
  default [] (ComponentSHA256Sums c !! name).

(** One turn of the loop of [Packages], up to the verification of the sum.
    The decoder reads the stream to its end, so the sum is that of the
    whole body. *)
Definition attempt (c : Component) (name : string) : Cause + list Package :=
  let packagesURL :=
    withPath (ComponentURL c) (Join [Path (ComponentURL c); name]) in
  match httpGet (URLString packagesURL) with
  | NoResponse => inl (DownloadError name)
  | Responded statusCode status body =>
      if negb (statusCode =? 200) then inl (StatusError name status) else
      match util.Decompress gzipNewReader xzNewReader body with
      | inl e => inl (DecompressError name e)
      | inr dr =>
          match decodePackages dr with
          | NewDecoderFailed => inl DecoderError
          | DecodeFailed => inl (UnmarshalError name)
          | Decoded packageList =>
              if util.Verify sha256 body (statedSum c name)
              then inr packageList
              else inl (VerifyError name)
          end
      end
  end.

(** The URL of the package file is added to the package. *)
Definition withSourceURL (c : Component) (pkg : Package) : Package :=
  types.withURLs pkg
    (types.URLs pkg
     ++ [URLString
           (withPath (componentSourceURL c)
              (Join [Path (componentSourceURL c); types.Filename pkg]))]).

(** The loop of [Packages] over the candidate names, with the errors joined
    so far. *)
Fixpoint tryCandidates (c : Component) (names : list string)
    (errs : list Cause) : list Cause + list Package :=
  match names with
  | [] => inl errs        (* "failed to download Packages file: %w" *)
  | name :: names' =>
      match attempt c name with
      | inl cause => tryCandidates c names' (errs ++ [cause])
      | inr packageList => inr (map (withSourceURL c) packageList)
      end
  end.

Definition Packages (c : Component) : list Cause + list Package :=
  tryCandidates c candidateNames [].

End Source.
End source.

(** * Properties *)

(** ** Lookups of the database *)

Module lookup.
Section Lookup.
Context {Ver Arc : Type} `{version.Ops Ver} `{arch.Ops Arc}.
Import packages.

Abbreviation Package := (types.Package Ver Arc).
Abbreviation DB := (PackageDB Ver Arc).

(** What a walk that keeps the items of one name collects is part of what it
    walks over, and every item of it has that name. *)
Lemma walk_named_incl (name : string) (l : list Package) :
  forall acc x,
  In x (btree.walk
          (fun packageList pkg =>
             if negb (String.eqb (types.Name pkg) name)
             then (packageList, false)
             else (packageList ++ [pkg], true)) acc l) ->
  In x acc \/ (In x l /\ types.Name x = name).
Proof.
  induction l as [|y l IH]; intros acc x; simpl; [auto|].
  destruct (String.eqb (types.Name y) name) eqn:E; simpl; [|auto].
  intros Hx. apply IH in Hx. rewrite in_app_iff in Hx. simpl in Hx.
  apply String.eqb_eq in E.
  destruct Hx as [[Hx|[<-|[]]]|[Hx Hn]]; auto.
Qed.

Lemma Get_sound (db : DB) name x :
  In x (Get db name) -> In x db /\ types.Name x = name.
Proof.
  unfold Get. intros Hx. apply walk_named_incl in Hx.
  destruct Hx as [[]|[Hx Hn]]. split; [|exact Hn].
  eapply btree.AscendGreaterOrEqual_incl; eauto.
Qed.

Lemma LaterOrEqual_sound (db : DB) name v x :
  In x (LaterOrEqual db name v) -> In x db /\ types.Name x = name.
Proof.
  unfold LaterOrEqual. intros Hx. apply walk_named_incl in Hx.
  destruct Hx as [[]|[Hx Hn]]. split; [|exact Hn].
  eapply btree.AscendGreaterOrEqual_incl; eauto.
Qed.

Lemma EarlierOrEqual_sound (db : DB) name v x :
  In x (EarlierOrEqual db name v) -> In x db /\ types.Name x = name.
Proof.
  unfold EarlierOrEqual. intros Hx. apply walk_named_incl in Hx.
  destruct Hx as [[]|[Hx Hn]]. split; [|exact Hn].
  eapply btree.DescendLessOrEqual_incl; eauto.
Qed.

(** [ExactlyEqual] looks at the first item that is not below the key, and at
    no other. *)
Lemma ExactlyEqual_first (db : DB) name v :
  ExactlyEqual db name v =
  match btree.AscendGreaterOrEqual types.less (types.keyOf name v false) db with
  | [] => None
  | pkg :: _ =>
      if String.eqb (types.Name pkg) name
         && (version.Compare (types.Version pkg) v =? 0)
      then Some pkg else None
  end.
Proof.
  unfold ExactlyEqual.
  destruct (btree.AscendGreaterOrEqual _ _ db) as [|pkg l]; simpl; [reflexivity|].
  destruct (String.eqb (types.Name pkg) name); simpl; [|reflexivity].
  destruct (version.Compare (types.Version pkg) v =? 0); reflexivity.
Qed.

Lemma ExactlyEqual_sound (db : DB) name v x :
  ExactlyEqual db name v = Some x ->
  In x db /\ types.Name x = name /\ version.Compare (types.Version x) v = 0.
Proof.
  rewrite ExactlyEqual_first.
  destruct (btree.AscendGreaterOrEqual _ _ db) as [|pkg l] eqn:E; [discriminate|].
  destruct (String.eqb (types.Name pkg) name) eqn:En; simpl; [|discriminate].
  destruct (version.Compare (types.Version pkg) v =? 0) eqn:Ev; [|discriminate].
  intros [= <-]. split; [|split].
  - eapply btree.AscendGreaterOrEqual_incl. rewrite E. now left.
  - now apply String.eqb_eq.
  - lia.
Qed.

End Lookup.
End lookup.

(** ** Choosing the provider of a virtual package *)

Module virtuals.
Section Virtuals.
Context {Ver Arc : Type} `{version.Ops Ver} `{arch.Ops Arc}.
Import packages.

Abbreviation Package := (types.Package Ver Arc).
Abbreviation DB := (PackageDB Ver Arc).

(** A package is exactly present in a database when [ExactlyEqual] finds an
    entry for its name and version. *)
Definition exactlyPresent (db : DB) (pkg : Package) : Prop :=
  exists found,
    ExactlyEqual db (types.Name pkg) (types.Version pkg) = Some found.

Lemma virtualProviders_In (pool : DB) (virtualPkg pkg : Package) :
  In pkg (virtualProviders pool virtualPkg) <->
  exists provider,
    In provider (types.Providers virtualPkg)
    /\ ExactlyEqual pool (types.Name provider) (types.Version provider)
       = Some pkg.
Proof.
  unfold virtualProviders. rewrite in_flat_map. split.
  - intros (provider & Hp & Hin). exists provider. split; [exact Hp|].
    destruct (ExactlyEqual pool _ _) as [found|]; simpl in Hin; [|tauto].
    destruct Hin as [->|[]]. reflexivity.
  - intros (provider & Hp & E). exists provider. split; [exact Hp|].
    rewrite E. now left.
Qed.

Lemma virtualProviders_sound (pool : DB) (virtualPkg pkg : Package) :
  In pkg (virtualProviders pool virtualPkg) ->
  In pkg pool
  /\ exists provider,
       In provider (types.Providers virtualPkg)
       /\ types.Name pkg = types.Name provider
       /\ version.Compare (types.Version pkg) (types.Version provider) = 0.
Proof.
  rewrite virtualProviders_In. intros (provider & Hp & E).
  apply lookup.ExactlyEqual_sound in E. destruct E as (Hin & Hn & Hv).
  split; [exact Hin|]. exists provider. auto.
Qed.

Lemma resolveVirtualPackage_In (pool candidates : DB) (virtualPkg pkg : Package) :
  resolveVirtualPackage pool candidates virtualPkg = Ok pkg ->
  In pkg (virtualProviders pool virtualPkg).
Proof.
  unfold resolveVirtualPackage.
  destruct (virtualProviders pool virtualPkg) as [|a [|b l]] eqn:E.
  - discriminate.
  - intros [= <-]. now left.
  - match goal with |- context [List.find ?f (a :: b :: l)] =>
      destruct (List.find f (a :: b :: l)) as [p|] eqn:F1 end.
    + intros [= <-]. now apply find_some in F1.
    + match goal with |- context [List.find ?f (a :: b :: l)] =>
        destruct (List.find f (a :: b :: l)) as [p|] eqn:F2 end.
      * intros [= <-]. now apply find_some in F2.
      * intros [=].
Qed.


End Virtuals.
End virtuals.

(** ** The resolver and the heap *)

Module resolver.
Section Frame.
Context {Ver Arc : Type} `{version.Ops Ver} `{arch.Ops Arc}.
Import packages.

Abbreviation Package := (types.Package Ver Arc).
Abbreviation DB := (PackageDB Ver Arc).
Abbreviation Heap := (packages.Heap Ver Arc).

(** [h'] differs from [h] at the location [db] at most. *)
Definition onlyAt (db : loc) (h h' : Heap) : Prop :=
  length h' = length h /\ forall l, l <> db -> h' !! l = h !! l.

Lemma onlyAt_refl db (h : Heap) : onlyAt db h h.
Proof. split; auto. Qed.

Lemma onlyAt_trans db (h1 h2 h3 : Heap) :
  onlyAt db h1 h2 -> onlyAt db h2 h3 -> onlyAt db h1 h3.
Proof.
  intros [L1 E1] [L2 E2]. split; [congruence|].
  intros l Hl. rewrite E2, E1; auto.
Qed.

Lemma update_onlyAt db f (h : Heap) : onlyAt db h (update db f h).
Proof.
  unfold update. split.
  - apply length_alter.
  - intros l Hl. apply list_lookup_alter_ne. congruence.
Qed.

Lemma fold_update_onlyAt {A} db (f : A -> DB -> DB) (l : list A) (h : Heap) :
  onlyAt db h (fold_left (fun h x => update db (f x) h) l h).
Proof.
  revert h. induction l as [|x l IH]; intros h; simpl.
  - apply onlyAt_refl.
  - eapply onlyAt_trans; [apply update_onlyAt|apply IH].
Qed.

Lemma seed_onlyAt r candidateDB reqs requested (h : Heap) :
  onlyAt candidateDB h (fst (seed r candidateDB reqs requested h)).
Proof.
  revert requested h. induction reqs as [|req reqs IH]; intros requested h.
  - apply onlyAt_refl.
  - simpl. destruct (parseRequest req) as [[name [v|]]|e]; simpl.
    + destruct (ExactlyEqual _ name v) as [pkg|]; simpl.
      * eapply onlyAt_trans; [apply update_onlyAt|apply IH].
      * apply onlyAt_refl.
    + destruct (length (Get _ name) =? 0)%nat; simpl.
      * apply onlyAt_refl.
      * eapply onlyAt_trans; [apply update_onlyAt|apply IH].
    + apply onlyAt_refl.
Qed.

Lemma expand_onlyAt fuel r candidateDB queue visited (h : Heap) :
  onlyAt candidateDB h (fst (expand fuel r candidateDB queue visited h)).
Proof.
  revert queue visited h.
  induction fuel as [|fuel IH]; intros queue visited h.
  - destruct queue; apply onlyAt_refl.
  - destruct queue as [|pkg queue]; [apply onlyAt_refl|]. simpl.
    destruct (isVisited visited (types.ID pkg)); [apply IH|].
    destruct (getDependencies _ _ pkg) as [deps|e]; simpl.
    + eapply onlyAt_trans; [apply update_onlyAt|apply IH].
    + apply onlyAt_refl.
Qed.

(** One round of [pruneUnsatisfied]. *)
Definition pruneListOf (db : DB) : list Package :=
  List.filter (fun pkg => isErr (getDependencies db db pkg)) (ForEach db).

Definition removeAll (candidateDB : loc) (pruneList : list Package) (h : Heap)
  : Heap :=
  fold_left (fun h pkg => update candidateDB (fun db => Remove db pkg) h)
            pruneList h.

Lemma pruneUnsatisfied_unfold fuel candidateDB (h : Heap) :
  pruneUnsatisfied fuel candidateDB h =
  let pruneList := pruneListOf (deref h candidateDB) in
  let h' := removeAll candidateDB pruneList h in
  if (length pruneList =? 0)%nat then (h', true)
  else match fuel with
       | O => (h', false)
       | S fuel => pruneUnsatisfied fuel candidateDB h'
       end.
Proof. destruct fuel; reflexivity. Qed.

Lemma pruneUnsatisfied_onlyAt fuel candidateDB (h : Heap) :
  onlyAt candidateDB h (fst (pruneUnsatisfied fuel candidateDB h)).
Proof.
  revert h. induction fuel as [|fuel IH]; intros h;
    rewrite pruneUnsatisfied_unfold; cbv zeta;
    destruct (length _ =? 0)%nat; simpl;
    try apply (fold_update_onlyAt candidateDB (fun pkg db => Remove db pkg)).
  eapply onlyAt_trans; [|apply IH].
  apply (fold_update_onlyAt candidateDB (fun pkg db => Remove db pkg)).
Qed.

Lemma selectNewest_onlyAt requested candidateDB selectedDB (h : Heap) :
  onlyAt selectedDB h (selectNewest requested candidateDB selectedDB h).
Proof.
  unfold selectNewest.
  apply (fold_update_onlyAt selectedDB
           (fun pkg db => selectPackage requested db pkg)).
Qed.

(** What [Resolve] leaves of a heap: the databases that were there are as
    they were, and at most two have been added. *)
Definition extends (h h' : Heap) : Prop :=
  (length h <= length h')%nat
  /\ forall l, (l < length h)%nat -> h' !! l = h !! l.

Lemma extends_refl (h : Heap) : extends h h.
Proof. split; auto. Qed.

Lemma extends_trans (h1 h2 h3 : Heap) :
  extends h1 h2 -> extends h2 h3 -> extends h1 h3.
Proof.
  intros [L1 E1] [L2 E2]. split; [lia|].
  intros l Hl. rewrite E2, E1; auto. lia.
Qed.

Lemma alloc_extends (h : Heap) : extends h (snd (alloc h)).
Proof.
  unfold alloc. simpl. split.
  - rewrite length_app. lia.
  - intros l Hl. now apply lookup_app_l.
Qed.

Lemma onlyAt_extends db (h0 h h' : Heap) :
  extends h0 h -> (length h0 <= db)%nat -> onlyAt db h h' -> extends h0 h'.
Proof.
  intros [L E] Hdb [L' E']. split; [lia|].
  intros l Hl. rewrite E', E; auto. lia.
Qed.

Lemma Resolve_extends fuel r reqs (h : Heap) :
  extends h (fst (Resolve fuel r reqs h)).
Proof.
  unfold Resolve.
  pose proof (alloc_extends h) as X0. unfold alloc in *. cbn [fst snd] in X0.
  cbv iota beta.
  set (candidateDB := length h) in *. set (h0 := h ++ [NewPackageDB]) in *.
  pose proof (seed_onlyAt r candidateDB reqs ∅ h0) as S1.
  destruct (seed r candidateDB reqs ∅ h0) as [h1 [requested|e]];
    cbn [fst] in S1.
  2: { cbn [fst]. apply (onlyAt_extends candidateDB h h0 h1 X0); [lia|exact S1]. }
  assert (X1 : extends h h1).
  { apply (onlyAt_extends candidateDB h h0 h1 X0); [lia|exact S1]. }
  pose proof (expand_onlyAt fuel r candidateDB
                (ForEach (deref h1 candidateDB)) ∅ h1) as S2.
  destruct (expand fuel r candidateDB _ ∅ h1) as [h2 o]; cbn [fst] in S2.
  assert (X2 : extends h h2).
  { apply (onlyAt_extends candidateDB h h1 h2 X1); [lia|exact S2]. }
  destruct o as [[]|e|]; cbn [fst]; auto.
  pose proof (pruneUnsatisfied_onlyAt fuel candidateDB h2) as S3.
  destruct (pruneUnsatisfied fuel candidateDB h2) as [h3 b]; cbn [fst] in S3.
  assert (X3 : extends h h3).
  { apply (onlyAt_extends candidateDB h h2 h3 X2); [lia|exact S3]. }
  destruct b; cbn [fst]; auto.
  pose proof (alloc_extends h3) as X4. unfold alloc in X4. cbn [snd] in X4.
  set (selectedDB := length h3) in *. set (h4 := h3 ++ [NewPackageDB]) in *.
  assert (X4' : extends h h4) by (apply (extends_trans h h3 h4); auto).
  assert (Hlen : (length h <= selectedDB)%nat) by (destruct X3; lia).
  pose proof (selectNewest_onlyAt requested candidateDB selectedDB h4) as S5.
  set (h5 := selectNewest requested candidateDB selectedDB h4) in *.
  assert (X5 : extends h h5).
  { apply (onlyAt_extends selectedDB h h4 h5 X4'); [lia|exact S5]. }
  pose proof (pruneUnsatisfied_onlyAt fuel selectedDB h5) as S6.
  destruct (pruneUnsatisfied fuel selectedDB h5) as [h6 b]; cbn [fst] in S6.
  assert (X6 : extends h h6).
  { apply (onlyAt_extends selectedDB h h5 h6 X5); [lia|exact S6]. }
  destruct b; cbn [fst]; auto.
  destruct (confirmRequested requested (deref h6 selectedDB)); cbn [fst]; auto.
Qed.

(** C9.  [Resolve] leaves the pool as it found it: whatever the requests and
    however the call ends (a selection, an error, or the bound of the model),
    every database that the heap held before the call, the resolver's pool
    among them, has the same contents after it. *)
Theorem Resolve_preserves_pool fuel (r : Resolver) (reqs : list string)
    (h : Heap) :
  (packageDB r < length h)%nat ->
  deref (fst (Resolve fuel r reqs h)) (packageDB r) = deref h (packageDB r)
  /\ forall l, (l < length h)%nat -> fst (Resolve fuel r reqs h) !! l = h !! l.
Proof.
  intros Hr. destruct (Resolve_extends fuel r reqs h) as [_ E].
  split; [|exact E]. unfold deref. now rewrite E.
Qed.

End Frame.
Section Closure.
Context {Ver Arc : Type} `{version.Ops Ver} `{arch.Ops Arc}.
Import packages.

Abbreviation Package := (types.Package Ver Arc).
Abbreviation Possibility := (dependency.Possibility Ver).
Abbreviation Relation := (dependency.Relation Ver).
Abbreviation DB := (PackageDB Ver Arc).
Abbreviation Heap := (packages.Heap Ver Arc).

(** The package [q] of the database satisfies the possibility: it is one of
    the entries that the database's lookup for the possibility returns (and
    has the possibility's name), or it is the provider chosen, over the
    database itself, for a virtual entry among them. *)
Definition satisfies (db : DB) (possi : Possibility) (q : Package) : Prop :=
  exists packageList,
    packageListFor db possi = Ok packageList
    /\ ((In q packageList /\ types.IsVirtual q = false
         /\ types.Name q = dependency.Name possi)
        \/ (exists virtualPkg,
              In virtualPkg packageList
              /\ In virtualPkg db
              /\ types.IsVirtual virtualPkg = true
              /\ types.Name virtualPkg = dependency.Name possi
              /\ resolveVirtualPackage db db virtualPkg = Ok q)).

(** Every relation that the resolver follows from [p] has a possibility
    satisfied by a package of the database. *)
Definition dependenciesMet (db : DB) (p : Package) : Prop :=
  forall rel, In rel (relationsOf p) ->
  exists possi q,
    In possi (dependency.Possibilities rel) /\ In q db /\ satisfies db possi q.

Definition closed (db : DB) : Prop :=
  forall p, In p db -> dependenciesMet db p.

Lemma packageListFor_sound (db : DB) possi packageList x :
  packageListFor db possi = Ok packageList -> In x packageList ->
  In x db /\ types.Name x = dependency.Name possi.
Proof.
  unfold packageListFor.
  destruct (dependency.PossiVersion possi) as [rel|].
  - repeat match goal with
           | |- context [if ?b then _ else _] => destruct b
           end; intros [= <-] Hx;
      try (now apply lookup.EarlierOrEqual_sound in Hx);
      try (now apply lookup.LaterOrEqual_sound in Hx).
    destruct (ExactlyEqual db _ _) as [pkg|] eqn:E; simpl in Hx; [|tauto].
    destruct Hx as [<-|[]].
    apply lookup.ExactlyEqual_sound in E. tauto.
  - intros [= <-] Hx. now apply lookup.Get_sound in Hx.
Qed.

Lemma resolvedPackages_In (db : DB) packageList q :
  In q (resolvedPackages db db packageList) ->
  exists pkg, In pkg packageList
    /\ ((types.IsVirtual pkg = false /\ q = pkg)
        \/ (types.IsVirtual pkg = true
            /\ resolveVirtualPackage db db pkg = Ok q)).
Proof.
  unfold resolvedPackages. rewrite in_flat_map.
  intros (pkg & Hp & Hq). exists pkg. split; [exact Hp|].
  destruct (types.IsVirtual pkg) eqn:V.
  - right. split; [reflexivity|].
    destruct (resolveVirtualPackage db db pkg) as [r|e]; simpl in Hq; [|tauto].
    destruct Hq as [->|[]]. reflexivity.
  - left. simpl in Hq. destruct Hq as [->|[]]. auto.
Qed.

Lemma resolveRelation_sound (db : DB) possis resolved :
  resolveRelation db db possis = Ok (Some resolved) ->
  exists possi q, In possi possis /\ In q db /\ satisfies db possi q.
Proof.
  induction possis as [|possi possis IH]; simpl; [discriminate|].
  destruct (packageListFor db possi) as [packageList|e] eqn:E; [|discriminate].
  destruct (0 <? length (resolvedPackages db db packageList))%nat eqn:L.
  - intros _. apply Nat.ltb_lt in L.
    destruct (resolvedPackages db db packageList) as [|q rest] eqn:R;
      [simpl in L; lia|].
    assert (Hq : In q (resolvedPackages db db packageList))
      by (rewrite R; now left).
    apply resolvedPackages_In in Hq.
    destruct Hq as (pkg & Hp & Hcase).
    destruct (packageListFor_sound db possi packageList pkg E Hp) as [Hdb Hn].
    exists possi, q. split; [now left|].
    destruct Hcase as [[V ->]|[V Hr]].
    + split; [exact Hdb|]. exists packageList. split; [exact E|]. left. auto.
    + split.
      * apply virtuals.resolveVirtualPackage_In in Hr.
        now apply virtuals.virtualProviders_sound in Hr.
      * exists packageList. split; [exact E|]. right. exists pkg. auto.
  - intros Hr. destruct (IH Hr) as (p' & q & Hin & Hq).
    exists p', q. split; [now right|exact Hq].
Qed.

Lemma dependenciesOf_sound (db : DB) relations :
  forall dependencies result,
  dependenciesOf db db relations dependencies = Ok result ->
  forall rel, In rel relations ->
  exists possi q,
    In possi (dependency.Possibilities rel) /\ In q db /\ satisfies db possi q.
Proof.
  induction relations as [|rel0 relations IH]; intros dependencies result;
    simpl; [tauto|].
  destruct (resolveRelation db db (dependency.Possibilities rel0))
    as [[resolved|]|e] eqn:E; try discriminate.
  intros Hrest rel [<-|Hin].
  - eapply resolveRelation_sound; eauto.
  - eapply IH; eauto.
Qed.

Lemma getDependencies_sound (db : DB) p :
  isErr (getDependencies db db p) = false -> dependenciesMet db p.
Proof.
  unfold getDependencies, dependenciesMet.
  destruct (dependenciesOf db db (relationsOf p) []) as [result|e] eqn:E;
    [|discriminate].
  intros _ rel Hrel. eapply dependenciesOf_sound; eauto.
Qed.

(** When [pruneUnsatisfied] reaches its [break], the last scan found nothing
    to prune: the database is closed. *)
Lemma pruneUnsatisfied_closed fuel db (h h' : Heap) :
  pruneUnsatisfied fuel db h = (h', true) -> closed (deref h' db).
Proof.
  revert h. induction fuel as [|fuel IH]; intros h;
    rewrite pruneUnsatisfied_unfold; cbv zeta;
    destruct (length (pruneListOf (deref h db)) =? 0)%nat eqn:L;
    try discriminate; eauto.
  all: intros [= <-]; apply Nat.eqb_eq in L;
    destruct (pruneListOf (deref h db)) as [|x l] eqn:P; [|discriminate];
    simpl; intros p Hp; apply getDependencies_sound;
    destruct (isErr (getDependencies (deref h db) (deref h db) p)) eqn:Ep;
      [|reflexivity];
    assert (Hin : In p (pruneListOf (deref h db)))
      by (unfold pruneListOf; apply filter_In; auto);
    rewrite P in Hin; destruct Hin.
Qed.


End Closure.
End resolver.

(** ** The version order *)

Module version_order.
Import debian.

Lemma lex_cons {A : Type} (cmp : A -> A -> comparison) (pad x y : A) a b :
  order.lex cmp pad (x :: a) (y :: b) =
  match cmp x y with
  | Eq => order.lex cmp pad a b
  | c => c
  end.
Proof. reflexivity. Qed.

Lemma lex_cons_nil {A : Type} (cmp : A -> A -> comparison) (pad x : A) a :
  order.lex cmp pad (x :: a) [] =
  match cmp x pad with
  | Eq => order.lex cmp pad a []
  | c => c
  end.
Proof.
  unfold order.lex. simpl. destruct (cmp x pad); try reflexivity.
  now rewrite Nat.max_0_r.
Qed.

Lemma compareRun_refl r : compareRun r r = Eq.
Proof.
  apply (order.total_refl _ (order.lex_Total Z.compare 0 order.Z_total)).
Qed.

(** A run that goes on with [~] sorts before the run that ends there. *)
Lemma compareRun_tilde r more : compareRun (r ++ -1 :: more) r = Lt.
Proof.
  unfold compareRun. induction r as [|x r IH]; simpl.
  - rewrite lex_cons_nil. reflexivity.
  - rewrite lex_cons, Z.compare_refl. exact IH.
Qed.

Lemma compareSegment_refl s : compareSegment s s = Eq.
Proof.
  unfold compareSegment, order.pair.
  now rewrite compareRun_refl, N.compare_refl.
Qed.

(** The first segment of a text read with a digit run under way has the
    non-digit run read before it. *)
Lemma segments_Some_shape l : forall run num,
  exists n rest, segments l run (Some num) = (rev run, n) :: rest.
Proof.
  induction l as [|c l IH]; intros run num; simpl.
  - eauto.
  - destruct (isDigit c); [apply IH|]. eauto.
Qed.

(** The first segment of a text read with a non-digit run under way starts
    with that run. *)
Lemma segments_None_shape l : forall run,
  exists more n rest, segments l run None = (rev run ++ more, n) :: rest.
Proof.
  induction l as [|c l IH]; intros run; simpl.
  - exists [], 0%N, []. now rewrite app_nil_r.
  - destruct (isDigit c).
    + destruct (segments_Some_shape l run (10 * 0 + digitValue c)%N)
        as (n & rest & E).
      exists [], n, rest. now rewrite app_nil_r.
    + destruct (IH (rank c :: run)) as (more & n & rest & E).
      exists (rank c :: more), n, rest. rewrite E. simpl.
      now rewrite <- app_assoc.
Qed.

Lemma segments_tilde t l : forall run num,
  order.lex compareSegment noSegment
    (segments (l ++ "~"%char :: t) run num) (segments l run num) = Lt.
Proof.
  induction l as [|c l IH]; intros run num.
  - simpl app. cbn [segments].
    change (isDigit "~"%char) with false. change (rank "~"%char) with (-1).
    cbv iota. destruct num as [n|]; cbn [default].
    + rewrite lex_cons, compareSegment_refl.
      destruct (segments_None_shape t [-1]) as (more & n' & rest & E).
      rewrite E. rewrite lex_cons_nil.
      unfold compareSegment at 1. unfold order.pair, noSegment. cbn [fst snd].
      change (rev [-1] ++ more) with ([] ++ -1 :: more).
      rewrite (compareRun_tilde [] more). reflexivity.
    + destruct (segments_None_shape t (-1 :: run)) as (more & n' & rest & E).
      rewrite E. rewrite lex_cons.
      unfold compareSegment at 1. unfold order.pair. cbn [fst snd rev].
      rewrite <- app_assoc. cbn [app].
      rewrite (compareRun_tilde (rev run) more). reflexivity.
  - simpl. destruct (isDigit c); [apply IH|].
    destruct num as [n|]; [|apply IH].
    rewrite lex_cons, compareSegment_refl. apply IH.
Qed.

Lemma list_ascii_app (s t : string) :
  list_ascii_of_string (s ++ t) =
  list_ascii_of_string s ++ list_ascii_of_string t.
Proof. induction s as [|c s IH]; simpl; [reflexivity|]. now rewrite IH. Qed.

(** [~] sorts before the end of the text: a text that goes on with [~] is
    earlier than the text that ends there. *)
Lemma compareText_tilde (s t : string) :
  compareText (s ++ String "~" t) s = Lt.
Proof.
  unfold compareText, segmentsOf. rewrite list_ascii_app. simpl.
  apply segments_tilde.
Qed.

(** A zero in front of a digit run does not change the segments: [l] is
    empty or ends with a character that is not a digit, and [d] is a digit. *)
Lemma segments_zero d t l : isDigit d = true ->
  forall run num,
  (l = [] -> num = None) ->
  isDigit (List.last l "a"%char) = false ->
  segments (l ++ "0"%char :: d :: t) run num = segments (l ++ d :: t) run num.
Proof.
  intros Hd. induction l as [|c l IH]; intros run num Hnum Hlast.
  - rewrite (Hnum eq_refl). simpl. rewrite Hd. reflexivity.
  - simpl app. cbn [segments].
    destruct l as [|c' l].
    + simpl in Hlast. rewrite Hlast.
      destruct num; [f_equal|]; apply IH; auto.
    + assert (Hl : isDigit (List.last (c' :: l) "a"%char) = false)
        by exact Hlast.
      destruct (isDigit c); [apply IH; [discriminate|exact Hl]|].
      destruct num; [f_equal|]; apply IH; try discriminate; exact Hl.
Qed.

(** Digit runs are compared as numbers: a zero in front of one changes
    nothing. *)
Lemma compareText_zero (s t : string) (d : ascii) :
  isDigit d = true ->
  isDigit (List.last (list_ascii_of_string s) "a"%char) = false ->
  forall u,
    compareText (s ++ String "0" (String d t)) u
    = compareText (s ++ String d t) u.
Proof.
  intros Hd Hs u. unfold compareText, segmentsOf.
  rewrite !list_ascii_app. simpl.
  rewrite (segments_zero d (list_ascii_of_string t) (list_ascii_of_string s)
             Hd [] None); auto.
Qed.

(** The comparison of two texts that [Parse] accepts. *)
Definition compareParsed (a b : string) : option comparison :=
  match Parse a, Parse b with
  | Some x, Some y => Some (compare x y)
  | _, _ => None
  end.


End version_order.

(** ** The decompressor *)

Module decompress.
Import util.

Definition startsWith (magic r : list byte) : Prop :=
  exists rest, r = magic ++ rest.

Lemma HasPrefix_startsWith (s prefix : list byte) :
  HasPrefix s prefix = true <-> startsWith prefix s.
Proof.
  unfold startsWith. revert s.
  induction prefix as [|p prefix IH]; intros s; simpl.
  - split; [intros _; exists s; reflexivity|reflexivity].
  - destruct s as [|x s].
    + split; [discriminate|]. intros [rest [=]].
    + rewrite andb_true_iff, IH. split.
      * intros [E [rest ->]]. apply byte_dec_bl in E. subst. eauto.
      * intros [rest [= -> ->]]. split; [now apply byte_dec_lb|eauto].
Qed.

(** The peeked bytes begin as the stream does. *)
Lemma HasPrefix_firstn (n : nat) (s prefix : list byte) :
  (length prefix <= n)%nat ->
  HasPrefix (firstn n s) prefix = HasPrefix s prefix.
Proof.
  revert n s. induction prefix as [|p prefix IH]; intros n s L; simpl.
  - destruct (firstn n s); reflexivity.
  - simpl in L. destruct n as [|n]; [lia|].
    destruct s as [|x s]; simpl; [reflexivity|].
    rewrite IH by lia. reflexivity.
Qed.

(** What [Decompress] does with a stream of eight bytes or more, and with a
    shorter one. *)
Lemma Decompress_unfold gz xz (r : list byte) :
  Decompress gz xz r =
  if (length r <? 8)%nat then inl PeekFailed
  else if HasPrefix r gzipMagic then
    match gz r with Some reader => inr reader | None => inl DecoderFailed end
  else if HasPrefix r xzMagic then
    match xz r with Some reader => inr reader | None => inl DecoderFailed end
  else inr r.
Proof.
  unfold Decompress, Peek. destruct (length r <? 8)%nat; [reflexivity|].
  rewrite !HasPrefix_firstn by (simpl; lia). reflexivity.
Qed.

(** C8, as stated, fails on a stream shorter than the eight bytes that
    [Decompress] peeks: the three bytes "abc" begin with neither magic
    number, and [Decompress] returns the error of the peek, not a reader
    that passes them through. *)
Lemma Decompress_short_stream_fails :
  ~ (forall (gz xz : list byte -> option (list byte)) (r : list byte),
       ~ startsWith gzipMagic r -> ~ startsWith xzMagic r ->
       Decompress gz xz r = inr r).
Proof.
  intros claim.
  specialize (claim (fun _ => None) (fun _ => None) [x61; x62; x63]).
  assert (N1 : ~ startsWith gzipMagic [x61; x62; x63])
    by (intros [rest [=]]).
  assert (N2 : ~ startsWith xzMagic [x61; x62; x63])
    by (intros [rest [=]]).
  specialize (claim N1 N2). discriminate claim.
Qed.

(** C8, amended.  On a stream of eight bytes or more, [Decompress] puts the
    gzip decoder over the stream when it begins with 1F 8B and the xz decoder
    when it begins with FD 37 7A 58 5A 00, and returns the decoder's reader
    or fails with the decoder's error; otherwise it returns a reader that
    yields the bytes of the stream unchanged.  On a shorter stream it fails
    with the error of the peek. *)
Theorem Decompress_sniffs (gz xz : list byte -> option (list byte))
    (r : list byte) :
  ((length r < 8)%nat -> Decompress gz xz r = inl PeekFailed)
  /\ ((8 <= length r)%nat ->
      (startsWith gzipMagic r ->
       Decompress gz xz r =
       match gz r with Some reader => inr reader | None => inl DecoderFailed end)
      /\ (startsWith xzMagic r ->
          Decompress gz xz r =
          match xz r with Some reader => inr reader | None => inl DecoderFailed end)
      /\ (~ startsWith gzipMagic r -> ~ startsWith xzMagic r ->
          Decompress gz xz r = inr r)).
Proof.
  rewrite Decompress_unfold. split.
  - intros L. apply Nat.ltb_lt in L. now rewrite L.
  - intros L. apply Nat.ltb_ge in L. rewrite L.
    split; [|split].
    + intros G. apply HasPrefix_startsWith in G. now rewrite G.
    + intros X.
      assert (G : HasPrefix r gzipMagic = false).
      { destruct X as [rest ->]. reflexivity. }
      apply HasPrefix_startsWith in X. now rewrite G, X.
    + intros NG NX.
      destruct (HasPrefix r gzipMagic) eqn:G;
        [now apply HasPrefix_startsWith in G|].
      destruct (HasPrefix r xzMagic) eqn:X;
        [now apply HasPrefix_startsWith in X|].
      reflexivity.
Qed.

End decompress.

(** ** The Packages file of a component *)

Module component.
Section Packages.
Context {Ver Arc : Type} `{version.Ops Ver} `{arch.Ops Arc}.
Context (Join : list string -> string) (URLString : source.URL -> string).
Context (httpGet : string -> source.Response)
        (gzipNewReader xzNewReader : list byte -> option (list byte))
        (decodePackages : list byte -> source.Decoding (Ver := Ver) (Arc := Arc))
        (sha256 : list byte -> list byte).
Import source.

Abbreviation Package := (types.Package Ver Arc).
Abbreviation attempt :=
  (source.attempt Join URLString httpGet gzipNewReader xzNewReader decodePackages sha256).
Abbreviation tryCandidates :=
  (source.tryCandidates Join URLString httpGet gzipNewReader xzNewReader decodePackages
     sha256).
Abbreviation Packages :=
  (source.Packages Join URLString httpGet gzipNewReader xzNewReader decodePackages
     sha256).

(** The candidate [name] fails with [cause]. *)
Definition failsWith (c : Component) (name : string) (cause : Cause) : Prop :=
  attempt c name = inl cause.

Lemma tryCandidates_all_fail (c : Component) names causes :
  Forall2 (failsWith c) names causes ->
  forall errs, tryCandidates c names errs = inl (errs ++ causes).
Proof.
  induction 1 as [|name cause names causes F _ IH]; intros errs; simpl.
  - now rewrite app_nil_r.
  - unfold failsWith in F. rewrite F, IH, <- app_assoc. reflexivity.
Qed.

Lemma tryCandidates_first_success (c : Component) before causes name after
    packageList :
  Forall2 (failsWith c) before causes ->
  attempt c name = inr packageList ->
  forall errs,
    tryCandidates c (before ++ name :: after) errs
    = inr (map (withSourceURL Join URLString c) packageList).
Proof.
  induction 1 as [|n cause before causes F _ IH]; intros S errs; simpl.
  - now rewrite S.
  - unfold failsWith in F. rewrite F. now apply IH.
Qed.

Lemma tryCandidates_cases (c : Component) names :
  forall errs,
  (exists causes,
     Forall2 (failsWith c) names causes
     /\ tryCandidates c names errs = inl (errs ++ causes))
  \/ (exists before causes name after packageList,
        names = before ++ name :: after
        /\ Forall2 (failsWith c) before causes
        /\ attempt c name = inr packageList
        /\ tryCandidates c names errs
           = inr (map (withSourceURL Join URLString c) packageList)).
Proof.
  induction names as [|name names IH]; intros errs.
  - left. exists []. split; [constructor|]. simpl. now rewrite app_nil_r.
  - simpl. destruct (attempt c name) as [cause|packageList] eqn:A.
    + destruct (IH (errs ++ [cause]))
        as [(causes & F & E)|(before & causes & n & after & l & -> & F & S & E)].
      * left. exists (cause :: causes). split; [now constructor|].
        rewrite E, <- app_assoc. reflexivity.
      * right. exists (name :: before), (cause :: causes), n, after, l.
        split; [reflexivity|]. split; [now constructor|].
        split; [exact S|exact E].
    + right. exists [], [], name, names, packageList.
      split; [reflexivity|]. split; [constructor|].
      split; [exact A|reflexivity].
Qed.

(** A candidate is given up for exactly the reasons that the loop names. *)
Lemma attempt_success (c : Component) name packageList :
  attempt c name = inr packageList <->
  exists status body dr,
    httpGet (URLString (withPath (ComponentURL c)
                          (Join [Path (ComponentURL c); name])))
    = Responded 200 status body
    /\ util.Decompress gzipNewReader xzNewReader body = inr dr
    /\ decodePackages dr = Decoded packageList
    /\ util.Verify sha256 body (statedSum c name) = true.
Proof.
  unfold source.attempt. split.
  - destruct (httpGet _) as [|code status body] eqn:G; [discriminate|].
    destruct (code =? 200) eqn:C; simpl; [|discriminate].
    apply Z.eqb_eq in C. subst code.
    destruct (util.Decompress _ _ body) as [e|dr] eqn:Z; [discriminate|].
    destruct (decodePackages dr) as [| |l] eqn:D; try discriminate.
    destruct (util.Verify sha256 body _) eqn:V; [|discriminate].
    intros [= <-]. exists status, body, dr.
    split; [reflexivity|]. split; [exact Z|]. split; [exact D|exact V].
  - intros (status & body & dr & -> & -> & -> & ->). reflexivity.
Qed.


End Packages.
End component.

(** ** The components of a source *)

Module components.

Lemma CutPrefix_app (p r : string) : strings.CutPrefix (p ++ r) p = Some r.
Proof.
  induction p as [|a p IH]; simpl; [reflexivity|].
  now rewrite Ascii.eqb_refl.
Qed.

Lemma CutPrefix_Some (p : string) : forall s r,
  strings.CutPrefix s p = Some r -> s = (p ++ r)%string.
Proof.
  induction p as [|a p IH]; intros s r; simpl.
  - now intros [= ->].
  - destruct s as [|b s]; [discriminate|].
    destruct (Ascii.eqb a b) eqn:E; [|discriminate].
    apply Ascii.eqb_eq in E. subst b. intros C. now rewrite (IH _ _ C).
Qed.

Lemma HasPrefix_app (p r : string) : strings.HasPrefix (p ++ r) p = true.
Proof. unfold strings.HasPrefix. now rewrite CutPrefix_app. Qed.

Lemma HasPrefix_app2 (p q r : string) :
  strings.HasPrefix (p ++ q ++ r) p = true.
Proof. apply HasPrefix_app. Qed.

Lemma app_inj_l (p a b : string) : (p ++ a = p ++ b)%string -> a = b.
Proof.
  induction p as [|c p IH]; [auto|].
  change (String c (p ++ a) = String c (p ++ b) -> a = b)%string.
  intros [= E]. auto.
Qed.

Lemma string_app_assoc (a b c : string) :
  ((a ++ b) ++ c = a ++ b ++ c)%string.
Proof.
  induction a as [|x a IH]; [reflexivity|].
  change (String x ((a ++ b) ++ c) = String x (a ++ b ++ c))%string.
  now rewrite IH.
Qed.

Section Components.
Context {Ver Arc : Type} `{version.Ops Ver} `{arch.Ops Arc}.
Context (Join : list string -> string) (Base : string -> string).
Context (URLString : source.URL -> string).
Context (fetchInRelease : string -> source.InRelease (Arc := Arc)).
Import source.

Abbreviation Components := (source.Components Join Base URLString fetchInRelease).

(** No path of the table begins with the text [dir] without going on with a
    slash: the directory has no sibling whose name it begins. *)
Definition noSibling (dir : string) (sums : gmap string (list byte)) : bool :=
  forallb
    (fun '(filename, _) =>
       implb (strings.HasPrefix filename dir)
             (strings.HasPrefix filename (dir ++ "/")))
    (map_to_list sums).

Lemma noSibling_lookup dir (sums : gmap string (list byte)) filename sum :
  noSibling dir sums = true -> sums !! filename = Some sum ->
  strings.HasPrefix filename dir = true ->
  strings.HasPrefix filename (dir ++ "/") = true.
Proof.
  unfold noSibling. rewrite forallb_forall. intros F L P.
  apply elem_of_map_to_list in L. apply list_elem_of_In in L.
  specialize (F _ L). simpl in F. now rewrite P in F.
Qed.

Lemma noSibling_insert dir (sums : gmap string (list byte)) filename sum :
  sums !! filename = None ->
  noSibling dir (<[filename := sum]> sums) = true ->
  noSibling dir sums = true
  /\ (strings.HasPrefix filename dir = true ->
      strings.HasPrefix filename (dir ++ "/") = true).
Proof.
  intros N F. split.
  - unfold noSibling. rewrite forallb_forall. intros [f x] Hin.
    apply list_elem_of_In, elem_of_map_to_list in Hin.
    destruct (strings.HasPrefix f dir) eqn:P; [|reflexivity]. simpl.
    apply (noSibling_lookup dir _ f x F); [|exact P].
    rewrite lookup_insert_ne; [exact Hin|]. intros ->. congruence.
  - apply (noSibling_lookup dir _ filename sum F). apply lookup_insert_eq.
Qed.

(** Without such a sibling, the sums of a component are the sums of the
    Release file under the directory, each under its path below it. *)
Lemma componentSums_lookup dir (sums : gmap string (list byte)) :
  noSibling dir sums = true ->
  forall k, componentSums dir sums !! k = sums !! (dir ++ "/" ++ k)%string.
Proof.
  unfold componentSums.
  apply (map_fold_weak_ind
           (fun (r : gmap string (list byte)) (m : gmap string (list byte)) =>
              noSibling dir m = true ->
              forall k, r !! k = m !! (dir ++ "/" ++ k)%string)).
  - intros _ k. now rewrite !lookup_empty.
  - intros filename sum m r N IH F k.
    destruct (noSibling_insert dir m filename sum N F) as [Fm Ff].
    specialize (IH Fm).
    destruct (strings.HasPrefix filename dir) eqn:P.
    + specialize (Ff eq_refl). unfold strings.HasPrefix in Ff.
      unfold strings.TrimPrefix.
      destruct (strings.CutPrefix filename (dir ++ "/")) as [rest|] eqn:C;
        [|discriminate].
      apply CutPrefix_Some in C. rewrite string_app_assoc in C. subst filename.
      destruct (String.eqb_spec rest k) as [->|Hne].
      * now rewrite !lookup_insert_eq.
      * rewrite (lookup_insert_ne r rest k sum) by congruence.
        rewrite lookup_insert_ne; [apply IH|].
        intros E. apply app_inj_l in E.
        change (String "/" rest = String "/" k) in E. congruence.
    + rewrite lookup_insert_ne; [apply IH|].
      intros ->. rewrite HasPrefix_app2 in P. discriminate.
Qed.

Lemma fold_insert_true (l : list string) : forall (m : gmap string bool) x,
  fold_left (fun m c => <[c := true]> m) l m !! x
  = if existsb (String.eqb x) l then Some true else m !! x.
Proof.
  induction l as [|c l IH]; intros m x; simpl; [reflexivity|].
  rewrite IH. destruct (existsb (String.eqb x) l).
  - now rewrite orb_true_r.
  - rewrite orb_false_r. destruct (String.eqb_spec x c) as [->|Hne].
    + apply lookup_insert_eq.
    + now rewrite lookup_insert_ne by congruence.
Qed.

Lemma existsb_eqb_In (x : string) l : existsb (String.eqb x) l = true <-> In x l.
Proof.
  rewrite existsb_exists. split.
  - intros (y & Hy & E). apply String.eqb_eq in E. now subst.
  - intros Hx. exists x. split; [exact Hx|apply String.eqb_refl].
Qed.

(** The desired components are the configured ones and the default. *)
Lemma isDesired_spec (s : Source) component :
  isDesired (desiredComponents s) component = true <->
  In component defaultComponents \/ In component (components s).
Proof.
  unfold isDesired, desiredComponents.
  rewrite !fold_insert_true, lookup_empty, <- !existsb_eqb_In.
  destruct (existsb (String.eqb component) (components s));
    destruct (existsb (String.eqb component) defaultComponents);
    cbn [default]; intuition discriminate.
Qed.

Lemma flat_map_list_prod {A B C : Type} (f : A -> B -> C) la lb :
  flat_map (fun a => map (f a) lb) la
  = map (fun '(a, b) => f a b) (list_prod la lb).
Proof.
  induction la as [|a la IH]; simpl; [reflexivity|].
  now rewrite map_app, map_map, IH.
Qed.

(** C6, amended.  When the InRelease file is fetched, signed and decoded,
    its sums can be read, and the Release has an architecture and a
    component that are wanted, [Components] returns one component for each
    pair of a wanted component and a wanted architecture, in the order of the
    Release file.  The wanted components are those of the Release that are
    configured or the default [main]; the wanted architectures are those of
    the Release that [Is] the architecture [all] or the target.  The
    component of a pair has its name and architecture, the URL of the source
    with the path [<path>/dists/<distribution>/<comp>/binary-<arch>], and,
    when the directory [<base of comp>/binary-<arch>] has no sibling whose
    name it begins, the sums of the Release file under that directory, each
    under its path below it. *)
Theorem Components_enumerates (s : Source) (targetArch : Arc)
    (release : Release) (sums : gmap string (list byte)) :
  fetchInRelease
    (URLString
       (withPath (sourceURL s)
          (Join [Path (sourceURL s); "dists"; distribution s; "InRelease"])))%string
  = Signed release ->
  SHA256Sums release = Some sums ->
  availableArchitectures release targetArch <> [] ->
  availableComponents s release <> [] ->
  (forall a, In a (availableArchitectures release targetArch) <->
     In a (Architectures release)
     /\ (arch.Is a arch.all = true \/ arch.Is a targetArch = true))
  /\ (forall comp, In comp (availableComponents s release) <->
        In comp (ReleaseComponents release)
        /\ (In comp defaultComponents \/ In comp (components s)))
  /\ Components s targetArch
     = inr (map (fun '(comp, a) => componentFor Join Base s sums comp a)
                (list_prod (availableComponents s release)
                           (availableArchitectures release targetArch)))
  /\ (forall comp a,
        let c := componentFor Join Base s sums comp a in
        Name c = comp /\ Arch c = a
        /\ Host (ComponentURL c) = Host (sourceURL s)
        /\ Path (ComponentURL c)
           = Join [Path (sourceURL s); "dists"; distribution s; comp;
                   "binary-" ++ arch.String a]%string
        /\ (let dir := Join [Base comp; "binary-" ++ arch.String a]%string in
            noSibling dir sums = true ->
            forall k,
              ComponentSHA256Sums c !! k = sums !! (dir ++ "/" ++ k)%string)).
Proof.
  intros F S NA NC. split; [|split; [|split]].
  - intros a. unfold availableArchitectures. rewrite filter_In, orb_true_iff.
    tauto.
  - intros comp. unfold availableComponents. rewrite filter_In, isDesired_spec.
    tauto.
  - unfold source.Components. rewrite F.
    destruct (availableArchitectures release targetArch) as [|a0 la] eqn:EA;
      [congruence|].
    destruct (availableComponents s release) as [|c0 lc] eqn:EC;
      [congruence|].
    cbn [length Nat.eqb]. rewrite S.
    now rewrite (flat_map_list_prod (componentFor Join Base s sums)).
  - intros comp a. cbv zeta. repeat split.
    intros NS k. apply (componentSums_lookup _ _ NS).
Qed.

End Components.
End components.

(** ** Ordered trees

    What the scans of [btree] do on a list that is ascending for a total
    preorder. *)

Module sorted.
Section Sorted.
Context {T : Type} (cmp : T -> T -> comparison) (Tot : order.Total cmp).
Context (less : T -> T -> bool).
Context (less_cmp : forall a b, less a b = true <-> cmp a b = Lt).

Definition lt (a b : T) : Prop := cmp a b = Lt.

Definition ordered (t : list T) : Prop := StronglySorted lt t.

Lemma less_false a b : less a b = false <-> cmp a b <> Lt.
Proof using less_cmp.
  rewrite <- less_cmp. destruct (less a b); split; congruence.
Qed.

Lemma cmp_Gt_flip a b : cmp a b = Gt <-> cmp b a = Lt.
Proof using Tot.
  rewrite (order.antisym _ Tot a b). destruct (cmp b a); simpl; split; congruence.
Qed.

Lemma cmp_Eq_flip a b : cmp a b = Eq <-> cmp b a = Eq.
Proof using Tot.
  rewrite (order.antisym _ Tot a b). destruct (cmp b a); simpl; split; congruence.
Qed.

Lemma lt_irrefl a : ~ lt a a.
Proof using Tot. unfold lt. rewrite (order.total_refl _ Tot). discriminate. Qed.

Lemma lt_eq_l a b c : cmp a b = Eq -> lt b c -> lt a c.
Proof using Tot. unfold lt. intros E L. now rewrite (order.eq_l _ Tot _ _ c E). Qed.

Lemma lt_eq_r a b c : lt a b -> cmp b c = Eq -> lt a c.
Proof using Tot.
  unfold lt. intros L E. now rewrite <- (order.total_eq_r _ Tot a _ _ E).
Qed.

Lemma ordered_inv x t :
  ordered (x :: t) -> ordered t /\ forall y, In y t -> lt x y.
Proof.
  intros S. apply StronglySorted_inv in S. destruct S as [S F].
  split; [exact S|]. now apply List.Forall_forall.
Qed.

Lemma ordered_cons x t :
  ordered t -> (forall y, In y t -> lt x y) -> ordered (x :: t).
Proof.
  intros S F. constructor; [exact S|]. now apply List.Forall_forall.
Qed.

(** Two items of an ordered tree that compare equal are the same item. *)
Lemma ordered_unique t : ordered t ->
  forall x y, In x t -> In y t -> cmp x y = Eq -> x = y.
Proof using Tot.
  induction t as [|a t IH]; intros S x y; [intros []|].
  apply ordered_inv in S. destruct S as [S F].
  intros [<-|Hx] [<-|Hy] E; auto.
  - specialize (F _ Hy). unfold lt in F. congruence.
  - specialize (F _ Hx). apply cmp_Eq_flip in E. unfold lt in F. congruence.
Qed.

Lemma ReplaceOrInsert_In_iff item t : ordered t ->
  forall x, In x (btree.ReplaceOrInsert less item t) <->
            x = item \/ (In x t /\ cmp x item <> Eq).
Proof using Tot less_cmp.
  induction t as [|a t IH]; intros S x; simpl.
  - intuition.
  - apply ordered_inv in S. destruct S as [S F].
    destruct (less a item) eqn:L1.
    + apply less_cmp in L1. simpl. rewrite (IH S). split.
      * intros [<-|[->|[Hx N]]]; auto. right. split; [now left|congruence].
      * intros [->|[[<-|Hx] N]]; auto.
    + apply less_false in L1. destruct (less item a) eqn:L2.
      * apply less_cmp in L2. simpl. split.
        -- intros [<-|[<-|Hx]]; auto.
           ++ right. split; [now left|]. apply cmp_Gt_flip in L2. congruence.
           ++ right. split; [now right|].
              intros E. specialize (F _ Hx).
              assert (cmp item x = Lt)
                by (apply (order.lt_trans _ Tot _ a); assumption).
              apply cmp_Eq_flip in E. congruence.
        -- intros [->|[[<-|Hx] N]]; auto.
      * apply less_false in L2.
        assert (E : cmp a item = Eq).
        { destruct (cmp a item) eqn:C; auto; [congruence|].
          apply cmp_Gt_flip in C. congruence. }
        simpl. split.
        -- intros [<-|Hx]; auto. right. split; [now right|].
           intros E'. specialize (F _ Hx).
           apply cmp_Eq_flip in E'. apply cmp_Eq_flip in E.
           pose proof (lt_eq_l _ _ _ E F) as Bad. unfold lt in Bad.
           congruence.
        -- intros [->|[[<-|Hx] N]]; auto. congruence.
Qed.

Lemma ReplaceOrInsert_ordered item t :
  ordered t -> ordered (btree.ReplaceOrInsert less item t).
Proof using Tot less_cmp.
  induction t as [|a t IH]; intros S; simpl.
  - apply ordered_cons; [constructor|intros y []].
  - pose proof S as S0. apply ordered_inv in S. destruct S as [S F].
    destruct (less a item) eqn:L1.
    + apply less_cmp in L1. apply ordered_cons; [now apply IH|].
      intros y Hy. apply (ReplaceOrInsert_In_iff item t S) in Hy.
      destruct Hy as [->|[Hy _]]; [exact L1|now apply F].
    + apply less_false in L1. destruct (less item a) eqn:L2.
      * apply less_cmp in L2. apply ordered_cons; [exact S0|].
        intros y [<-|Hy]; [exact L2|].
        apply (order.lt_trans _ Tot _ a); [exact L2|now apply F].
      * apply less_false in L2.
        assert (E : cmp item a = Eq).
        { destruct (cmp item a) eqn:C; auto; [congruence|].
          apply cmp_Gt_flip in C. congruence. }
        apply ordered_cons; [exact S|].
        intros y Hy. apply (lt_eq_l _ _ _ E). now apply F.
Qed.

Lemma Delete_In_iff item t : ordered t ->
  forall x, In x (btree.Delete less item t) <-> In x t /\ cmp x item <> Eq.
Proof using Tot less_cmp.
  induction t as [|a t IH]; intros S x; simpl.
  - intuition.
  - apply ordered_inv in S. destruct S as [S F].
    destruct (less a item) eqn:L1.
    + apply less_cmp in L1. simpl. rewrite (IH S). split.
      * intros [<-|[Hx N]]; auto. split; [now left|congruence].
      * intros [[<-|Hx] N]; auto.
    + apply less_false in L1. destruct (less item a) eqn:L2.
      * apply less_cmp in L2. simpl. split.
        -- intros [<-|Hx].
           ++ split; [now left|]. apply cmp_Gt_flip in L2. congruence.
           ++ split; [now right|]. intros E. specialize (F _ Hx).
              assert (cmp item x = Lt)
                by (apply (order.lt_trans _ Tot _ a); assumption).
              apply cmp_Eq_flip in E. congruence.
        -- intros [[<-|Hx] N]; auto.
      * apply less_false in L2.
        assert (E : cmp a item = Eq).
        { destruct (cmp a item) eqn:C; auto; [congruence|].
          apply cmp_Gt_flip in C. congruence. }
        split.
        -- intros Hx. split; [now right|].
           intros E'. specialize (F _ Hx).
           apply cmp_Eq_flip in E'. apply cmp_Eq_flip in E.
           pose proof (lt_eq_l _ _ _ E F) as Bad. unfold lt in Bad.
           congruence.
        -- intros [[<-|Hx] N]; auto. congruence.
Qed.

Lemma Delete_ordered item t : ordered t -> ordered (btree.Delete less item t).
Proof using Tot less_cmp.
  induction t as [|a t IH]; intros S; simpl; [exact S|].
  pose proof S as S0. apply ordered_inv in S. destruct S as [S F].
  destruct (less a item) eqn:L1.
  - apply ordered_cons; [now apply IH|].
    intros y Hy. apply (Delete_In_iff item t S) in Hy. now apply F.
  - destruct (less item a); [exact S0|exact S].
Qed.

Lemma Get_Some_iff key t : ordered t ->
  forall x, btree.Get less key t = Some x <-> In x t /\ cmp x key = Eq.
Proof using Tot less_cmp.
  induction t as [|a t IH]; intros S x; simpl.
  - split; [discriminate|intros [[] _]].
  - apply ordered_inv in S. destruct S as [S F].
    destruct (less a key) eqn:L1.
    + apply less_cmp in L1. rewrite (IH S). split.
      * intros [Hx E]. auto.
      * intros [[<-|Hx] E]; [congruence|auto].
    + apply less_false in L1. destruct (less key a) eqn:L2.
      * apply less_cmp in L2. split; [discriminate|].
        intros [[<-|Hx] E].
        -- apply cmp_Eq_flip in E. congruence.
        -- specialize (F _ Hx).
           assert (cmp key x = Lt)
             by (apply (order.lt_trans _ Tot _ a); assumption).
           apply cmp_Eq_flip in E. congruence.
      * apply less_false in L2.
        assert (E : cmp a key = Eq).
        { destruct (cmp a key) eqn:C; auto; [congruence|].
          apply cmp_Gt_flip in C. congruence. }
        split.
        -- intros [= <-]. auto.
        -- intros [[<-|Hx] E']; [reflexivity|].
           specialize (F _ Hx). apply cmp_Eq_flip in E'.
           apply cmp_Eq_flip in E.
           pose proof (lt_eq_l _ _ _ E F) as Bad. unfold lt in Bad.
           congruence.
Qed.

Lemma Get_None_iff key t : ordered t ->
  btree.Get less key t = None <-> forall x, In x t -> cmp x key <> Eq.
Proof using Tot less_cmp.
  intros S. split.
  - intros N x Hx E.
    assert (G : btree.Get less key t = Some x)
      by (apply (Get_Some_iff key t S); auto).
    congruence.
  - intros N. destruct (btree.Get less key t) as [x|] eqn:G; [|reflexivity].
    apply (Get_Some_iff key t S) in G. destruct G as [Hx E].
    now apply N in E.
Qed.

(** On an ordered tree, the items from the pivot on are the items that are
    not below the pivot. *)
Lemma AscendGreaterOrEqual_filter pivot t : ordered t ->
  btree.AscendGreaterOrEqual less pivot t
  = List.filter (fun x => negb (less x pivot)) t.
Proof using Tot less_cmp.
  induction t as [|a t IH]; intros S; simpl; [reflexivity|].
  apply ordered_inv in S. destruct S as [S F].
  destruct (less a pivot) eqn:L1; simpl; [now apply IH|].
  f_equal. symmetry. apply List.forallb_filter_id.
  apply forallb_forall. intros y Hy. apply negb_true_iff.
  apply less_false. apply less_false in L1. intros L.
  specialize (F _ Hy).
  assert (cmp a pivot = Lt)
    by (apply (order.lt_trans _ Tot _ y); assumption).
  congruence.
Qed.

End Sorted.
End sorted.

(** ** The order of packages

    Under a total preorder of versions, and with architectures that match
    only when they have the same name, [Package.Compare] is the
    lexicographic order of name, version and architecture name. *)

Module pkgorder.

Lemma ascii_total : order.Total Ascii.compare.
Proof.
  split.
  - intros x y. apply Ascii.compare_antisym.
  - intros x y z E. apply Ascii.compare_eq_iff in E. now subst.
  - intros x y z. unfold Ascii.compare. rewrite !N.compare_lt_iff. lia.
Qed.

Lemma string_lt_trans : forall x y z,
  String.compare x y = Lt -> String.compare y z = Lt -> String.compare x z = Lt.
Proof.
  induction x as [|a x IH]; intros [|b y] [|c z]; simpl; try discriminate; auto.
  destruct (Ascii.compare a b) eqn:E1; try discriminate.
  - apply Ascii.compare_eq_iff in E1. subst b.
    destruct (Ascii.compare a c); auto. apply IH.
  - intros _. destruct (Ascii.compare b c) eqn:E2; try discriminate.
    + apply Ascii.compare_eq_iff in E2. subst c. now rewrite E1.
    + now rewrite (order.lt_trans _ ascii_total _ _ _ E1 E2).
Qed.

Lemma string_total : order.Total String.compare.
Proof.
  split.
  - intros x y. apply String.compare_antisym.
  - intros x y z E. apply String.compare_eq_iff in E. now subst.
  - apply string_lt_trans.
Qed.

Section Order.
Context {Ver Arc : Type} `{VL : version.Laws Ver} `{AP : arch.Plain Arc}.

Abbreviation Package := (types.Package Ver Arc).

(** The comparison of versions, as a three-way result. *)
Definition vcmp (a b : Ver) : comparison := Z.compare (version.Compare a b) 0.

Lemma vcmp_total : order.Total vcmp.
Proof.
  unfold vcmp. split.
  - intros x y. pose proof (version.Compare_antisym x y).
    destruct (Z.compare_spec (version.Compare x y) 0);
      destruct (Z.compare_spec (version.Compare y x) 0); simpl; auto; lia.
  - intros x y z E. apply Z.compare_eq in E.
    pose proof (version.vcmp_eq_l x y z E).
    destruct (Z.compare_spec (version.Compare x z) 0);
      destruct (Z.compare_spec (version.Compare y z) 0); auto; lia.
  - intros x y z. rewrite !Z.compare_lt_iff. intros L1 L2.
    apply (version.vcmp_lt_le_trans x y z); lia.
Qed.

Definition key (p : Package) : string * (Ver * string) :=
  (types.Name p, (types.Version p, arch.String (types.Architecture p))).

Definition compareKey : string * (Ver * string) -> string * (Ver * string)
                        -> comparison :=
  order.pair String.compare (order.pair vcmp String.compare).

Definition cmp (a b : Package) : comparison := compareKey (key a) (key b).

Lemma cmp_total : order.Total cmp.
Proof.
  unfold cmp. apply (order.on_total compareKey key).
  apply order.pair_total; [apply string_total|].
  apply order.pair_total; [apply vcmp_total|apply string_total].
Qed.

Lemma strings_Compare_sign a b :
  Z.compare (strings.Compare a b) 0 = String.compare a b.
Proof. unfold strings.Compare. destruct (String.compare a b); reflexivity. Qed.

Lemma strings_Compare_zero a b :
  (strings.Compare a b =? 0) = true <-> String.compare a b = Eq.
Proof.
  unfold strings.Compare. destruct (String.compare a b); simpl;
    split; congruence.
Qed.

(** [Package.Compare] has the sign of the lexicographic comparison. *)
Lemma Compare_sign (a b : Package) : Z.compare (types.Compare a b) 0 = cmp a b.
Proof.
  unfold types.Compare, cmp, compareKey, order.pair, key. cbn [fst snd].
  destruct (strings.Compare (types.Name a) (types.Name b) =? 0) eqn:N; simpl.
  - apply strings_Compare_zero in N. rewrite N.
    destruct (version.Compare (types.Version a) (types.Version b) =? 0) eqn:V;
      simpl.
    + apply Z.eqb_eq in V. unfold vcmp. rewrite V. simpl.
      destruct (arch.Is (types.Architecture a) (types.Architecture b)) eqn:I1;
        simpl.
      * apply arch.Is_String in I1. rewrite I1.
        now rewrite (order.total_refl _ string_total).
      * destruct (arch.Is (types.Architecture b) (types.Architecture a)) eqn:I2.
        -- apply arch.Is_String in I2. rewrite I2.
           now rewrite (order.total_refl _ string_total).
        -- destruct (strings.Compare _ _ =? 0) eqn:A; simpl.
           ++ apply strings_Compare_zero in A. now rewrite A.
           ++ apply strings_Compare_sign.
    + apply Z.eqb_neq in V. unfold vcmp.
      destruct (Z.compare_spec
                  (version.Compare (types.Version a) (types.Version b)) 0);
        try reflexivity. contradiction.
  - rewrite strings_Compare_sign.
    destruct (String.compare (types.Name a) (types.Name b)) eqn:C;
      try reflexivity.
    apply strings_Compare_zero in C. congruence.
Qed.

Lemma less_cmp (a b : Package) : types.less a b = true <-> cmp a b = Lt.
Proof.
  unfold types.less. rewrite <- Compare_sign, Z.ltb_lt, Z.compare_lt_iff.
  reflexivity.
Qed.

Lemma Compare_zero (a b : Package) : types.Compare a b = 0 <-> cmp a b = Eq.
Proof. rewrite <- Compare_sign, Z.compare_eq_iff. reflexivity. Qed.

Lemma Compare_eqb (a b : Package) :
  (types.Compare a b =? 0) = true <-> cmp a b = Eq.
Proof. rewrite Z.eqb_eq. apply Compare_zero. Qed.

(** Packages compare equal when they have the same name, versions that
    compare equal, and architectures of the same name. *)
Lemma cmp_Eq_iff (a b : Package) :
  cmp a b = Eq <->
  types.Name a = types.Name b
  /\ version.Compare (types.Version a) (types.Version b) = 0
  /\ arch.String (types.Architecture a) = arch.String (types.Architecture b).
Proof.
  unfold cmp, compareKey, order.pair, key, vcmp. cbn [fst snd]. split.
  - destruct (String.compare (types.Name a) (types.Name b)) eqn:N;
      try discriminate.
    apply String.compare_eq_iff in N.
    destruct (Z.compare_spec
                (version.Compare (types.Version a) (types.Version b)) 0);
      try discriminate.
    intros A. apply String.compare_eq_iff in A. auto.
  - intros (N & V & A). rewrite N, V, A.
    rewrite !(order.total_refl _ string_total). reflexivity.
Qed.

Abbreviation ordered := (sorted.ordered cmp).

End Order.
End pkgorder.

(** ** The virtual entries of the database *)

Module database.
Section Invariant.
Context {Ver Arc : Type} `{VL : version.Laws Ver} `{AP : arch.Plain Arc}.
Import packages.

Abbreviation Package := (types.Package Ver Arc).
Abbreviation Possibility := (dependency.Possibility Ver).
Abbreviation DB := (PackageDB Ver Arc).
Abbreviation cmp := (pkgorder.cmp (Ver := Ver) (Arc := Arc)).
Abbreviation ordered := (sorted.ordered cmp).

(** Two packages of equal identity: [Compare] gives 0. *)
Definition same (a b : Package) : Prop := cmp a b = Eq.

(** A package as an archive gives it: not virtual, without providers, and
    with an architecture. *)
Definition concrete (p : Package) : Prop :=
  types.IsVirtual p = false
  /\ types.Providers p = []
  /\ arch.String (types.Architecture p) <> arch.String arch.zero.

(** An entry as [addPackage] makes it for a provided name. *)
Definition virtualEntry (v : Package) : Prop :=
  types.IsVirtual v = true
  /\ types.Architecture v = arch.zero
  /\ types.Providers v <> [].

(** The package lists, in its Provides, a possibility whose virtual entry
    is [v]. *)
Definition provides (q v : Package) : Prop :=
  exists possi,
    In possi (types.possibilities (types.Provides q))
    /\ same (virtualFor possi) v.

Lemma same_refl a : same a a.
Proof. apply (order.total_refl _ pkgorder.cmp_total). Qed.

Lemma same_sym a b : same a b -> same b a.
Proof. apply (sorted.cmp_Eq_flip _ pkgorder.cmp_total). Qed.

Lemma same_trans a b c : same a b -> same b c -> same a c.
Proof.
  unfold same. intros E1 E2.
  now rewrite (order.eq_l _ pkgorder.cmp_total _ _ c E1).
Qed.

Lemma same_dec a b : same a b \/ ~ same a b.
Proof. unfold same. destruct (cmp a b); auto; right; discriminate. Qed.

Lemma same_withProviders (a : Package) ps : same (types.withProviders a ps) a.
Proof. apply pkgorder.cmp_Eq_iff. simpl. split; [reflexivity|]. split; [apply version.vcmp_refl|reflexivity]. Qed.

(** The key of a provided name is never a concrete package. *)
Lemma virtualFor_not_concrete possi (e : Package) :
  concrete e -> ~ same (virtualFor possi) e.
Proof.
  intros (_ & _ & A) S. apply pkgorder.cmp_Eq_iff in S.
  destruct S as (_ & _ & E). simpl in E. congruence.
Qed.

Lemma concrete_not_virtualEntry e : concrete e -> virtualEntry e -> False.
Proof. intros (V & _) (V' & _). congruence. Qed.


(** The database holds a virtual entry for the key. *)
Definition hasVirtual (db : DB) (k : Package) : Prop :=
  exists v, In v db /\ types.IsVirtual v = true /\ same k v.

(** Who the providers of the virtual entry [v] are to be, while the
    possibilities [reg] of the package [p] are the ones taken into account
    for it. *)
Definition expected (db : DB) (p : Package) (reg : Possibility -> Prop)
    (v q : Package) : Prop :=
  (In q db /\ ~ same q p /\ types.IsVirtual q = false /\ provides q v)
  \/ (q = p /\ exists possi, reg possi /\ same (virtualFor possi) v).

(** The state of the database in the middle of [addPackage] or of [Remove]
    for the package [p]. *)
Record GInv (db : DB) (p : Package) (reg : Possibility -> Prop) : Prop := {
  g_ordered : ordered db;
  g_kinds : forall e, In e db -> concrete e \/ virtualEntry e;
  g_providers : forall v, In v db -> types.IsVirtual v = true ->
    forall q, In q (types.Providers v) <-> expected db p reg v q;
  g_entries : forall q, In q db -> types.IsVirtual q = false -> ~ same q p ->
    forall possi, In possi (types.possibilities (types.Provides q)) ->
    hasVirtual db (virtualFor possi);
  g_registered : forall possi, reg possi -> hasVirtual db (virtualFor possi);
  g_nodup : forall v, In v db -> types.IsVirtual v = true ->
    List.NoDup (types.Providers v);
}.

(** The state of the database between operations. *)
Record Inv (db : DB) : Prop := {
  i_ordered : ordered db;
  i_kinds : forall e, In e db -> concrete e \/ virtualEntry e;
  i_providers : forall v, In v db -> types.IsVirtual v = true ->
    forall q, In q (types.Providers v) <->
              In q db /\ types.IsVirtual q = false /\ provides q v;
  i_entries : forall q, In q db -> types.IsVirtual q = false ->
    forall possi, In possi (types.possibilities (types.Provides q)) ->
    hasVirtual db (virtualFor possi);
  i_nodup : forall v, In v db -> types.IsVirtual v = true ->
    List.NoDup (types.Providers v);
}.

Lemma GInv_ext db p (reg reg' : Possibility -> Prop) :
  (forall x, reg x <-> reg' x) -> GInv db p reg -> GInv db p reg'.
Proof.
  intros E [O K P En R N]. split; auto.
  - intros v Hv V q. rewrite (P v Hv V q). unfold expected.
    split; (intros [A|[-> (possi & Hr & S)]]; [left; exact A|]);
      right; (split; [reflexivity|]); exists possi; split; auto;
      now apply E.
  - intros possi Hr. apply R. now apply E.
Qed.

(** An entry found for the key of a provided name is a virtual entry. *)
Lemma Get_virtual (db : DB) possi existing :
  ordered db -> (forall e, In e db -> concrete e \/ virtualEntry e) ->
  btree.Get types.less (virtualFor possi) db = Some existing ->
  In existing db /\ same (virtualFor possi) existing /\ virtualEntry existing.
Proof.
  intros O K G.
  apply (sorted.Get_Some_iff cmp pkgorder.cmp_total types.less
           pkgorder.less_cmp _ _ O) in G.
  destruct G as [Hin E]. apply same_sym in E.
  split; [exact Hin|]. split; [exact E|].
  destruct (K _ Hin) as [C|V]; [|exact V].
  now apply virtualFor_not_concrete in E.
Qed.

Lemma Get_no_virtual (db : DB) possi :
  ordered db ->
  btree.Get types.less (virtualFor possi) db = None ->
  forall x, In x db -> ~ same (virtualFor possi) x.
Proof.
  intros O G x Hx S.
  pose proof (proj1 (sorted.Get_None_iff cmp pkgorder.cmp_total types.less
                       pkgorder.less_cmp (virtualFor possi) db O) G) as N.
  apply (N x Hx). now apply same_sym.
Qed.

Lemma RoI_In (db : DB) item : ordered db ->
  forall x, In x (btree.ReplaceOrInsert types.less item db) <->
            x = item \/ (In x db /\ ~ same x item).
Proof.
  intros O x.
  apply (sorted.ReplaceOrInsert_In_iff cmp pkgorder.cmp_total types.less
           pkgorder.less_cmp _ _ O).
Qed.

Lemma RoI_ordered (db : DB) item :
  ordered db -> ordered (btree.ReplaceOrInsert types.less item db).
Proof.
  apply (sorted.ReplaceOrInsert_ordered cmp pkgorder.cmp_total types.less
           pkgorder.less_cmp).
Qed.

Lemma Del_In (db : DB) item : ordered db ->
  forall x, In x (btree.Delete types.less item db) <->
            In x db /\ ~ same x item.
Proof.
  intros O x.
  apply (sorted.Delete_In_iff cmp pkgorder.cmp_total types.less
           pkgorder.less_cmp _ _ O).
Qed.

Lemma Del_ordered (db : DB) item :
  ordered db -> ordered (btree.Delete types.less item db).
Proof.
  apply (sorted.Delete_ordered cmp pkgorder.cmp_total types.less
           pkgorder.less_cmp).
Qed.

Lemma unique (db : DB) : ordered db ->
  forall x y, In x db -> In y db -> same x y -> x = y.
Proof. apply (sorted.ordered_unique cmp pkgorder.cmp_total). Qed.


Lemma provides_same q v v' : same v v' -> provides q v -> provides q v'.
Proof.
  intros S (possi & Hp & E). exists possi. split; [exact Hp|].
  now apply (same_trans _ v).
Qed.

(** What is expected of an entry does not change when the concrete packages
    of the database stay, and the entry is replaced by one of equal
    identity. *)
Lemma expected_transfer (db db' : DB) p reg v v' q :
  (forall x, types.IsVirtual x = false -> In x db' <-> In x db) ->
  same v v' ->
  expected db p reg v q <-> expected db' p reg v' q.
Proof.
  intros M S. unfold expected. split.
  - intros [(Hq & N & V & P)|(-> & possi & R & E)].
    + left. repeat split; auto; [now apply M|now apply (provides_same q v)].
    + right. split; [reflexivity|]. exists possi. split; [exact R|].
      now apply (same_trans _ v).
  - intros [(Hq & N & V & P)|(-> & possi & R & E)].
    + left. repeat split; auto; [now apply M|].
      apply (provides_same q v'); [now apply same_sym|exact P].
    + right. split; [reflexivity|]. exists possi. split; [exact R|].
      apply (same_trans _ v'); [exact E|now apply same_sym].
Qed.

Lemma hasVirtual_transfer (db db' : DB) k :
  (forall v, In v db -> types.IsVirtual v = true ->
     exists v', In v' db' /\ types.IsVirtual v' = true /\ same v v') ->
  hasVirtual db k -> hasVirtual db' k.
Proof.
  intros M (v & Hv & V & S). destruct (M v Hv V) as (v' & Hv' & V' & S').
  exists v'. split; [exact Hv'|]. split; [exact V'|].
  now apply (same_trans _ v).
Qed.

(** The virtual entry [existing] gets the providers [ps]. *)
Lemma replace_virtual (db : DB) p reg reg' existing ps :
  GInv db p reg -> In existing db -> virtualEntry existing ->
  ps <> [] -> List.NoDup ps ->
  (forall q, In q ps <-> expected db p reg' existing q) ->
  (forall v, In v db -> types.IsVirtual v = true -> ~ same v existing ->
     forall q, expected db p reg v q <-> expected db p reg' v q) ->
  (forall possi, reg' possi -> hasVirtual db (virtualFor possi)) ->
  GInv (btree.ReplaceOrInsert types.less (types.withProviders existing ps) db)
       p reg'.
Proof.
  intros [O K P En R N] He Hv Hps Hnd Hnew Hother Hreg.
  set (new := types.withProviders existing ps).
  set (db' := btree.ReplaceOrInsert types.less new db).
  assert (Sn : same new existing) by apply same_withProviders.
  assert (Vn : virtualEntry new).
  { destruct Hv as (V & A & _). repeat split; auto. }
  assert (M : forall x, In x db' <-> x = new \/ (In x db /\ ~ same x existing)).
  { intros x. unfold db'. rewrite (RoI_In db new O). split.
    - intros [->|[Hx Nx]]; auto.
    - intros [->|[Hx Nx]]; auto. }
  assert (Mc : forall x, types.IsVirtual x = false -> In x db' <-> In x db).
  { intros x V. rewrite M. split.
    - intros [->|[Hx _]]; [|exact Hx]. destruct Vn as (V' & _). congruence.
    - intros Hx. right. split; [exact Hx|].
      intros S. assert (x = existing) by (apply (unique db O); auto).
      subst x. destruct Hv as (V' & _). congruence. }
  assert (Mv : forall v, In v db -> types.IsVirtual v = true ->
               exists v', In v' db' /\ types.IsVirtual v' = true /\ same v v').
  { intros v Hin V. destruct (same_dec v existing) as [S|NS].
    - exists new. split; [apply M; now left|]. split; [apply Vn|].
      apply (same_trans _ existing); [exact S|now apply same_sym].
    - exists v. split; [apply M; right; auto|]. split; [exact V|apply same_refl]. }
  split.
  - now apply RoI_ordered.
  - intros e He'. apply M in He'. destruct He' as [->|[He' _]]; auto.
  - intros v Hv' V q. apply M in Hv'. destruct Hv' as [->|[Hv' NS]].
    + change (types.Providers new) with ps. rewrite Hnew.
      apply expected_transfer; [exact Mc|now apply same_sym].
    + rewrite (P v Hv' V q), (Hother v Hv' V NS q).
      apply expected_transfer; [exact Mc|apply same_refl].
  - intros q Hq V Nq possi Hp. apply Mc in Hq; [|exact V].
    apply (hasVirtual_transfer db db' _ Mv). now apply (En q).
  - intros possi Hr. apply (hasVirtual_transfer db db' _ Mv). now apply Hreg.
  - intros v Hv' V. apply M in Hv'. destruct Hv' as [->|[Hv' _]]; auto.
Qed.


(** A virtual entry is made for the possibility, with the providers [ps]. *)
Lemma insert_virtual (db : DB) p reg reg' possi ps :
  GInv db p reg ->
  (forall x, In x db -> ~ same (virtualFor possi) x) ->
  ps <> [] -> List.NoDup ps ->
  (forall q, In q ps <-> expected db p reg' (virtualFor possi) q) ->
  (forall v, In v db -> types.IsVirtual v = true ->
     forall q, expected db p reg v q <-> expected db p reg' v q) ->
  (forall possi', reg' possi' ->
     hasVirtual db (virtualFor possi')
     \/ same (virtualFor possi') (virtualFor possi)) ->
  GInv (btree.ReplaceOrInsert types.less
          (types.withProviders (virtualFor possi) ps) db) p reg'.
Proof.
  intros [O K P En R N] Hnone Hps Hnd Hnew Hother Hreg.
  set (k := virtualFor possi) in *.
  set (new := types.withProviders k ps).
  set (db' := btree.ReplaceOrInsert types.less new db).
  assert (Vn : virtualEntry new) by (repeat split; auto).
  assert (M : forall x, In x db' <-> x = new \/ In x db).
  { intros x. unfold db'. rewrite (RoI_In db new O). split.
    - intros [->|[Hx Nx]]; auto.
    - intros [->|Hx]; auto. right. split; [exact Hx|].
      intros S. apply (Hnone x Hx). now apply same_sym. }
  assert (Mc : forall x, types.IsVirtual x = false -> In x db' <-> In x db).
  { intros x V. rewrite M. split; auto.
    intros [->|Hx]; [|exact Hx]. destruct Vn as (V' & _). congruence. }
  assert (Mv : forall v, In v db -> types.IsVirtual v = true ->
               exists v', In v' db' /\ types.IsVirtual v' = true /\ same v v').
  { intros v Hin V. exists v. split; [apply M; now right|].
    split; [exact V|apply same_refl]. }
  split.
  - now apply RoI_ordered.
  - intros e He'. apply M in He'. destruct He' as [->|He']; auto.
  - intros v Hv' V q. apply M in Hv'. destruct Hv' as [->|Hv'].
    + change (types.Providers new) with ps. rewrite Hnew.
      apply expected_transfer; [exact Mc|].
      apply same_sym, same_withProviders.
    + rewrite (P v Hv' V q), (Hother v Hv' V q).
      apply expected_transfer; [exact Mc|apply same_refl].
  - intros q Hq V Nq possi' Hp. apply Mc in Hq; [|exact V].
    apply (hasVirtual_transfer db db' _ Mv). now apply (En q).
  - intros possi' Hr. destruct (Hreg possi' Hr) as [Hh|S].
    + now apply (hasVirtual_transfer db db' _ Mv).
    + exists new. split; [apply M; now left|]. split; [apply Vn|exact S].
  - intros v Hv' V. apply M in Hv'. destruct Hv' as [->|Hv']; auto.
Qed.

(** The virtual entry [existing] is deleted. *)
Lemma delete_virtual (db : DB) p reg reg' existing item :
  GInv db p reg -> In existing db -> virtualEntry existing ->
  same item existing ->
  (forall v, In v db -> types.IsVirtual v = true -> ~ same v existing ->
     forall q, expected db p reg v q <-> expected db p reg' v q) ->
  (forall q, In q db -> types.IsVirtual q = false -> ~ same q p ->
     forall possi, In possi (types.possibilities (types.Provides q)) ->
     ~ same (virtualFor possi) existing) ->
  (forall possi, reg' possi ->
     hasVirtual db (virtualFor possi)
     /\ ~ same (virtualFor possi) existing) ->
  GInv (btree.Delete types.less item db) p reg'.
Proof.
  intros [O K P En R N] He Hv Si Hother Hent Hreg.
  set (db' := btree.Delete types.less item db).
  assert (M : forall x, In x db' <-> In x db /\ ~ same x existing).
  { intros x. unfold db'. rewrite (Del_In db item O). split.
    - intros [Hx Nx]. split; [exact Hx|]. intros S. apply Nx.
      apply (same_trans _ existing); [exact S|now apply same_sym].
    - intros [Hx Nx]. split; [exact Hx|]. intros S. apply Nx.
      now apply (same_trans _ item). }
  assert (Mc : forall x, types.IsVirtual x = false -> In x db' <-> In x db).
  { intros x V. rewrite M. split; [tauto|].
    intros Hx. split; [exact Hx|].
    intros S. assert (x = existing) by (apply (unique db O); auto).
    subst x. destruct Hv as (V' & _). congruence. }
  assert (Mh : forall k, hasVirtual db k -> ~ same k existing ->
               hasVirtual db' k).
  { intros k (v & Hin & V & S) NS. exists v. split; [|auto].
    apply M. split; [exact Hin|]. intros S'. apply NS.
    now apply (same_trans _ v). }
  split.
  - now apply Del_ordered.
  - intros e He'. apply M in He'. destruct He' as [He' _]; auto.
  - intros v Hv' V q. apply M in Hv'. destruct Hv' as [Hv' NS].
    rewrite (P v Hv' V q), (Hother v Hv' V NS q).
    apply expected_transfer; [exact Mc|apply same_refl].
  - intros q Hq V Nq possi Hp. apply Mc in Hq; [|exact V].
    apply Mh; [now apply (En q)|now apply (Hent q)].
  - intros possi Hr. destruct (Hreg possi Hr) as [Hh NS]. now apply Mh.
  - intros v Hv' V. apply M in Hv'. destruct Hv' as [Hv' _]; auto.
Qed.

(** One turn of the loop of [addPackage]. *)
Lemma provide_step (db : DB) p reg possi :
  GInv db p reg -> In p db -> concrete p ->
  GInv (provide p db possi) p (fun x => reg x \/ x = possi).
Proof.
  intros G Hp Cp. pose proof G as [O K P En R N].
  unfold provide.
  destruct (btree.Get types.less (virtualFor possi) db) as [existing|] eqn:Ge.
  - destruct (Get_virtual db possi existing O K Ge) as (He & Sk & Hv).
    pose proof Hv as (V & _ & _).
    destruct (existsb _ (types.Providers existing)) eqn:Fd.
    + apply existsb_exists in Fd. destruct Fd as (provider & Hin & E).
      apply pkgorder.Compare_eqb in E.
      assert (Hpin : In p (types.Providers existing)).
      { pose proof (proj1 (P existing He V provider) Hin) as X.
        destruct X as [(_ & Np & _)|(E0 & _)]; [contradiction|].
        now subst provider. }
      split; auto.
      * intros v Hv' V' q. rewrite (P v Hv' V' q). unfold expected. split.
        -- intros [A|(-> & possi' & Hr & S)]; [left; exact A|].
           right. split; [reflexivity|]. exists possi'. auto.
        -- intros [A|(-> & possi' & [Hr| ->] & S)]; [left; exact A| |].
           ++ right. split; [reflexivity|]. exists possi'. auto.
           ++ assert (v = existing).
              { apply (unique db O); auto.
                apply (same_trans _ (virtualFor possi)); [now apply same_sym|exact Sk]. }
              subst v. now apply (P existing He V p).
      * intros possi' [Hr| ->]; [now apply R|].
        exists existing. auto.
    + assert (Hnp : ~ In p (types.Providers existing)).
      { intros Hin.
        assert (X : existsb (fun provider => types.Compare provider p =? 0)
                      (types.Providers existing) = true).
        { apply existsb_exists. exists p. split; [exact Hin|].
          apply pkgorder.Compare_eqb. apply same_refl. }
        congruence. }
      apply replace_virtual with (reg := reg); auto.
      * intros E. apply app_eq_nil in E. destruct E; discriminate.
      * apply List.NoDup_app; [now apply N|repeat constructor; intros []|].
        intros a Ha [<-|[]]. contradiction.
      * intros q. rewrite in_app_iff, (P existing He V q). simpl.
        unfold expected. split.
        -- intros [[A|(-> & possi' & Hr & S)]|[<-|[]]]; [left; exact A| |].
           ++ right. split; [reflexivity|]. exists possi'. auto.
           ++ right. split; [reflexivity|]. exists possi. auto.
        -- intros [A|(-> & possi' & [Hr| ->] & S)]; [left; left; exact A| |].
           ++ left. right. split; [reflexivity|]. exists possi'. auto.
           ++ right. left. reflexivity.
      * intros v Hv' V' NS q. unfold expected. split.
        -- intros [A|(-> & possi' & Hr & S)]; [left; exact A|].
           right. split; [reflexivity|]. exists possi'. auto.
        -- intros [A|(-> & possi' & [Hr| ->] & S)]; [left; exact A| |].
           ++ right. split; [reflexivity|]. exists possi'. auto.
           ++ exfalso. apply NS.
              apply (same_trans _ (virtualFor possi)); [now apply same_sym|exact Sk].
      * intros possi' [Hr| ->]; [now apply R|]. exists existing. auto.
  - pose proof (Get_no_virtual db possi O Ge) as Hnone.
    cbn [existsb types.Providers virtualFor types.keyOf app].
    apply insert_virtual with (reg := reg); auto.
    + repeat constructor. intros [].
    + intros q. simpl. unfold expected. split.
      * intros [<-|[]]. right. split; [reflexivity|]. exists possi.
        split; [now right|apply same_refl].
      * intros [(Hq & Np & Vq & (possi' & Hpo & S))|(-> & _)]; [|now left].
        exfalso. destruct (En q Hq Vq Np possi' Hpo) as (v & Hv & V & S').
        apply (Hnone v Hv).
        apply (same_trans _ (virtualFor possi')); [now apply same_sym|exact S'].
    + intros v Hv' V' q. unfold expected. split.
      * intros [A|(-> & possi' & Hr & S)]; [left; exact A|].
        right. split; [reflexivity|]. exists possi'. auto.
      * intros [A|(-> & possi' & [Hr| ->] & S)]; [left; exact A| |].
        -- right. split; [reflexivity|]. exists possi'. auto.
        -- exfalso. now apply (Hnone v Hv').
    + intros possi' [Hr| ->]; [left; now apply R|right; apply same_refl].
Qed.

(** A concrete package and a key without architecture are never of equal
    identity. *)
Lemma concrete_apart (x item : Package) :
  concrete x -> types.Architecture item = arch.zero -> ~ same x item.
Proof.
  intros (_ & _ & A) Z S. apply pkgorder.cmp_Eq_iff in S.
  destruct S as (_ & _ & E). rewrite Z in E. contradiction.
Qed.

(** The concrete packages stay when a virtual entry is written or deleted. *)
Lemma RoI_stays (db : DB) item :
  ordered db -> (forall e, In e db -> concrete e \/ virtualEntry e) ->
  types.IsVirtual item = true -> types.Architecture item = arch.zero ->
  forall x, types.IsVirtual x = false ->
    In x (btree.ReplaceOrInsert types.less item db) <-> In x db.
Proof.
  intros O K V Z x Vx. rewrite (RoI_In db item O). split.
  - intros [->|[Hx _]]; [congruence|exact Hx].
  - intros Hx. right. split; [exact Hx|].
    destruct (K x Hx) as [C|(V' & _)]; [|congruence].
    now apply concrete_apart.
Qed.

Lemma Delete_stays (db : DB) item :
  ordered db -> (forall e, In e db -> concrete e \/ virtualEntry e) ->
  types.Architecture item = arch.zero ->
  forall x, types.IsVirtual x = false ->
    In x (btree.Delete types.less item db) <-> In x db.
Proof.
  intros O K Z x Vx. rewrite (Del_In db item O). split; [tauto|].
  intros Hx. split; [exact Hx|].
  destruct (K x Hx) as [C|(V' & _)]; [|congruence].
  now apply concrete_apart.
Qed.

Lemma provide_stays (db : DB) p possi :
  ordered db -> (forall e, In e db -> concrete e \/ virtualEntry e) ->
  forall x, types.IsVirtual x = false ->
    In x (provide p db possi) <-> In x db.
Proof.
  intros O K x Vx. unfold provide.
  destruct (btree.Get types.less (virtualFor possi) db) as [existing|] eqn:Ge.
  - destruct (Get_virtual db possi existing O K Ge) as (He & Sk & (V & Z & _)).
    destruct (existsb _ (types.Providers existing)); [reflexivity|].
    now apply RoI_stays.
  - cbn [existsb types.Providers virtualFor types.keyOf app].
    now apply RoI_stays.
Qed.

Lemma unprovide_stays (db : DB) p possi :
  ordered db -> (forall e, In e db -> concrete e \/ virtualEntry e) ->
  forall x, types.IsVirtual x = false ->
    In x (unprovide p db possi) <-> In x db.
Proof.
  intros O K x Vx. unfold unprovide.
  destruct (btree.Get types.less (virtualFor possi) db) as [existing|] eqn:Ge;
    [|reflexivity].
  destruct (Get_virtual db possi existing O K Ge) as (He & Sk & (V & Z & _)).
  destruct (length _ =? 0)%nat.
  - now apply Delete_stays.
  - now apply RoI_stays.
Qed.

(** The loop of [addPackage]. *)
Lemma provide_fold p l : forall (db : DB) reg,
  GInv db p reg -> In p db -> concrete p ->
  GInv (fold_left (provide p) l db) p (fun x => reg x \/ In x l)
  /\ (forall x, types.IsVirtual x = false ->
        In x (fold_left (provide p) l db) <-> In x db).
Proof.
  induction l as [|possi l IH]; intros db reg G Hp Cp; simpl.
  - split; [|reflexivity]. apply (GInv_ext db p reg); [tauto|exact G].
  - pose proof (provide_step db p reg possi G Hp Cp) as G1.
    pose proof (provide_stays db p possi (g_ordered _ _ _ G) (g_kinds _ _ _ G))
      as M1.
    assert (Hp1 : In p (provide p db possi)) by (apply M1; [apply Cp|exact Hp]).
    destruct (IH _ _ G1 Hp1 Cp) as [G2 M2]. split.
    + apply (GInv_ext _ p (fun x => (reg x \/ x = possi) \/ In x l));
        [|exact G2].
      intros x. split; [intros [[A|A]|A]|intros [A|[A|A]]]; auto.
    + intros x Vx. rewrite (M2 x Vx). now apply M1.
Qed.

(** The loop of [Remove]. *)
Lemma unprovide_step (db : DB) p reg possi :
  GInv db p reg ->
  GInv (unprovide p db possi) p
       (fun x => reg x /\ ~ same (virtualFor x) (virtualFor possi)).
Proof.
  intros G. pose proof G as [O K P En R N].
  unfold unprovide.
  destruct (btree.Get types.less (virtualFor possi) db) as [existing|] eqn:Ge.
  - destruct (Get_virtual db possi existing O K Ge) as (He & Sk & Hv).
    pose proof Hv as (V & Z & _).
    set (updated := List.filter
           (fun provider => negb (types.Compare provider p =? 0))
           (types.Providers existing)).
    assert (Hup : forall q, In q updated <->
              In q db /\ ~ same q p /\ types.IsVirtual q = false
              /\ provides q existing).
    { intros q. unfold updated. rewrite filter_In, (P existing He V q).
      rewrite negb_true_iff, <- not_true_iff_false, pkgorder.Compare_eqb.
      unfold expected. split.
      - intros [[A|(-> & _)] NS]; [exact A|].
        exfalso. apply NS, same_refl.
      - intros A. split; [left; exact A|apply A]. }
    assert (Hnew : forall q, In q updated <->
              expected db p
                (fun x => reg x /\ ~ same (virtualFor x) (virtualFor possi))
                existing q).
    { intros q. rewrite Hup. unfold expected. split; [intros A; left; exact A|].
      intros [A|(-> & possi' & [_ NS] & S)]; [exact A|].
      exfalso. apply NS. apply (same_trans _ existing); [exact S|].
      now apply same_sym. }
    assert (Hother : forall v, In v db -> types.IsVirtual v = true ->
              ~ same v existing ->
              forall q, expected db p reg v q <->
                expected db p
                  (fun x => reg x /\ ~ same (virtualFor x) (virtualFor possi))
                  v q).
    { intros v Hv' V' NS q. unfold expected. split.
      - intros [A|(-> & possi' & Hr & S)]; [left; exact A|].
        right. split; [reflexivity|]. exists possi'. split; [|exact S].
        split; [exact Hr|]. intros S'. apply NS.
        apply (same_trans _ (virtualFor possi')); [now apply same_sym|].
        now apply (same_trans _ (virtualFor possi)).
      - intros [A|(-> & possi' & [Hr _] & S)]; [left; exact A|].
        right. split; [reflexivity|]. exists possi'. auto. }
    destruct (length updated =? 0)%nat eqn:Len.
    + apply Nat.eqb_eq in Len. apply length_zero_iff_nil in Len.
      apply delete_virtual with (reg := reg) (existing := existing); auto.
      * apply same_withProviders.
      * intros q Hq Vq Nq possi' Hp S.
        assert (X : In q updated).
        { apply Hup. repeat split; auto. now exists possi'. }
        rewrite Len in X. destruct X.
      * intros possi' [Hr NS]. split; [now apply R|].
        intros S. apply NS. apply (same_trans _ existing); [exact S|].
        now apply same_sym.
    + apply replace_virtual with (reg := reg); auto.
      * intros E. rewrite E in Len. discriminate.
      * apply List.NoDup_filter. now apply N.
      * intros possi' [Hr _]. now apply R.
  - pose proof (Get_no_virtual db possi O Ge) as Hnone.
    split; auto.
    + intros v Hv V q. rewrite (P v Hv V q). unfold expected. split.
      * intros [A|(-> & possi' & Hr & S)]; [left; exact A|].
        right. split; [reflexivity|]. exists possi'. split; [|exact S].
        split; [exact Hr|]. intros S'. apply (Hnone v Hv).
        apply (same_trans _ (virtualFor possi')); [now apply same_sym|exact S].
      * intros [A|(-> & possi' & [Hr _] & S)]; [left; exact A|].
        right. split; [reflexivity|]. exists possi'. auto.
    + intros possi' [Hr _]. now apply R.
Qed.

Lemma unprovide_fold p l : forall (db : DB) reg,
  GInv db p reg ->
  GInv (fold_left (unprovide p) l db) p
       (fun x => reg x /\ forall y, In y l ->
                   ~ same (virtualFor x) (virtualFor y))
  /\ (forall x, types.IsVirtual x = false ->
        In x (fold_left (unprovide p) l db) <-> In x db).
Proof.
  induction l as [|possi l IH]; intros db reg G; simpl.
  - split; [|reflexivity]. apply (GInv_ext db p reg); [|exact G].
    intros x. split; [intros A; split; [exact A|intros y []]|tauto].
  - pose proof (unprovide_step db p reg possi G) as G1.
    pose proof (unprovide_stays db p possi (g_ordered _ _ _ G)
                  (g_kinds _ _ _ G)) as M1.
    destruct (IH _ _ G1) as [G2 M2]. split.
    + eapply GInv_ext; [|exact G2].
      intros x. cbv beta. split.
      * intros [[Hr NS] A]. split; [exact Hr|].
        intros y [<-|Hy]; auto.
      * intros [Hr A]. split; [split; [exact Hr|apply A; now left]|].
        intros y Hy. apply A. now right.
    + intros x Vx. rewrite (M2 x Vx). now apply M1.
Qed.

(** The possibilities of the Provides field of a package. *)
Definition provided (p : Package) (possi : Possibility) : Prop :=
  In possi (types.possibilities (types.Provides p)).

Lemma GInv_all (db : DB) p :
  GInv db p (provided p) -> In p db -> types.IsVirtual p = false -> Inv db.
Proof.
  intros [O K P En R N] Hp Vp. split; auto.
  - intros v Hv V q. rewrite (P v Hv V q). unfold expected. split.
    + intros [(Hq & _ & Vq & Pq)|(-> & possi & Hr & S)]; [auto|].
      split; [exact Hp|]. split; [exact Vp|]. now exists possi.
    + intros (Hq & Vq & Pq). destruct (same_dec q p) as [S|NS].
      * assert (q = p) by (apply (unique db O); auto). subst q.
        right. split; [reflexivity|exact Pq].
      * left. auto.
  - intros q Hq Vq possi Hpo. destruct (same_dec q p) as [S|NS].
    + assert (q = p) by (apply (unique db O); auto). subst q. now apply R.
    + now apply (En q).
Qed.

Lemma GInv_none (db : DB) p :
  GInv db p (fun _ => False) -> (forall x, In x db -> ~ same x p) -> Inv db.
Proof.
  intros [O K P En R N] Hp. split; auto.
  - intros v Hv V q. rewrite (P v Hv V q). unfold expected. split.
    + intros [(Hq & _ & Vq & Pq)|(_ & possi & [] & _)]. auto.
    + intros (Hq & Vq & Pq). left. auto.
  - intros q Hq Vq possi Hpo. apply (En q); auto.
Qed.

(** A package may be added when it is concrete and the database holds no
    other package of its identity. *)
Definition addable (db : DB) (p : Package) : Prop :=
  concrete p /\ forall x, In x db -> same x p -> x = p.

Lemma Inv_empty : Inv (NewPackageDB (Ver := Ver) (Arc := Arc)).
Proof.
  split; try (intros ? []). constructor.
Qed.

Lemma addPackage_Inv (db : DB) p :
  Inv db -> addable db p ->
  Inv (addPackage db p)
  /\ (forall x, types.IsVirtual x = false ->
        In x (addPackage db p) <-> x = p \/ In x db).
Proof.
  intros [O K P En N] [Cp Fr]. pose proof Cp as (Vp & _ & _).
  unfold addPackage.
  set (db0 := btree.ReplaceOrInsert types.less p db).
  assert (M0 : forall x, In x db0 <-> x = p \/ In x db).
  { intros x. unfold db0. rewrite (RoI_In db p O). split.
    - intros [A|[A _]]; auto.
    - intros [A|A]; auto. destruct (same_dec x p) as [S|NS]; auto. }
  assert (Hp0 : In p db0) by (apply M0; now left).
  assert (Av : forall v, In v db -> types.IsVirtual v = true -> ~ same v p).
  { intros v Hv V S. apply same_sym in S. revert S.
    apply concrete_apart; [exact Cp|].
    destruct (K v Hv) as [(V' & _)|(_ & Z & _)]; [congruence|exact Z]. }
  assert (Hh : forall k, hasVirtual db k -> hasVirtual db0 k).
  { intros k (v & Hv & V & S). exists v. split; [|auto]. apply M0. now right. }
  assert (G0 : GInv db0 p (fun possi => In p db /\ provided p possi)).
  { split.
    - now apply RoI_ordered.
    - intros e He. apply M0 in He. destruct He as [->|He]; auto.
    - intros v Hv V q. apply M0 in Hv. destruct Hv as [->|Hv]; [congruence|].
      rewrite (P v Hv V q). unfold expected. split.
      + intros (Hq & Vq & Pq). destruct (same_dec q p) as [S|NS].
        * assert (q = p) by now apply Fr. subst q.
          right. split; [reflexivity|]. destruct Pq as (possi & Hpo & S').
          exists possi. auto.
        * left. repeat split; auto. apply M0. now right.
      + intros [(Hq & NS & Vq & Pq)|(-> & possi & [Hp Hpo] & S)].
        * apply M0 in Hq. destruct Hq as [->|Hq]; [|auto].
          exfalso. apply NS, same_refl.
        * split; [exact Hp|]. split; [exact Vp|]. now exists possi.
    - intros q Hq Vq NS possi Hpo. apply M0 in Hq.
      destruct Hq as [->|Hq]; [exfalso; apply NS, same_refl|].
      apply Hh. now apply (En q).
    - intros possi [Hp Hpo]. apply Hh. now apply (En p).
    - intros v Hv V. apply M0 in Hv. destruct Hv as [->|Hv]; [congruence|].
      now apply N. }
  destruct (provide_fold p (types.possibilities (types.Provides p)) db0 _
              G0 Hp0 Cp) as [G1 M1].
  split.
  - apply (GInv_all _ p); [|apply M1; auto|exact Vp].
    eapply GInv_ext; [|exact G1]. intros x. unfold provided. cbv beta. tauto.
  - intros x Vx. rewrite (M1 x Vx). apply M0.
Qed.

Lemma Remove_Inv (db : DB) p :
  Inv db -> In p db -> types.IsVirtual p = false ->
  Inv (Remove db p)
  /\ (forall x, types.IsVirtual x = false ->
        In x (Remove db p) <-> In x db /\ x <> p).
Proof.
  intros [O K P En N] Hp Vp.
  assert (Cp : concrete p).
  { destruct (K p Hp) as [C|(V & _)]; [exact C|congruence]. }
  unfold Remove.
  set (db0 := btree.Delete types.less p db).
  assert (M0 : forall x, In x db0 <-> In x db /\ x <> p).
  { intros x. unfold db0. rewrite (Del_In db p O). split.
    - intros [Hx NS]. split; [exact Hx|]. intros ->. apply NS, same_refl.
    - intros [Hx Ne]. split; [exact Hx|]. intros S. apply Ne.
      now apply (unique db O). }
  assert (Hh : forall k, hasVirtual db k -> hasVirtual db0 k).
  { intros k (v & Hv & V & S). exists v. split; [|auto]. apply M0.
    split; [exact Hv|]. intros ->. congruence. }
  assert (G0 : GInv db0 p (provided p)).
  { split.
    - now apply Del_ordered.
    - intros e He. apply M0 in He. destruct He as [He _]; auto.
    - intros v Hv V q. apply M0 in Hv. destruct Hv as [Hv _].
      rewrite (P v Hv V q). unfold expected. split.
      + intros (Hq & Vq & Pq). destruct (same_dec q p) as [S|NS].
        * assert (q = p) by now apply (unique db O). subst q.
          right. split; [reflexivity|exact Pq].
        * left. repeat split; auto. apply M0. split; [exact Hq|].
          intros ->. apply NS, same_refl.
      + intros [(Hq & NS & Vq & Pq)|(-> & Pq)].
        * apply M0 in Hq. destruct Hq as [Hq _]. auto.
        * auto.
    - intros q Hq Vq NS possi Hpo. apply M0 in Hq. destruct Hq as [Hq _].
      apply Hh. now apply (En q).
    - intros possi Hpo. apply Hh. now apply (En p).
    - intros v Hv V. apply M0 in Hv. destruct Hv as [Hv _]. now apply N. }
  destruct (unprovide_fold p (types.possibilities (types.Provides p)) db0 _ G0)
    as [G1 M1].
  split.
  - apply (GInv_none _ p).
    + eapply GInv_ext; [|exact G1]. intros x. cbv beta. split; [|tauto].
      intros [Hx A]. apply (A x Hx), same_refl.
    + intros x Hx S.
      destruct (g_kinds _ _ _ G1 x Hx) as [C|(V & Z & _)].
      * assert (Hx0 : In x db0) by (apply M1; [apply C|exact Hx]).
        apply M0 in Hx0. destruct Hx0 as [Hx0 Ne]. apply Ne.
        now apply (unique db O).
      * apply same_sym in S. revert S. now apply concrete_apart.
  - intros x Vx. rewrite (M1 x Vx). apply M0.
Qed.

(** The provided name, spelt out: a possibility of the Provides field with
    the name of the entry and a version that compares equal to the entry's
    (the zero version when the possibility states none). *)
Lemma provides_spec (q v : Package) :
  types.Architecture v = arch.zero ->
  provides q v <->
  exists possi,
    In possi (types.possibilities (types.Provides q))
    /\ dependency.Name possi = types.Name v
    /\ version.Compare
         (match dependency.PossiVersion possi with
          | Some vr => dependency.Version vr
          | None => version.zero
          end) (types.Version v) = 0.
Proof.
  intros Z. unfold provides, same.
  split; intros (possi & Hp & S); exists possi; (split; [exact Hp|]).
  - apply pkgorder.cmp_Eq_iff in S. destruct S as (A & B & _). auto.
  - apply pkgorder.cmp_Eq_iff. destruct S as (A & B). rewrite Z.
    split; [exact A|]. split; [exact B|reflexivity].
Qed.

(** *** Sequences of operations *)

Inductive Op : Type :=
| DoAdd (pkg : Package)
| DoAddAll (packageList : list Package)
| DoRemove (pkg : Package).

Definition perform (db : DB) (op : Op) : DB :=
  match op with
  | DoAdd pkg => Add db pkg
  | DoAddAll packageList => AddAll db packageList
  | DoRemove pkg => Remove db pkg
  end.

(** The database after the operations, from the empty one. *)
Definition run (ops : list Op) : DB := fold_left perform ops NewPackageDB.

Fixpoint addableAll (db : DB) (packageList : list Package) : Prop :=
  match packageList with
  | [] => True
  | pkg :: rest => addable db pkg /\ addableAll (addPackage db pkg) rest
  end.

(** The operations that the invariant is stated for: a package is added
    when it is concrete and no other package of its identity is in the
    database, and a package is removed when it is in the database as a
    concrete package. *)
Definition admissible (db : DB) (op : Op) : Prop :=
  match op with
  | DoAdd pkg => addable db pkg
  | DoAddAll packageList => addableAll db packageList
  | DoRemove pkg => In pkg db /\ types.IsVirtual pkg = false
  end.

Fixpoint wellFormed (db : DB) (ops : list Op) : Prop :=
  match ops with
  | [] => True
  | op :: rest => admissible db op /\ wellFormed (perform db op) rest
  end.

Lemma AddAll_Inv packageList : forall db : DB,
  Inv db -> addableAll db packageList -> Inv (AddAll db packageList).
Proof.
  induction packageList as [|pkg rest IH]; intros db I A; simpl; [exact I|].
  destruct A as [A1 A2]. apply IH; [|exact A2].
  now apply addPackage_Inv.
Qed.

Lemma perform_Inv (db : DB) op : Inv db -> admissible db op -> Inv (perform db op).
Proof.
  intros I A. destruct op as [pkg|packageList|pkg]; simpl in *.
  - now apply addPackage_Inv.
  - now apply AddAll_Inv.
  - destruct A as [A1 A2]. now apply Remove_Inv.
Qed.

Lemma fold_Inv ops : forall db : DB,
  Inv db -> wellFormed db ops -> Inv (fold_left perform ops db).
Proof.
  induction ops as [|op rest IH]; intros db I W; simpl; [exact I|].
  destruct W as [W1 W2]. apply IH; [|exact W2]. now apply perform_Inv.
Qed.

Lemma run_Inv ops : wellFormed NewPackageDB ops -> Inv (run ops).
Proof. apply fold_Inv, Inv_empty. Qed.

Lemma Inv_virtualEntry (db : DB) v :
  Inv db -> In v db -> types.IsVirtual v = true -> virtualEntry v.
Proof.
  intros I Hv V. destruct (i_kinds db I v Hv) as [(V' & _)|E]; [congruence|].
  exact E.
Qed.


End Invariant.

Arguments Op : clear implicits.
Arguments DoAdd {Ver Arc} pkg.
Arguments DoAddAll {Ver Arc} packageList.
Arguments DoRemove {Ver Arc} pkg.

End database.

(** ** The version-collapse walk *)

Module collapse.
Section Collapse.
Context {Ver Arc : Type} `{VL : version.Laws Ver} `{AP : arch.Plain Arc}.
Import packages.

Abbreviation Package := (types.Package Ver Arc).
Abbreviation Possibility := (dependency.Possibility Ver).
Abbreviation DB := (PackageDB Ver Arc).
Abbreviation cmp := (pkgorder.cmp (Ver := Ver) (Arc := Arc)).
Abbreviation ordered := (sorted.ordered cmp).
Abbreviation same := (database.same (Ver := Ver) (Arc := Arc)).

(** The name that the walk is looked at for. *)
Variable n : string.

(** The key that [Get] starts its scan from. *)
Definition pivot : Package := types.keyOf n version.zero false.

(** The package does not list the name in its Provides. *)
Definition notProviding (e : Package) : Prop :=
  forall possi, In possi (types.possibilities (types.Provides e)) ->
    dependency.Name possi <> n.

(** An ordered tree none of whose entries provides the name. *)
Definition tidy (db : DB) : Prop :=
  ordered db /\ forall e, In e db -> notProviding e.

Lemma same_Name (a b : Package) : same a b -> types.Name a = types.Name b.
Proof. intros S. apply pkgorder.cmp_Eq_iff in S. apply S. Qed.

Lemma cmp_Name (a b : Package) :
  cmp a b = Lt -> String.compare (types.Name a) (types.Name b) <> Gt.
Proof.
  unfold pkgorder.cmp, pkgorder.compareKey, order.pair, pkgorder.key.
  cbn [fst snd].
  destruct (String.compare (types.Name a) (types.Name b)); congruence.
Qed.

Lemma cmp_Name_ge (a b : Package) :
  cmp a b <> Lt -> String.compare (types.Name a) (types.Name b) <> Lt.
Proof.
  unfold pkgorder.cmp, pkgorder.compareKey, order.pair, pkgorder.key.
  cbn [fst snd].
  destruct (String.compare (types.Name a) (types.Name b)); congruence.
Qed.

Lemma RoI_other (db : DB) item :
  ordered db -> types.Name item <> n ->
  forall x, types.Name x = n ->
    In x (btree.ReplaceOrInsert types.less item db) <-> In x db.
Proof.
  intros O Ni x Nx. rewrite (database.RoI_In db item O). split.
  - intros [->|[Hx _]]; [contradiction|exact Hx].
  - intros Hx. right. split; [exact Hx|].
    intros S. apply same_Name in S. congruence.
Qed.

Lemma Del_other (db : DB) item :
  ordered db -> types.Name item <> n ->
  forall x, types.Name x = n ->
    In x (btree.Delete types.less item db) <-> In x db.
Proof.
  intros O Ni x Nx. rewrite (database.Del_In db item O). split; [tauto|].
  intros Hx. split; [exact Hx|].
  intros S. apply same_Name in S. congruence.
Qed.

Lemma RoI_tidy (db : DB) item :
  tidy db -> notProviding item ->
  tidy (btree.ReplaceOrInsert types.less item db).
Proof.
  intros [O Q] Qi. split; [now apply database.RoI_ordered|].
  intros e He. apply btree.ReplaceOrInsert_In in He.
  destruct He as [->|He]; auto.
Qed.

Lemma Del_tidy (db : DB) item : tidy db -> tidy (btree.Delete types.less item db).
Proof.
  intros [O Q]. split; [now apply database.Del_ordered|].
  intros e He. apply btree.Delete_incl in He. auto.
Qed.

Lemma Get_key (db : DB) possi existing :
  ordered db ->
  btree.Get types.less (virtualFor possi) db = Some existing ->
  In existing db /\ types.Name existing = dependency.Name possi.
Proof.
  intros O G.
  apply (sorted.Get_Some_iff cmp pkgorder.cmp_total types.less
           pkgorder.less_cmp _ _ O) in G.
  destruct G as [Hin E]. split; [exact Hin|].
  apply (same_Name existing (virtualFor possi)) in E. exact E.
Qed.

(** The loops of [addPackage] and of [Remove] over a Provides field that
    does not list the name leave the entries of that name as they are. *)
Lemma provide_tidy c (db : DB) possi :
  tidy db -> dependency.Name possi <> n ->
  tidy (provide c db possi)
  /\ forall x, types.Name x = n -> In x (provide c db possi) <-> In x db.
Proof.
  intros T Np. pose proof T as [O Q]. unfold provide.
  destruct (btree.Get types.less (virtualFor possi) db) as [existing|] eqn:Ge.
  - destruct (Get_key db possi existing O Ge) as [He Ne].
    destruct (existsb _ (types.Providers existing)).
    + split; [exact T|reflexivity].
    + split.
      * apply RoI_tidy; [exact T|]. exact (Q existing He).
      * apply RoI_other; [exact O|]. simpl. congruence.
  - cbn [existsb types.Providers virtualFor types.keyOf app]. split.
    + apply RoI_tidy; [exact T|]. intros possi' [].
    + apply RoI_other; [exact O|]. simpl. exact Np.
Qed.

Lemma unprovide_tidy c (db : DB) possi :
  tidy db -> dependency.Name possi <> n ->
  tidy (unprovide c db possi)
  /\ forall x, types.Name x = n -> In x (unprovide c db possi) <-> In x db.
Proof.
  intros T Np. pose proof T as [O Q]. unfold unprovide.
  destruct (btree.Get types.less (virtualFor possi) db) as [existing|] eqn:Ge.
  - destruct (Get_key db possi existing O Ge) as [He Ne].
    destruct (length _ =? 0)%nat.
    + split; [now apply Del_tidy|].
      apply Del_other; [exact O|]. simpl. congruence.
    + split.
      * apply RoI_tidy; [exact T|]. exact (Q existing He).
      * apply RoI_other; [exact O|]. simpl. congruence.
  - split; [exact T|reflexivity].
Qed.

Lemma provide_all_tidy c l : forall db : DB,
  tidy db -> (forall possi, In possi l -> dependency.Name possi <> n) ->
  tidy (fold_left (provide c) l db)
  /\ forall x, types.Name x = n ->
       In x (fold_left (provide c) l db) <-> In x db.
Proof.
  induction l as [|possi l IH]; intros db T Q; simpl.
  - split; [exact T|reflexivity].
  - destruct (provide_tidy c db possi T (Q possi (or_introl eq_refl)))
      as [T1 M1].
    destruct (IH _ T1 (fun p Hp => Q p (or_intror Hp))) as [T2 M2].
    split; [exact T2|]. intros x Nx. rewrite (M2 x Nx). now apply M1.
Qed.

Lemma unprovide_all_tidy c l : forall db : DB,
  tidy db -> (forall possi, In possi l -> dependency.Name possi <> n) ->
  tidy (fold_left (unprovide c) l db)
  /\ forall x, types.Name x = n ->
       In x (fold_left (unprovide c) l db) <-> In x db.
Proof.
  induction l as [|possi l IH]; intros db T Q; simpl.
  - split; [exact T|reflexivity].
  - destruct (unprovide_tidy c db possi T (Q possi (or_introl eq_refl)))
      as [T1 M1].
    destruct (IH _ T1 (fun p Hp => Q p (or_intror Hp))) as [T2 M2].
    split; [exact T2|]. intros x Nx. rewrite (M2 x Nx). now apply M1.
Qed.

Lemma Add_tidy (db : DB) c :
  tidy db -> notProviding c ->
  tidy (Add db c)
  /\ forall x, types.Name x = n ->
       In x (Add db c) <-> x = c \/ (In x db /\ ~ same x c).
Proof.
  intros T Qc. unfold Add, addPackage.
  destruct (provide_all_tidy c (types.possibilities (types.Provides c))
              (btree.ReplaceOrInsert types.less c db)
              (RoI_tidy db c T Qc) Qc) as [T1 M1].
  split; [exact T1|]. intros x Nx. rewrite (M1 x Nx).
  apply database.RoI_In, T.
Qed.

Lemma Remove_tidy (db : DB) c :
  tidy db -> notProviding c ->
  tidy (Remove db c)
  /\ forall x, types.Name x = n ->
       In x (Remove db c) <-> In x db /\ ~ same x c.
Proof.
  intros T Qc. unfold Remove.
  destruct (unprovide_all_tidy c (types.possibilities (types.Provides c))
              (btree.Delete types.less c db) (Del_tidy db c T) Qc)
    as [T1 M1].
  split; [exact T1|]. intros x Nx. rewrite (M1 x Nx).
  apply database.Del_In, T.
Qed.

(** *** What [Get] returns *)

Definition named (x : Package) : bool := String.eqb (types.Name x) n.

Lemma named_true x : named x = true <-> types.Name x = n.
Proof. apply String.eqb_eq. Qed.

Lemma later_not_named (x y : Package) :
  cmp x pivot <> Lt -> named x = false -> cmp x y = Lt -> named y = false.
Proof.
  intros Gp Nx L. apply cmp_Name_ge in Gp. apply cmp_Name in L.
  simpl in Gp. unfold named in *.
  apply String.eqb_neq in Nx. apply String.eqb_neq. intros E.
  rewrite E in L.
  destruct (String.compare (types.Name x) n) eqn:C; try congruence.
  apply String.compare_eq_iff in C. contradiction.
Qed.

Lemma filter_none {A : Type} (f : A -> bool) (l : list A) :
  (forall y, In y l -> f y = false) -> List.filter f l = [].
Proof.
  induction l as [|a l IH]; intros F; simpl; [reflexivity|].
  rewrite (F a (or_introl eq_refl)). apply IH. intros y Hy. apply F. now right.
Qed.

Lemma walk_run (l : list Package) : forall acc,
  ordered l -> (forall x, In x l -> cmp x pivot <> Lt) ->
  btree.walk
    (fun packageList pkg =>
       if negb (String.eqb (types.Name pkg) n) then (packageList, false)
       else (packageList ++ [pkg], true)) acc l
  = acc ++ List.filter named l.
Proof.
  induction l as [|x l IH]; intros acc O F; simpl.
  - now rewrite app_nil_r.
  - apply sorted.ordered_inv in O. destruct O as [O L].
    fold (named x). destruct (named x) eqn:Nx; simpl.
    + rewrite IH; [|exact O|intros y Hy; apply F; now right].
      now rewrite <- app_assoc.
    + rewrite filter_none; [now rewrite app_nil_r|].
      intros y Hy. apply (later_not_named x y);
        [apply F; now left|exact Nx|now apply L].
Qed.

(** On an ordered tree with no entry of the name below the key that the
    scan starts from, [Get] returns the entries of that name. *)
Lemma Get_filter (db : DB) :
  ordered db ->
  (forall x, In x db -> types.Name x = n -> types.less x pivot = false) ->
  Get db n = List.filter named db.
Proof.
  unfold Get. fold pivot.
  induction db as [|a t IH]; intros O F; [reflexivity|].
  pose proof O as O0.
  apply sorted.ordered_inv in O. destruct O as [O L].
  cbn [btree.AscendGreaterOrEqual List.filter].
  destruct (types.less a pivot) eqn:La.
  - destruct (named a) eqn:Na.
    + apply named_true in Na. rewrite (F a (or_introl eq_refl) Na) in La.
      discriminate.
    + apply IH; [exact O|]. intros x Hx. apply F. now right.
  - rewrite (walk_run (a :: t) [] O0).
    + reflexivity.
    + assert (Ga : cmp a pivot <> Lt).
      { apply (sorted.less_false cmp types.less pkgorder.less_cmp). exact La. }
      intros x [<-|Hx]; [exact Ga|].
      intros Lx. apply Ga.
      apply (order.lt_trans _ pkgorder.cmp_total a x pivot); [now apply L|exact Lx].
Qed.

(** *** The walk *)

(** What the claim says of a pinned name, after the candidates [pre]. *)
Definition pinnedOK (pv : Ver) (pre : list Package) (sel : DB) : Prop :=
  forall e, types.Name e = n ->
    In e sel <-> In e pre /\ version.Compare (types.Version e) pv = 0.

(** What the claim says of another name, after the candidates [pre]: the
    one entry of the name is a candidate that no candidate of the name
    exceeds. *)
Definition newestOK (pre : list Package) (sel : DB) : Prop :=
  (forall e, In e sel -> types.Name e = n ->
     In e pre
     /\ forall c, In c pre -> types.Name c = n ->
          version.Compare (types.Version c) (types.Version e) <= 0)
  /\ (forall e e', In e sel -> In e' sel ->
        types.Name e = n -> types.Name e' = n -> e = e')
  /\ (forall c, In c pre -> types.Name c = n ->
        exists e, In e sel /\ types.Name e = n).

Definition collapsed (requestedPackages : gmap string (option Ver))
    (pre : list Package) (sel : DB) : Prop :=
  match requestedPackages !! n with
  | Some (Some pv) => pinnedOK pv pre sel
  | _ => newestOK pre sel
  end.

Lemma pinnedOK_ext pv pre pre' (sel sel' : DB) :
  (forall x, types.Name x = n -> In x sel' <-> In x sel) ->
  (forall x, types.Name x = n -> In x pre' <-> In x pre) ->
  pinnedOK pv pre sel -> pinnedOK pv pre' sel'.
Proof.
  intros Ms Mp P e Ne. rewrite (Ms e Ne), (Mp e Ne). now apply P.
Qed.

Lemma newestOK_ext pre pre' (sel sel' : DB) :
  (forall x, types.Name x = n -> In x sel' <-> In x sel) ->
  (forall x, types.Name x = n -> In x pre' <-> In x pre) ->
  newestOK pre sel -> newestOK pre' sel'.
Proof.
  intros Ms Mp (A & B & C). split; [|split].
  - intros e He Ne. apply (Ms e Ne) in He. destruct (A e He Ne) as [A1 A2].
    split; [now apply Mp|].
    intros c Hc Nc. apply (Mp c Nc) in Hc. now apply A2.
  - intros e e' He He' Ne Ne'. apply (Ms e Ne) in He. apply (Ms e' Ne') in He'.
    now apply B.
  - intros c Hc Nc. apply (Mp c Nc) in Hc. destruct (C c Hc Nc) as (e & He & Ne).
    exists e. split; [now apply Ms|exact Ne].
Qed.

Lemma collapsed_ext rq pre pre' (sel sel' : DB) :
  (forall x, types.Name x = n -> In x sel' <-> In x sel) ->
  (forall x, types.Name x = n -> In x pre' <-> In x pre) ->
  collapsed rq pre sel -> collapsed rq pre' sel'.
Proof.
  intros Ms Mp. unfold collapsed.
  destruct (rq !! n) as [[pv|]|];
    [now apply pinnedOK_ext|now apply newestOK_ext|now apply newestOK_ext].
Qed.

(** A candidate of another name. *)
Lemma selectPackage_other rq (sel : DB) c :
  tidy sel -> notProviding c -> types.Name c <> n ->
  tidy (selectPackage rq sel c)
  /\ forall x, types.Name x = n -> In x (selectPackage rq sel c) <-> In x sel.
Proof.
  intros T Qc Nc.
  assert (A : forall db : DB, tidy db ->
            tidy (Add db c)
            /\ forall x, types.Name x = n -> In x (Add db c) <-> In x db).
  { intros db Td. destruct (Add_tidy db c Td Qc) as [T1 M1].
    split; [exact T1|]. intros x Nx. rewrite (M1 x Nx). split.
    - intros [->|[Hx _]]; [contradiction|exact Hx].
    - intros Hx. right. split; [exact Hx|].
      intros S. apply same_Name in S. congruence. }
  assert (B : tidy
              match Get sel (types.Name c) with
              | existing0 :: _ =>
                  if 0 <? version.Compare (types.Version c)
                                          (types.Version existing0)
                  then Add (Remove sel existing0) c
                  else sel
              | [] => Add sel c
              end
            /\ forall x, types.Name x = n ->
                 In x match Get sel (types.Name c) with
                      | existing0 :: _ =>
                          if 0 <? version.Compare (types.Version c)
                                                  (types.Version existing0)
                          then Add (Remove sel existing0) c
                          else sel
                      | [] => Add sel c
                      end <-> In x sel).
  { destruct (Get sel (types.Name c)) as [|existing0 rest] eqn:G;
      [now apply A|].
    destruct (0 <? _); [|split; [exact T|reflexivity]].
    assert (He : In existing0 (Get sel (types.Name c)))
      by (rewrite G; now left).
    apply lookup.Get_sound in He. destruct He as [He Ne].
    destruct (Remove_tidy sel existing0 T (proj2 T existing0 He)) as [T1 M1].
    destruct (A _ T1) as [T2 M2]. split; [exact T2|].
    intros x Nx. rewrite (M2 x Nx), (M1 x Nx). split; [tauto|].
    intros Hx. split; [exact Hx|].
    intros S. apply same_Name in S. congruence. }
  unfold selectPackage.
  destruct (rq !! types.Name c) as [[pv|]|]; [|exact B|exact B].
  destruct (_ =? 0); [now apply A|split; [exact T|reflexivity]].
Qed.

(** A candidate of the name, when the name is not pinned. *)
Lemma newest_step pre (sel : DB) c :
  tidy sel -> notProviding c -> types.Name c = n ->
  (forall x, In x pre -> types.Name x = n -> types.less x pivot = false) ->
  newestOK pre sel ->
  let sel' :=
    match Get sel (types.Name c) with
    | existing0 :: _ =>
        if 0 <? version.Compare (types.Version c) (types.Version existing0)
        then Add (Remove sel existing0) c
        else sel
    | [] => Add sel c
    end in
  tidy sel' /\ newestOK (pre ++ [c]) sel'.
Proof.
  intros T Qc Nc F (A & B & C). cbv zeta.
  rewrite Nc, (Get_filter sel (proj1 T)).
  2:{ intros x Hx Nx. apply F; [|exact Nx]. now apply (A x Hx Nx). }
  destruct (List.filter named sel) as [|existing0 rest] eqn:G.
  - assert (None_ : forall x, In x sel -> types.Name x = n -> False).
    { intros x Hx Nx.
      assert (X : In x (List.filter named sel))
        by (apply filter_In; split; [exact Hx|now apply named_true]).
      rewrite G in X. destruct X. }
    destruct (Add_tidy sel c T Qc) as [T1 M1]. split; [exact T1|].
    assert (Only : forall e, In e (Add sel c) -> types.Name e = n -> e = c).
    { intros e He Ne. apply (M1 e Ne) in He.
      destruct He as [->|[He _]]; [reflexivity|].
      destruct (None_ e He Ne). }
    split; [|split].
    + intros e He Ne. rewrite (Only e He Ne). split; [apply in_app_iff; right; now left|].
      intros c' Hc' Nc'. apply in_app_iff in Hc'.
      destruct Hc' as [Hc'|[<-|[]]].
      * destruct (C c' Hc' Nc') as (e' & He' & Ne'). destruct (None_ e' He' Ne').
      * rewrite version.vcmp_refl. lia.
    + intros e e' He He' Ne Ne'. now rewrite (Only e He Ne), (Only e' He' Ne').
    + intros c' _ _. exists c. split; [|exact Nc].
      apply (M1 c Nc). now left.
  - assert (He0 : In existing0 sel /\ types.Name existing0 = n).
    { assert (X : In existing0 (List.filter named sel))
        by (rewrite G; now left).
      apply filter_In in X. destruct X as [X1 X2].
      split; [exact X1|now apply named_true]. }
    destruct He0 as [He0 Ne0].
    destruct (A existing0 He0 Ne0) as [Hp0 Max0].
    destruct (0 <? version.Compare (types.Version c) (types.Version existing0))
      eqn:Gt.
    + apply Z.ltb_lt in Gt.
      destruct (Remove_tidy sel existing0 T (proj2 T existing0 He0))
        as [T1 M1].
      destruct (Add_tidy _ c T1 Qc) as [T2 M2]. split; [exact T2|].
      assert (Only : forall e, In e (Add (Remove sel existing0) c) ->
                types.Name e = n -> e = c).
      { intros e He Ne. apply (M2 e Ne) in He.
        destruct He as [->|[He _]]; [reflexivity|].
        apply (M1 e Ne) in He. destruct He as [He NS].
        exfalso. apply NS. rewrite (B e existing0 He He0 Ne Ne0).
        apply database.same_refl. }
      split; [|split].
      * intros e He Ne. rewrite (Only e He Ne).
        split; [apply in_app_iff; right; now left|].
        intros c' Hc' Nc'. apply in_app_iff in Hc'.
        destruct Hc' as [Hc'|[<-|[]]].
        -- pose proof (Max0 c' Hc' Nc') as Le.
           apply version.vcmp_flip_pos in Gt.
           pose proof (version.vcmp_le_lt_trans _ _ _ Le Gt). lia.
        -- rewrite version.vcmp_refl. lia.
      * intros e e' He He' Ne Ne'.
        now rewrite (Only e He Ne), (Only e' He' Ne').
      * intros c' _ _. exists c. split; [|exact Nc].
        apply (M2 c Nc). now left.
    + apply Z.ltb_ge in Gt. split; [exact T|].
      split; [|split].
      * intros e He Ne. destruct (A e He Ne) as [A1 A2].
        split; [apply in_app_iff; now left|].
        intros c' Hc' Nc'. apply in_app_iff in Hc'.
        destruct Hc' as [Hc'|[<-|[]]]; [now apply A2|].
        now rewrite (B e existing0 He He0 Ne Ne0).
      * exact B.
      * intros c' _ _. exists existing0. auto.
Qed.

(** A candidate of the name, pinned or not. *)
Lemma selectPackage_named rq pre (sel : DB) c :
  tidy sel -> notProviding c -> types.Name c = n ->
  (forall x, In x pre -> cmp x c = Lt) ->
  (forall x, In x pre -> types.Name x = n -> types.less x pivot = false) ->
  collapsed rq pre sel ->
  tidy (selectPackage rq sel c)
  /\ collapsed rq (pre ++ [c]) (selectPackage rq sel c).
Proof.
  intros T Qc Nc L F. unfold collapsed, selectPackage.
  replace (rq !! types.Name c) with (rq !! n) by now rewrite Nc.
  destruct (rq !! n) as [[pv|]|];
    [|intros J; now apply newest_step|intros J; now apply newest_step].
  intros P.
  destruct (version.Compare (types.Version c) pv =? 0) eqn:E.
  - apply Z.eqb_eq in E.
    destruct (Add_tidy sel c T Qc) as [T1 M1]. split; [exact T1|].
    intros e Ne. rewrite (M1 e Ne), in_app_iff. simpl. split.
    + intros [->|[He _]]; [auto|].
      apply (P e Ne) in He. tauto.
    + intros [[He|[<-|[]]] V]; [|now left].
      right. split; [apply (P e Ne); auto|].
      unfold database.same. rewrite (L e He). discriminate.
  - apply Z.eqb_neq in E. split; [exact T|].
    intros e Ne. rewrite (P e Ne), in_app_iff. simpl. split; [tauto|].
    intros [[He|[<-|[]]] V]; [auto|contradiction].
Qed.

Lemma selectPackage_step rq pre (sel : DB) c :
  tidy sel -> notProviding c ->
  (forall x, In x pre -> cmp x c = Lt) ->
  (forall x, In x pre -> types.Name x = n -> types.less x pivot = false) ->
  collapsed rq pre sel ->
  tidy (selectPackage rq sel c)
  /\ collapsed rq (pre ++ [c]) (selectPackage rq sel c).
Proof.
  intros T Qc L F J.
  destruct (String.eqb_spec (types.Name c) n) as [Nc|Nc].
  - now apply selectPackage_named.
  - destruct (selectPackage_other rq sel c T Qc Nc) as [T1 M1].
    split; [exact T1|].
    apply (collapsed_ext rq pre _ sel _ M1); [|exact J].
    intros x Nx. rewrite in_app_iff. simpl. split; [|tauto].
    intros [Hx|[<-|[]]]; [exact Hx|contradiction].
Qed.

Lemma ordered_before (pre : list Package) c post :
  ordered (pre ++ c :: post) -> forall x, In x pre -> cmp x c = Lt.
Proof.
  induction pre as [|a pre IH]; intros O x; [intros []|].
  simpl in O. apply sorted.ordered_inv in O. destruct O as [O L].
  intros [<-|Hx]; [|now apply IH].
  apply L. apply in_app_iff. right. now left.
Qed.

Lemma walk_collapsed rq post : forall pre (sel : DB),
  ordered (pre ++ post) ->
  (forall c, In c (pre ++ post) -> notProviding c) ->
  (forall c, In c (pre ++ post) -> types.Name c = n ->
     types.less c pivot = false) ->
  tidy sel -> collapsed rq pre sel ->
  collapsed rq (pre ++ post) (fold_left (selectPackage rq) post sel).
Proof.
  induction post as [|c post IH]; intros pre sel O Q F T J; simpl.
  - now rewrite app_nil_r.
  - assert (E : pre ++ c :: post = (pre ++ [c]) ++ post)
      by now rewrite <- app_assoc.
    destruct (selectPackage_step rq pre sel c T) as [T1 J1]; auto.
    + apply Q, in_app_iff. right. now left.
    + now apply (ordered_before pre c post).
    + intros x Hx. apply F, in_app_iff. now left.
    + rewrite E in *. now apply IH.
Qed.

Lemma collapsed_start rq : collapsed rq [] (NewPackageDB (Ver := Ver) (Arc := Arc)).
Proof.
  unfold collapsed. destruct (rq !! n) as [[pv|]|].
  - intros e Ne. simpl. tauto.
  - split; [intros e []|]. split; [intros e e' []|intros c []].
  - split; [intros e []|]. split; [intros e e' []|intros c []].
Qed.

(** The selected database after the walk: [selectPackage] over the
    candidates, in the order of the tree. *)
Lemma selectNewest_deref rq (candidateDB selectedDB : loc)
    (h : Heap Ver Arc) db :
  h !! selectedDB = Some db ->
  deref (selectNewest rq candidateDB selectedDB h) selectedDB
  = fold_left (selectPackage rq) (ForEach (deref h candidateDB)) db.
Proof.
  unfold selectNewest. generalize (ForEach (deref h candidateDB)) as l.
  intros l. revert h db.
  induction l as [|c l IH]; intros h db E; cbn [fold_left].
  - unfold deref, Heap, loc, PackageDB in *. now rewrite E.
  - apply IH. unfold update, Heap, loc, PackageDB in *.
    rewrite list_lookup_alter, E.
    destruct (decide (selectedDB = selectedDB)); [reflexivity|congruence].
Qed.

(** C3, as amended: for a name that no candidate lists in its Provides and
    of which no candidate sorts below the key that [Get] scans from, the
    version-collapse walk of [Resolve] leaves in the selected database, when
    the name was requested with a version pin, exactly the candidates of
    that name whose version compares equal to the pinned one; otherwise, one
    entry of that name at most, which is a candidate whose version no
    candidate of the name exceeds, and there is one as soon as a candidate
    has the name. *)
Theorem selectNewest_collapses
    (requestedPackages : gmap string (option Ver))
    (candidateDB selectedDB : loc) (h : Heap Ver Arc) :
  h !! selectedDB = Some NewPackageDB ->
  ordered (deref h candidateDB) ->
  (forall c possi, In c (deref h candidateDB) ->
     In possi (types.possibilities (types.Provides c)) ->
     dependency.Name possi <> n) ->
  (forall c, In c (deref h candidateDB) -> types.Name c = n ->
     types.less c (types.keyOf n version.zero false) = false) ->
  let candidates := ForEach (deref h candidateDB) in
  let selected :=
    deref (selectNewest requestedPackages candidateDB selectedDB h)
          selectedDB in
  match requestedPackages !! n with
  | Some (Some packageVersion) =>
      forall e, types.Name e = n ->
        In e selected <->
        In e candidates
        /\ version.Compare (types.Version e) packageVersion = 0
  | _ =>
      (forall e, In e selected -> types.Name e = n ->
         In e candidates
         /\ forall c, In c candidates -> types.Name c = n ->
              version.Compare (types.Version c) (types.Version e) <= 0)
      /\ (forall e e', In e selected -> In e' selected ->
            types.Name e = n -> types.Name e' = n -> e = e')
      /\ (forall c, In c candidates -> types.Name c = n ->
            exists e, In e selected /\ types.Name e = n)
  end.
Proof.
  intros E O Q F candidates selected.
  unfold selected. rewrite (selectNewest_deref _ _ _ _ _ E).
  apply (walk_collapsed requestedPackages candidates [] NewPackageDB).
  - exact O.
  - intros c Hc possi Hp. exact (Q c possi Hc Hp).
  - exact F.
  - split; [constructor|intros e []].
  - apply collapsed_start.
Qed.

End Collapse.
End collapse.

(** ** The tree of a database, and its queries *)

Module tree.
Section Tree.
Context {Ver Arc : Type} `{VL : version.Laws Ver} `{AP : arch.Plain Arc}.
Import packages.

Abbreviation Package := (types.Package Ver Arc).
Abbreviation Possibility := (dependency.Possibility Ver).
Abbreviation DB := (PackageDB Ver Arc).
Abbreviation cmp := (pkgorder.cmp (Ver := Ver) (Arc := Arc)).
Abbreviation ordered := (sorted.ordered cmp).
Abbreviation same := (database.same (Ver := Ver) (Arc := Arc)).

Lemma Compare_le (a b : Package) : types.Compare a b <= 0 <-> cmp a b <> Gt.
Proof.
  rewrite <- pkgorder.Compare_sign.
  destruct (Z.compare_spec (types.Compare a b) 0); split; intros; 
    try lia; try congruence.
Qed.

Lemma Compare_lt (a b : Package) : types.Compare a b < 0 <-> cmp a b = Lt.
Proof. rewrite <- pkgorder.Compare_sign. apply Z.compare_lt_iff. Qed.

Lemma cmp_le_trans (a b c : Package) :
  cmp a b <> Gt -> cmp b c <> Gt -> cmp a c <> Gt.
Proof.
  intros L1 L2.
  destruct (cmp a b) eqn:E1; [| |congruence].
  - now rewrite (order.eq_l _ pkgorder.cmp_total a b c E1).
  - destruct (cmp b c) eqn:E2; [| |congruence].
    + rewrite (order.total_eq_r _ pkgorder.cmp_total a b c E2) in E1.
      congruence.
    + rewrite (order.lt_trans _ pkgorder.cmp_total a b c E1 E2). discriminate.
Qed.

(** [Package.Compare] orders the packages: by name, then by version, then
    by the name of the architecture. *)
Theorem Compare_orders (a b c : Package) :
  Z.sgn (types.Compare a b) = - Z.sgn (types.Compare b a)
  /\ (types.Compare a b <= 0 -> types.Compare b c <= 0 ->
      types.Compare a c <= 0)
  /\ (types.Compare a b = 0 <->
      types.Name a = types.Name b
      /\ version.Compare (types.Version a) (types.Version b) = 0
      /\ arch.String (types.Architecture a)
         = arch.String (types.Architecture b)).
Proof.
  split; [|split].
  - pose proof (pkgorder.Compare_sign a b) as Sa.
    pose proof (pkgorder.Compare_sign b a) as Sb.
    pose proof (order.antisym _ pkgorder.cmp_total a b) as An.
    rewrite <- Sa, <- Sb in An.
    destruct (Z.compare_spec (types.Compare a b) 0);
      destruct (Z.compare_spec (types.Compare b a) 0);
      simpl in An; try discriminate; lia.
  - rewrite !Compare_le. apply cmp_le_trans.
  - rewrite pkgorder.Compare_zero. apply pkgorder.cmp_Eq_iff.
Qed.

(** *** The order of the tree *)

Lemma provide_ordered c (db : DB) possi :
  ordered db -> ordered (provide c db possi).
Proof.
  intros O. unfold provide.
  destruct (existsb _ _); [exact O|]. now apply database.RoI_ordered.
Qed.

Lemma unprovide_ordered c (db : DB) possi :
  ordered db -> ordered (unprovide c db possi).
Proof.
  intros O. unfold unprovide.
  destruct (btree.Get _ _ db); [|exact O].
  destruct (length _ =? 0)%nat;
    [now apply database.Del_ordered|now apply database.RoI_ordered].
Qed.

Lemma fold_ordered {A} (f : DB -> A -> DB) (l : list A) :
  (forall db x, ordered db -> ordered (f db x)) ->
  forall db, ordered db -> ordered (fold_left f l db).
Proof.
  intros F. induction l as [|x l IH]; intros db O; simpl; auto.
Qed.

Lemma Add_ordered (db : DB) p : ordered db -> ordered (Add db p).
Proof.
  intros O. unfold Add, addPackage.
  apply fold_ordered; [intros; now apply provide_ordered|].
  now apply database.RoI_ordered.
Qed.

Lemma AddAll_ordered (db : DB) ps : ordered db -> ordered (AddAll db ps).
Proof.
  unfold AddAll. apply fold_ordered. intros. now apply Add_ordered.
Qed.

Lemma Remove_ordered (db : DB) p : ordered db -> ordered (Remove db p).
Proof.
  intros O. unfold Remove.
  apply fold_ordered; [intros; now apply unprovide_ordered|].
  now apply database.Del_ordered.
Qed.

Lemma run_ordered (ops : list (database.Op Ver Arc)) :
  ordered (database.run ops).
Proof.
  unfold database.run. apply fold_ordered; [|constructor].
  intros db [p|ps|p] O; simpl;
    [now apply Add_ordered|now apply AddAll_ordered|now apply Remove_ordered].
Qed.

(** After any operations, [ForEach] visits the entries in strictly ascending
    order of [Compare]; no two entries have the same identity. *)
Theorem ForEach_ascending (ops : list (database.Op Ver Arc)) :
  StronglySorted (fun a b => types.Compare a b < 0)
                 (ForEach (database.run ops))
  /\ forall x y, In x (database.run ops) -> In y (database.run ops) ->
       types.Compare x y = 0 -> x = y.
Proof.
  pose proof (run_ordered ops) as O. split.
  - unfold ForEach, btree.Ascend.
    induction O as [|a l O IH F]; constructor; [exact IH|].
    eapply List.Forall_impl; [|exact F]. intros b L. now apply Compare_lt.
  - intros x y Hx Hy E. apply (database.unique _ O); auto.
    now apply pkgorder.Compare_zero.
Qed.

(** *** Adding and removing a package without Provides *)

Lemma less_irrefl (p : Package) : types.less p p = false.
Proof.
  apply (sorted.less_false cmp types.less pkgorder.less_cmp).
  rewrite (order.total_refl _ pkgorder.cmp_total). discriminate.
Qed.

Lemma Delete_RoI item (t : DB) :
  btree.Delete types.less item (btree.ReplaceOrInsert types.less item t)
  = btree.Delete types.less item t.
Proof.
  induction t as [|a t IH]; simpl.
  - now rewrite less_irrefl.
  - destruct (types.less a item) eqn:L1; simpl.
    + now rewrite L1, IH.
    + destruct (types.less item a) eqn:L2; simpl; now rewrite less_irrefl.
Qed.

Lemma Delete_absent item (t : DB) :
  (forall x, In x t -> cmp x item <> Eq) -> btree.Delete types.less item t = t.
Proof.
  induction t as [|a t IH]; intros F; simpl; [reflexivity|].
  destruct (types.less a item) eqn:L1.
  - rewrite IH; [reflexivity|]. intros x Hx. apply F. now right.
  - destruct (types.less item a) eqn:L2; [reflexivity|].
    exfalso. apply (F a (or_introl eq_refl)).
    apply (sorted.less_false cmp types.less pkgorder.less_cmp) in L1, L2.
    destruct (cmp a item) eqn:E; [reflexivity|congruence|].
    apply (sorted.cmp_Gt_flip cmp pkgorder.cmp_total) in E. congruence.
Qed.

Lemma RoI_length item (t : DB) :
  length (btree.ReplaceOrInsert types.less item t)
  = match btree.Get types.less item t with
    | Some _ => length t
    | None => S (length t)
    end.
Proof.
  induction t as [|a t IH]; simpl; [reflexivity|].
  destruct (types.less a item); simpl.
  - rewrite IH. now destruct (btree.Get types.less item t).
  - now destruct (types.less item a).
Qed.

Lemma Delete_length_Get item (t : DB) :
  length (btree.Delete types.less item t)
  = match btree.Get types.less item t with
    | Some _ => pred (length t)
    | None => length t
    end.
Proof.
  induction t as [|a t IH]; simpl; [reflexivity|].
  destruct (types.less a item); simpl.
  - rewrite IH. destruct (btree.Get types.less item t) eqn:G; [|reflexivity].
    destruct t; [discriminate G|reflexivity].
  - now destruct (types.less item a).
Qed.

Lemma Get_present (db : DB) p :
  ordered db -> (exists x, In x db /\ types.Compare x p = 0) ->
  exists e, btree.Get types.less p db = Some e.
Proof.
  intros O (x & Hx & E). exists x.
  apply (sorted.Get_Some_iff cmp pkgorder.cmp_total types.less
           pkgorder.less_cmp _ _ O).
  split; [exact Hx|now apply pkgorder.Compare_zero].
Qed.

Lemma Get_absent (db : DB) p :
  ordered db -> (forall x, In x db -> types.Compare x p <> 0) ->
  btree.Get types.less p db = None.
Proof.
  intros O F.
  apply (sorted.Get_None_iff cmp pkgorder.cmp_total types.less
           pkgorder.less_cmp _ _ O).
  intros x Hx E. apply (F x Hx). now apply pkgorder.Compare_zero.
Qed.

(** For a package that provides nothing, on a database that operations
    built: [Remove] after [Add] leaves what [Remove] alone leaves.  A
    package that is new makes the database one longer, and removing it gives
    the database back; one whose identity the database holds takes the place
    of the entry of that identity, and removing it leaves neither. *)
Theorem Add_then_Remove (ops : list (database.Op Ver Arc)) (p : Package) :
  types.possibilities (types.Provides p) = [] ->
  let db := database.run ops in
  Remove (Add db p) p = Remove db p
  /\ ((forall x, In x db -> types.Compare x p <> 0) ->
      Len (Add db p) = S (Len db) /\ Remove (Add db p) p = db)
  /\ ((exists x, In x db /\ types.Compare x p = 0) ->
      Len (Add db p) = Len db
      /\ Len (Remove (Add db p) p) = pred (Len db)
      /\ forall x, In x (Remove (Add db p) p) -> types.Compare x p <> 0).
Proof.
  intros E db. pose proof (run_ordered ops) as O. fold db in O.
  unfold Add, addPackage, Remove, Len. rewrite E. cbn [fold_left].
  rewrite Delete_RoI. split; [reflexivity|]. split.
  - intros F. rewrite RoI_length, (Get_absent db p O F).
    split; [reflexivity|]. apply Delete_absent.
    intros x Hx S. apply (F x Hx). now apply pkgorder.Compare_zero.
  - intros X. destruct (Get_present db p O X) as [e G].
    rewrite RoI_length, Delete_length_Get, G.
    split; [reflexivity|]. split; [reflexivity|].
    intros x Hx S. apply (database.Del_In db p O) in Hx.
    apply (proj2 Hx). now apply pkgorder.Compare_zero.
Qed.

(** For a concrete package that is new to a database that admissible
    operations built, whatever it provides: [Remove] after [Add] leaves the
    concrete packages that there were, and virtual entries for the keys that
    had one. *)
Theorem Add_then_Remove_provider (ops : list (database.Op Ver Arc))
    (p : Package) :
  database.wellFormed NewPackageDB ops ->
  let db := database.run ops in
  database.concrete p ->
  (forall x, In x db -> types.Compare x p <> 0) ->
  (forall x, types.IsVirtual x = false ->
     In x (Remove (Add db p) p) <-> In x db)
  /\ (forall k, database.hasVirtual (Remove (Add db p) p) k
                <-> database.hasVirtual db k).
Proof.
  intros W db Cp F.
  pose proof (database.run_Inv ops W) as I. fold db in I.
  assert (A : database.addable db p).
  { split; [exact Cp|]. intros x Hx S. exfalso. apply (F x Hx).
    now apply pkgorder.Compare_zero. }
  destruct (database.addPackage_Inv db p I A) as [I1 M1].
  assert (Hp : In p (Add db p)) by (apply M1; [apply Cp|now left]).
  destruct (database.Remove_Inv (Add db p) p I1 Hp (proj1 Cp)) as [I2 M2].
  assert (M : forall x, types.IsVirtual x = false ->
                In x (Remove (Add db p) p) <-> In x db).
  { intros x Vx. rewrite (M2 x Vx). unfold Add. rewrite (M1 x Vx). split.
    - intros [[->|Hx] Ne]; [contradiction|exact Hx].
    - intros Hx. split; [now right|]. intros ->. apply (F p Hx).
      apply pkgorder.Compare_zero. apply database.same_refl. }
  split; [exact M|].
  assert (V : forall d : DB, database.Inv d -> forall k,
            database.hasVirtual d k <->
            exists q, In q d /\ types.IsVirtual q = false
                      /\ database.provides q k).
  { intros d Id k. split.
    - intros (v & Hv & Vv & S).
      destruct (database.Inv_virtualEntry d v Id Hv Vv) as (_ & _ & Ne).
      destruct (types.Providers v) as [|q ps] eqn:Ev; [congruence|].
      assert (Hq : In q (types.Providers v)) by (rewrite Ev; now left).
      apply (database.i_providers d Id v Hv Vv) in Hq.
      destruct Hq as (Hq & Vq & Pq).
      exists q. split; [exact Hq|]. split; [exact Vq|].
      apply (database.provides_same q v); [now apply database.same_sym|exact Pq].
    - intros (q & Hq & Vq & (possi & Hpo & S)).
      destruct (database.i_entries d Id q Hq Vq possi Hpo) as (v & Hv & Vv & S').
      exists v. split; [exact Hv|]. split; [exact Vv|].
      apply (database.same_trans _ (virtualFor possi));
        [now apply database.same_sym|exact S']. }
  intros k. rewrite (V _ I2 k), (V _ I k). split.
  - intros (q & Hq & Vq & Pq). exists q. split; [now apply M|auto].
  - intros (q & Hq & Vq & Pq). exists q. split; [now apply M|auto].
Qed.

(** *** The queries by name and version *)

Section Queries.
Variables (n : string) (v : Ver).

(** The key that the scans of the queries start from. *)
Definition pivot : Package := types.keyOf n v false.

Definition named (x : Package) : bool := String.eqb (types.Name x) n.

(** The callbacks of the scans: the one of [Get], [LaterOrEqual] and
    [EarlierOrEqual], and the one of [StrictlyLater] and
    [StrictlyEarlier]. *)
Definition visitAll (packageList : list Package) (pkg : Package)
  : list Package * bool :=
  if negb (String.eqb (types.Name pkg) n) then (packageList, false)
  else (packageList ++ [pkg], true).

Definition visitOthers (packageList : list Package) (pkg : Package)
  : list Package * bool :=
  if negb (String.eqb (types.Name pkg) n) then (packageList, false)
  else if version.Compare (types.Version pkg) v =? 0
       then (packageList, true)
       else (packageList ++ [pkg], true).

Definition unequal (x : Package) : bool :=
  negb (version.Compare (types.Version x) v =? 0).

(** Once a scan has left the name, it does not come back to it. *)
Definition leaves (x y : Package) : Prop :=
  named x = false -> named y = false.

Lemma filter_nothing {A : Type} (f : A -> bool) (l : list A) :
  (forall y, In y l -> f y = false) -> List.filter f l = [].
Proof.
  induction l as [|a l IH]; intros F; simpl; [reflexivity|].
  rewrite (F a (or_introl eq_refl)). apply IH. intros y Hy. apply F. now right.
Qed.

Lemma walk_visitAll (l : list Package) : forall acc,
  StronglySorted leaves l ->
  btree.walk visitAll acc l = acc ++ List.filter named l.
Proof.
  induction l as [|x l IH]; intros acc S; simpl.
  - now rewrite app_nil_r.
  - apply StronglySorted_inv in S. destruct S as [S F].
    unfold visitAll at 1. fold (named x).
    destruct (named x) eqn:Nx; simpl.
    + rewrite (IH _ S). now rewrite <- app_assoc.
    + rewrite filter_nothing; [now rewrite app_nil_r|].
      intros y Hy. rewrite List.Forall_forall in F. now apply (F y Hy).
Qed.

Lemma walk_visitOthers (l : list Package) : forall acc,
  StronglySorted leaves l ->
  btree.walk visitOthers acc l
  = acc ++ List.filter (fun x => named x && unequal x) l.
Proof.
  induction l as [|x l IH]; intros acc S; simpl.
  - now rewrite app_nil_r.
  - apply StronglySorted_inv in S. destruct S as [S F].
    unfold visitOthers at 1. fold (named x). unfold unequal at 1.
    destruct (named x) eqn:Nx; simpl.
    + destruct (version.Compare (types.Version x) v =? 0); simpl.
      * now apply IH.
      * rewrite (IH _ S). now rewrite <- app_assoc.
    + rewrite filter_nothing; [now rewrite app_nil_r|].
      intros y Hy. rewrite List.Forall_forall in F.
      now rewrite (F y Hy Nx).
Qed.

(** The order of the tree, by its components. *)
Lemma cmp_by_name (a b : Package) :
  cmp a b <> Gt -> String.compare (types.Name a) (types.Name b) <> Gt.
Proof.
  unfold pkgorder.cmp, pkgorder.compareKey, order.pair, pkgorder.key.
  cbn [fst snd].
  destruct (String.compare (types.Name a) (types.Name b)); congruence.
Qed.

Lemma cmp_by_version (a b : Package) :
  types.Name a = types.Name b ->
  cmp a b <> Gt -> version.Compare (types.Version a) (types.Version b) <= 0.
Proof.
  intros E. unfold pkgorder.cmp, pkgorder.compareKey, order.pair, pkgorder.key.
  cbn [fst snd].
  assert (X : String.compare (types.Name a) (types.Name b) = Eq)
    by (rewrite E; apply (order.total_refl _ pkgorder.string_total)).
  rewrite X. unfold pkgorder.vcmp.
  destruct (Z.compare_spec
              (version.Compare (types.Version a) (types.Version b)) 0);
    intros; try lia. congruence.
Qed.

Lemma cmp_of_version (a b : Package) :
  types.Name a = types.Name b ->
  version.Compare (types.Version a) (types.Version b) < 0 -> cmp a b = Lt.
Proof.
  intros E L. unfold pkgorder.cmp, pkgorder.compareKey, order.pair, pkgorder.key.
  cbn [fst snd].
  assert (X : String.compare (types.Name a) (types.Name b) = Eq)
    by (rewrite E; apply (order.total_refl _ pkgorder.string_total)).
  rewrite X. unfold pkgorder.vcmp.
  now apply Z.compare_lt_iff in L; rewrite L.
Qed.

Lemma cmp_of_arch (a b : Package) :
  types.Name a = types.Name b ->
  version.Compare (types.Version a) (types.Version b) = 0 ->
  cmp a b = String.compare (arch.String (types.Architecture a))
                           (arch.String (types.Architecture b)).
Proof.
  intros E L. unfold pkgorder.cmp, pkgorder.compareKey, order.pair, pkgorder.key.
  cbn [fst snd].
  assert (X : String.compare (types.Name a) (types.Name b) = Eq)
    by (rewrite E; apply (order.total_refl _ pkgorder.string_total)).
  rewrite X. unfold pkgorder.vcmp. rewrite L. reflexivity.
Qed.

Lemma string_le_antisym (a b : string) :
  String.compare a b <> Gt -> String.compare b a <> Gt -> a = b.
Proof.
  intros L1 L2. apply String.compare_eq_iff.
  rewrite String.compare_antisym in L2.
  destruct (String.compare a b); simpl in *; congruence.
Qed.

Lemma not_Lt_flip (a b : Package) : cmp a b <> Lt <-> cmp b a <> Gt.
Proof.
  rewrite (order.antisym _ pkgorder.cmp_total a b).
  destruct (cmp b a); simpl; split; congruence.
Qed.

Lemma named_iff x : named x = true <-> types.Name x = n.
Proof. apply String.eqb_eq. Qed.

Lemma named_false x : named x = false <-> types.Name x <> n.
Proof. apply String.eqb_neq. Qed.

(** Between the key and an entry of the name, every entry has the name. *)
Lemma named_between (x y : Package) :
  cmp pivot y <> Gt -> cmp y x <> Gt -> named x = true -> named y = true.
Proof.
  intros L1 L2 Nx. apply named_iff in Nx. apply named_iff.
  apply cmp_by_name in L1, L2. simpl in L1. rewrite Nx in L2.
  symmetry. now apply string_le_antisym.
Qed.

Lemma named_between_down (x y : Package) :
  cmp y pivot <> Gt -> cmp x y <> Gt -> named x = true -> named y = true.
Proof.
  intros L1 L2 Nx. apply named_iff in Nx. apply named_iff.
  apply cmp_by_name in L1, L2. simpl in L1. rewrite Nx in L2.
  now apply string_le_antisym.
Qed.

Lemma ascending_leaves (l : list Package) :
  ordered l -> (forall x, In x l -> types.less x pivot = false) ->
  StronglySorted leaves l.
Proof.
  induction 1 as [|a l O IH F]; intros G; constructor.
  - apply IH. intros x Hx. apply G. now right.
  - rewrite List.Forall_forall in *. intros y Hy Na.
    destruct (named y) eqn:Ny; [|reflexivity].
    rewrite (named_between y a) in Na; [discriminate| | |exact Ny].
    + apply not_Lt_flip.
      apply (sorted.less_false cmp types.less pkgorder.less_cmp).
      apply G. now left.
    + specialize (F y Hy). unfold sorted.lt in F. congruence.
Qed.

Lemma SS_app {A} (R : A -> A -> Prop) (l1 l2 : list A) :
  StronglySorted R l1 -> StronglySorted R l2 ->
  (forall x y, In x l1 -> In y l2 -> R x y) ->
  StronglySorted R (l1 ++ l2).
Proof.
  induction 1 as [|a l1 S IH F]; intros S2 X; simpl; [exact S2|].
  constructor.
  - apply IH; [exact S2|]. intros x y Hx Hy. apply X; [now right|exact Hy].
  - rewrite List.Forall_forall in *. intros y Hy. apply in_app_iff in Hy.
    destruct Hy as [Hy|Hy]; [now apply F|]. apply X; [now left|exact Hy].
Qed.

Lemma descending_leaves (l : list Package) :
  ordered l -> (forall x, In x l -> types.less pivot x = false) ->
  StronglySorted leaves (rev l).
Proof.
  induction 1 as [|a l O IH F]; intros G; simpl; [constructor|].
  apply SS_app.
  - apply IH. intros x Hx. apply G. now right.
  - repeat constructor.
  - intros y x Hy [<-|[]] Ny. apply in_rev in Hy.
    rewrite List.Forall_forall in F. specialize (F y Hy).
    destruct (named a) eqn:Na; [|reflexivity].
    rewrite (named_between_down a y) in Ny; [discriminate| | |exact Na].
    + apply not_Lt_flip.
      apply (sorted.less_false cmp types.less pkgorder.less_cmp).
      apply G. right. exact Hy.
    + unfold sorted.lt in F. congruence.
Qed.

(** The two scans of the tree, on an ordered tree. *)
Lemma AGE_ordered (db : DB) :
  ordered db -> ordered (btree.AscendGreaterOrEqual types.less pivot db).
Proof.
  induction 1 as [|a l O IH F]; simpl; [constructor|].
  destruct (types.less a pivot); [exact IH|now constructor].
Qed.

Lemma AGE_In (db : DB) : ordered db ->
  forall x, In x (btree.AscendGreaterOrEqual types.less pivot db)
            <-> In x db /\ types.less x pivot = false.
Proof.
  intros O x.
  rewrite (sorted.AscendGreaterOrEqual_filter cmp pkgorder.cmp_total
             types.less pkgorder.less_cmp pivot db O), filter_In.
  now rewrite negb_true_iff.
Qed.

Lemma upTo_filter (db : DB) : ordered db ->
  btree.upTo types.less pivot db
  = List.filter (fun x => negb (types.less pivot x)) db.
Proof.
  induction 1 as [|a l O IH F]; simpl; [reflexivity|].
  destruct (types.less pivot a) eqn:L; simpl; [|now rewrite IH].
  symmetry. apply filter_nothing. intros y Hy.
  rewrite List.Forall_forall in F. specialize (F y Hy).
  apply negb_false_iff. apply pkgorder.less_cmp.
  apply pkgorder.less_cmp in L.
  now apply (order.lt_trans _ pkgorder.cmp_total pivot a y).
Qed.

Lemma filter_ordered (f : Package -> bool) (l : list Package) :
  ordered l -> ordered (List.filter f l).
Proof.
  induction 1 as [|a l O IH F]; simpl; [constructor|].
  destruct (f a); [|exact IH]. constructor; [exact IH|].
  rewrite List.Forall_forall in *. intros y Hy. apply filter_In in Hy.
  apply F, Hy.
Qed.

Lemma filter_both {A} (f g : A -> bool) (l : list A) :
  List.filter f (List.filter g l) = List.filter (fun x => f x && g x) l.
Proof.
  induction l as [|a l IH]; simpl; [reflexivity|].
  destruct (g a); simpl; [destruct (f a); simpl; now rewrite IH|].
  rewrite andb_false_r. exact IH.
Qed.

Lemma filter_rev {A} (f : A -> bool) (l : list A) :
  List.filter f (rev l) = rev (List.filter f l).
Proof.
  induction l as [|a l IH]; simpl; [reflexivity|].
  rewrite List.filter_app, IH. simpl.
  destruct (f a); simpl; [reflexivity|now rewrite app_nil_r].
Qed.

Definition notBelow (x : Package) : bool := negb (types.less x pivot).
Definition notAbove (x : Package) : bool := negb (types.less pivot x).

Lemma ascending_scan (db : DB) : ordered db ->
  StronglySorted leaves (btree.AscendGreaterOrEqual types.less pivot db).
Proof.
  intros O. apply ascending_leaves; [now apply AGE_ordered|].
  intros x Hx. now apply (AGE_In db O) in Hx.
Qed.

Lemma descending_scan (db : DB) : ordered db ->
  StronglySorted leaves (btree.DescendLessOrEqual types.less pivot db).
Proof.
  intros O. unfold btree.DescendLessOrEqual. apply descending_leaves.
  - rewrite (upTo_filter db O). now apply filter_ordered.
  - intros x Hx. now apply btree.upTo_not_above in Hx.
Qed.

Lemma LaterOrEqual_is (db : DB) : ordered db ->
  LaterOrEqual db n v = List.filter (fun x => named x && notBelow x) db.
Proof.
  intros O. unfold LaterOrEqual. fold pivot.
  change (btree.walk _ [] ?l) with (btree.walk visitAll [] l).
  rewrite (walk_visitAll _ [] (ascending_scan db O)). simpl.
  rewrite (sorted.AscendGreaterOrEqual_filter cmp pkgorder.cmp_total
             types.less pkgorder.less_cmp pivot db O).
  apply filter_both.
Qed.

Lemma StrictlyLater_is (db : DB) : ordered db ->
  StrictlyLater db n v
  = List.filter (fun x => (named x && unequal x) && notBelow x) db.
Proof.
  intros O. unfold StrictlyLater. fold pivot.
  change (btree.walk _ [] ?l) with (btree.walk visitOthers [] l).
  rewrite (walk_visitOthers _ [] (ascending_scan db O)). simpl.
  rewrite (sorted.AscendGreaterOrEqual_filter cmp pkgorder.cmp_total
             types.less pkgorder.less_cmp pivot db O).
  apply filter_both.
Qed.

Lemma EarlierOrEqual_is (db : DB) : ordered db ->
  EarlierOrEqual db n v
  = rev (List.filter (fun x => named x && notAbove x) db).
Proof.
  intros O. unfold EarlierOrEqual. fold pivot.
  change (btree.walk _ [] ?l) with (btree.walk visitAll [] l).
  rewrite (walk_visitAll _ [] (descending_scan db O)). simpl.
  unfold btree.DescendLessOrEqual. rewrite (upTo_filter db O).
  rewrite filter_rev. f_equal. apply filter_both.
Qed.

Lemma StrictlyEarlier_is (db : DB) : ordered db ->
  StrictlyEarlier db n v
  = rev (List.filter (fun x => (named x && unequal x) && notAbove x) db).
Proof.
  intros O. unfold StrictlyEarlier. fold pivot.
  change (btree.walk _ [] ?l) with (btree.walk visitOthers [] l).
  rewrite (walk_visitOthers _ [] (descending_scan db O)). simpl.
  unfold btree.DescendLessOrEqual. rewrite (upTo_filter db O).
  rewrite filter_rev. f_equal. apply filter_both.
Qed.

(** The place of an entry of the name against the key, by its version. *)
Lemma notBelow_version (x : Package) :
  named x = true -> notBelow x = true ->
  0 <= version.Compare (types.Version x) v.
Proof.
  intros Nx B. apply named_iff in Nx. apply negb_true_iff in B.
  apply (sorted.less_false cmp types.less pkgorder.less_cmp) in B.
  apply not_Lt_flip in B. apply cmp_by_version in B; [|simpl; congruence].
  simpl in B. pose proof (version.Compare_antisym (types.Version x) v). lia.
Qed.

Lemma notAbove_version (x : Package) :
  named x = true -> notAbove x = true ->
  version.Compare (types.Version x) v <= 0.
Proof.
  intros Nx B. apply named_iff in Nx. apply negb_true_iff in B.
  apply (sorted.less_false cmp types.less pkgorder.less_cmp) in B.
  apply not_Lt_flip in B. apply cmp_by_version in B; [|simpl; congruence].
  exact B.
Qed.

Lemma later_notBelow (x : Package) :
  named x = true -> 0 < version.Compare (types.Version x) v ->
  notBelow x = true.
Proof.
  intros Nx L. apply named_iff in Nx. apply negb_true_iff.
  apply (sorted.less_false cmp types.less pkgorder.less_cmp).
  apply not_Lt_flip.
  rewrite (cmp_of_version pivot x); [discriminate|simpl; congruence|].
  simpl. now apply version.vcmp_flip_pos.
Qed.

Lemma earlier_notAbove (x : Package) :
  named x = true -> version.Compare (types.Version x) v < 0 ->
  notAbove x = true.
Proof.
  intros Nx L. apply named_iff in Nx. apply negb_true_iff.
  apply (sorted.less_false cmp types.less pkgorder.less_cmp).
  apply not_Lt_flip.
  rewrite (cmp_of_version x pivot); [discriminate|simpl; congruence|exact L].
Qed.

End Queries.

(** [Get] returns the entries of the name that are not below the key of
    the name with the zero version, in the order of the tree. *)
Theorem Get_returns (ops : list (database.Op Ver Arc)) (name : string) :
  let db := database.run ops in
  Get db name
  = List.filter
      (fun x => String.eqb (types.Name x) name
                && negb (types.less x (types.keyOf name version.zero false)))
      (ForEach db)
  /\ (forall x, In x (Get db name) -> In x db /\ types.Name x = name)
  /\ (forall x, In x db -> types.Name x = name ->
        0 < version.Compare (types.Version x) version.zero ->
        In x (Get db name)).
Proof.
  intros db. pose proof (run_ordered ops) as O. fold db in O.
  assert (E : Get db name = LaterOrEqual db name version.zero) by reflexivity.
  rewrite E, (LaterOrEqual_is name version.zero db O).
  split; [reflexivity|]. split.
  - intros x Hx. apply filter_In in Hx. destruct Hx as [Hx B].
    apply andb_true_iff in B. split; [exact Hx|]. now apply named_iff, B.
  - intros x Hx Nx L. apply filter_In. split; [exact Hx|].
    apply named_iff in Nx. rewrite Nx. simpl.
    now apply later_notBelow.
Qed.

(** [LaterOrEqual] returns, in the order of the tree, the entries of the
    name that are not below the key of the name and the version: none of an
    earlier version, and every one of a later version.  [StrictlyLater]
    returns the entries of the name with a later version. *)
Theorem later_queries (ops : list (database.Op Ver Arc)) (name : string)
    (v : Ver) :
  let db := database.run ops in
  LaterOrEqual db name v
  = List.filter
      (fun x => String.eqb (types.Name x) name
                && negb (types.less x (types.keyOf name v false)))
      (ForEach db)
  /\ (forall x, In x (LaterOrEqual db name v) ->
        0 <= version.Compare (types.Version x) v)
  /\ (forall x, In x (StrictlyLater db name v) <->
        In x db /\ types.Name x = name
        /\ 0 < version.Compare (types.Version x) v).
Proof.
  intros db. pose proof (run_ordered ops) as O. fold db in O.
  rewrite (LaterOrEqual_is name v db O), (StrictlyLater_is name v db O).
  split; [reflexivity|]. split.
  - intros x Hx. apply filter_In in Hx. destruct Hx as [_ B].
    apply andb_true_iff in B. now apply (notBelow_version name v x).
  - intros x. rewrite filter_In, !andb_true_iff, named_iff.
    unfold unequal. rewrite negb_true_iff, Z.eqb_neq. split.
    + intros (Hx & (Nx & U) & B). split; [exact Hx|]. split; [exact Nx|].
      apply named_iff in Nx.
      pose proof (notBelow_version name v x Nx B). lia.
    + intros (Hx & Nx & L). split; [exact Hx|].
      split; [split; [exact Nx|lia]|].
      apply later_notBelow; [now apply named_iff|exact L].
Qed.

(** [EarlierOrEqual] returns, from the highest down, the entries of the
    name that are not above the key of the name and the version: none of a
    later version, and every one of an earlier version.  [StrictlyEarlier]
    returns the entries of the name with an earlier version. *)
Theorem earlier_queries (ops : list (database.Op Ver Arc)) (name : string)
    (v : Ver) :
  let db := database.run ops in
  EarlierOrEqual db name v
  = rev (List.filter
           (fun x => String.eqb (types.Name x) name
                     && negb (types.less (types.keyOf name v false) x))
           (ForEach db))
  /\ (forall x, In x (EarlierOrEqual db name v) ->
        version.Compare (types.Version x) v <= 0)
  /\ (forall x, In x (StrictlyEarlier db name v) <->
        In x db /\ types.Name x = name
        /\ version.Compare (types.Version x) v < 0).
Proof.
  intros db. pose proof (run_ordered ops) as O. fold db in O.
  rewrite (EarlierOrEqual_is name v db O), (StrictlyEarlier_is name v db O).
  split; [reflexivity|]. split.
  - intros x Hx. apply in_rev, filter_In in Hx. destruct Hx as [_ B].
    apply andb_true_iff in B. now apply (notAbove_version name v x).
  - intros x. rewrite <- in_rev, filter_In, !andb_true_iff, named_iff.
    unfold unequal. rewrite negb_true_iff, Z.eqb_neq. split.
    + intros (Hx & (Nx & U) & B). split; [exact Hx|]. split; [exact Nx|].
      apply named_iff in Nx.
      pose proof (notAbove_version name v x Nx B). lia.
    + intros (Hx & Nx & L). split; [exact Hx|].
      split; [split; [exact Nx|lia]|].
      apply earlier_notAbove; [now apply named_iff|exact L].
Qed.

(** The version itself, as the queries take it: an entry of the name and of
    the version is returned by [LaterOrEqual] when the name of its
    architecture is not before that of the zero architecture, and is left
    out by [EarlierOrEqual] when it is after it; so a relation [<=] on that
    version does not list the entry. *)
Theorem equal_version_queries (ops : list (database.Op Ver Arc))
    (name : string) (v : Ver) (x : Package) :
  let db := database.run ops in
  In x db -> types.Name x = name ->
  version.Compare (types.Version x) v = 0 ->
  (String.compare (arch.String (types.Architecture x))
                  (arch.String arch.zero) <> Lt ->
   In x (LaterOrEqual db name v))
  /\ (String.compare (arch.String (types.Architecture x))
                     (arch.String arch.zero) = Gt ->
      ~ In x (EarlierOrEqual db name v)
      /\ forall operator packageList,
           operator = "<="%string \/ operator = "<<"%string ->
           packageListFor db
             {| dependency.Name := name;
                dependency.PossiVersion :=
                  Some {| dependency.Operator := operator;
                          dependency.Version := v |} |}
           = Ok packageList ->
           ~ In x packageList).
Proof.
  intros db Hx Nx E. pose proof (run_ordered ops) as O. fold db in O.
  assert (C : cmp x (pivot name v)
              = String.compare (arch.String (types.Architecture x))
                               (arch.String arch.zero)).
  { apply cmp_of_arch; [simpl; exact Nx|exact E]. }
  split.
  - intros A. rewrite (LaterOrEqual_is name v db O). apply filter_In.
    split; [exact Hx|]. apply andb_true_iff. split; [now apply named_iff|].
    apply negb_true_iff.
    apply (sorted.less_false cmp types.less pkgorder.less_cmp). congruence.
  - intros A.
    assert (X : ~ In x (EarlierOrEqual db name v)).
    { intros Hin. apply lookup.EarlierOrEqual_sound in Hin as Hs.
      unfold EarlierOrEqual in Hin.
      apply lookup.walk_named_incl in Hin. destruct Hin as [[]|[Hin _]].
      apply btree.DescendLessOrEqual_incl in Hin as Hd.
      unfold btree.DescendLessOrEqual in Hin. apply in_rev in Hin.
      apply btree.upTo_not_above in Hin.
      apply (sorted.less_false cmp types.less pkgorder.less_cmp) in Hin.
      apply Hin. apply (sorted.cmp_Gt_flip cmp pkgorder.cmp_total).
      fold (pivot name v). congruence. }
    split; [exact X|].
    intros operator packageList [-> | ->]; unfold packageListFor; simpl;
      intros [= <-]; exact X.
Qed.

(** [ExactlyEqual] finds an entry when the database holds one of the name
    and the version that is not below the key of the name and the version,
    and then the first of them; it finds none otherwise. *)
Theorem ExactlyEqual_finds (ops : list (database.Op Ver Arc)) (name : string)
    (v : Ver) :
  let db := database.run ops in
  let matches (x : Package) :=
    In x db /\ types.Name x = name
    /\ version.Compare (types.Version x) v = 0
    /\ types.less x (types.keyOf name v false) = false in
  (forall y, ExactlyEqual db name v = Some y ->
     matches y /\ forall x, matches x -> types.Compare y x <= 0)
  /\ (ExactlyEqual db name v = None <-> forall x, ~ matches x).
Proof.
  intros db matches. pose proof (run_ordered ops) as O. fold db in O.
  rewrite lookup.ExactlyEqual_first. fold (pivot name v).
  pose proof (AGE_ordered name v db O) as OA.
  pose proof (AGE_In name v db O) as MA.
  destruct (btree.AscendGreaterOrEqual types.less (pivot name v) db)
    as [|y l] eqn:EA.
  - split; [discriminate|]. split; [|reflexivity].
    intros _ x (Hx & _ & _ & B).
    assert (X : In x []) by (apply MA; auto). destruct X.
  - apply sorted.ordered_inv in OA. destruct OA as [OA F].
    assert (Hy : In y db /\ types.less y (pivot name v) = false)
      by (apply MA; now left).
    assert (Least : forall x, In x db -> types.less x (pivot name v) = false ->
                      cmp y x <> Gt).
    { intros x Hx B. assert (X : In x (y :: l)) by (apply MA; auto).
      destruct X as [<-|X].
      - rewrite (order.total_refl _ pkgorder.cmp_total). discriminate.
      - rewrite (F x X). discriminate. }
    destruct (String.eqb (types.Name y) name) eqn:Ny; simpl.
    + destruct (version.Compare (types.Version y) v =? 0) eqn:Vy.
      * apply String.eqb_eq in Ny. apply Z.eqb_eq in Vy.
        assert (My : matches y) by (unfold matches; tauto).
        split.
        -- intros y' [= <-]. split; [exact My|].
           intros x (Hx & _ & _ & B). apply Compare_le. now apply Least.
        -- split; [discriminate|]. intros N. destruct (N y My).
      * split; [discriminate|]. split; [|reflexivity].
        intros _ x (Hx & Nx & Vx & B).
        apply Z.eqb_neq in Vy. apply Vy.
        apply String.eqb_eq in Ny.
        pose proof (Least x Hx B) as L1.
        apply cmp_by_version in L1; [|congruence].
        destruct Hy as [_ By].
        apply (sorted.less_false cmp types.less pkgorder.less_cmp) in By.
        apply not_Lt_flip in By.
        apply cmp_by_version in By; [|simpl; congruence].
        simpl in By.
        pose proof (version.Compare_antisym (types.Version y) v).
        assert (version.Compare (types.Version y) v <= 0).
        { apply (version.Compare_trans _ (types.Version x)); [exact L1|lia]. }
        lia.
    + split; [discriminate|]. split; [|reflexivity].
      intros _ x (Hx & Nx & Vx & B).
      assert (X : named name y = true).
      { apply (named_between name v x y).
        - apply not_Lt_flip.
          apply (sorted.less_false cmp types.less pkgorder.less_cmp).
          apply Hy.
        - now apply Least.
        - now apply named_iff. }
      unfold named in X. congruence.
Qed.

End Tree.
End tree.

(** ** The loops of the resolver *)

Module loops.
Section Loops.
Context {Ver Arc : Type} `{VL : version.Laws Ver} `{AP : arch.Plain Arc}.
Import packages.

Abbreviation Package := (types.Package Ver Arc).
Abbreviation Possibility := (dependency.Possibility Ver).
Abbreviation DB := (PackageDB Ver Arc).
Abbreviation Heap := (packages.Heap Ver Arc).
Abbreviation cmp := (pkgorder.cmp (Ver := Ver) (Arc := Arc)).
Abbreviation ordered := (sorted.ordered cmp).
Abbreviation same := (database.same (Ver := Ver) (Arc := Arc)).

(** A loop of calls on one database, on the heap. *)
Lemma fold_update_lookup {A} (f : A -> DB -> DB) (l : list A) (db : loc) :
  forall (h : Heap) (d : DB),
  h !! db = Some d ->
  fold_left (fun h x => update db (f x) h) l h !! db
  = Some (fold_left (fun d x => f x d) l d).
Proof.
  induction l as [|x l IH]; intros h d E; cbn [fold_left]; [exact E|].
  apply IH. unfold update, packages.Heap, loc, PackageDB in *.
  rewrite list_lookup_alter, E.
  destruct (decide (db = db)); [reflexivity|congruence].
Qed.

Lemma deref_lookup (h : Heap) (db : loc) (d : DB) :
  h !! db = Some d -> deref h db = d.
Proof.
  intros E. unfold deref, packages.Heap, loc, PackageDB in *. now rewrite E.
Qed.

(** *** [pruneUnsatisfied] comes to its [break] *)

Lemma unprovide_length c (db : DB) possi :
  ordered db -> (length (unprovide c db possi) <= length db)%nat.
Proof.
  intros O. unfold unprovide.
  destruct (btree.Get types.less (virtualFor possi) db) as [existing|] eqn:G;
    [|lia].
  destruct (length _ =? 0)%nat; [apply btree.Delete_length|].
  rewrite tree.RoI_length.
  match goal with |- context [btree.Get types.less ?item db] =>
    destruct (tree.Get_present db item O) as [e Ge] end.
  - exists existing.
    apply (sorted.Get_Some_iff cmp pkgorder.cmp_total types.less
             pkgorder.less_cmp _ _ O) in G.
    destruct G as [Hin S]. split; [exact Hin|].
    apply pkgorder.Compare_zero.
    apply database.same_sym, database.same_withProviders.
  - rewrite Ge. lia.
Qed.

Lemma unprovide_all_length c l : forall db : DB,
  ordered db ->
  (length (fold_left (unprovide c) l db) <= length db)%nat.
Proof.
  induction l as [|possi l IH]; intros db O; simpl; [lia|].
  pose proof (unprovide_length c db possi O).
  pose proof (IH _ (tree.unprovide_ordered c db possi O)). lia.
Qed.

Lemma Remove_length (db : DB) p :
  ordered db -> (length (Remove db p) <= length db)%nat.
Proof.
  intros O. unfold Remove.
  pose proof (unprovide_all_length p (types.possibilities (types.Provides p))
                _ (database.Del_ordered db p O)).
  pose proof (btree.Delete_length types.less p db). lia.
Qed.

Lemma Remove_shorter (db : DB) p :
  ordered db -> In p db -> (length (Remove db p) < length db)%nat.
Proof.
  intros O Hp. unfold Remove.
  pose proof (unprovide_all_length p (types.possibilities (types.Provides p))
                _ (database.Del_ordered db p O)) as L1.
  pose proof (tree.Delete_length_Get p db) as L2.
  destruct (tree.Get_present db p O) as [e Ge].
  - exists p. split; [exact Hp|]. apply pkgorder.Compare_zero.
    apply database.same_refl.
  - rewrite Ge in L2. destruct db; [destruct Hp|]. simpl in *. lia.
Qed.

Lemma Remove_all_length l : forall db : DB,
  ordered db ->
  (length (fold_left (fun d x => Remove d x) l db) <= length db)%nat.
Proof.
  induction l as [|p l IH]; intros db O; simpl; [lia|].
  pose proof (Remove_length db p O).
  pose proof (IH _ (tree.Remove_ordered db p O)). lia.
Qed.

Lemma Remove_all_ordered l : forall db : DB,
  ordered db -> ordered (fold_left (fun d x => Remove d x) l db).
Proof.
  induction l as [|p l IH]; intros db O; simpl; [exact O|].
  apply IH. now apply tree.Remove_ordered.
Qed.

Lemma removeAll_lookup (candidateDB : loc) l (h : Heap) (db : DB) :
  h !! candidateDB = Some db ->
  resolver.removeAll candidateDB l h !! candidateDB
  = Some (fold_left (fun d x => Remove d x) l db).
Proof.
  intros E. unfold resolver.removeAll.
  exact (fold_update_lookup (fun pkg d => Remove d pkg) l candidateDB h db E).
Qed.

Lemma pruneUnsatisfied_scans (fuel : nat) (candidateDB : loc) (h : Heap)
    (db : DB) :
  h !! candidateDB = Some db -> ordered db -> (length db <= fuel)%nat ->
  snd (pruneUnsatisfied fuel candidateDB h) = true
  /\ (Len (deref (fst (pruneUnsatisfied fuel candidateDB h)) candidateDB)
      <= Len db)%nat.
Proof.
  revert h db. induction fuel as [|fuel IH]; intros h db E O L;
    rewrite resolver.pruneUnsatisfied_unfold; cbv zeta;
    rewrite (deref_lookup h candidateDB db E);
    pose proof (removeAll_lookup candidateDB (resolver.pruneListOf db)
                  h db E) as E';
    pose proof (Remove_all_length (resolver.pruneListOf db) db O) as L';
    destruct (length (resolver.pruneListOf db) =? 0)%nat eqn:Z; simpl.
  - rewrite (deref_lookup _ _ _ E'). split; [reflexivity|exact L'].
  - exfalso. destruct db; [discriminate Z|simpl in L; lia].
  - rewrite (deref_lookup _ _ _ E'). split; [reflexivity|exact L'].
  - destruct (resolver.pruneListOf db) as [|p l] eqn:P; [discriminate Z|].
    assert (Hp : In p db).
    { assert (X : In p (resolver.pruneListOf db)) by (rewrite P; now left).
      unfold resolver.pruneListOf in X. apply filter_In in X. apply X. }
    assert (Short : (length (fold_left (fun d x => Remove d x) (p :: l) db)
                     < length db)%nat).
    { simpl. pose proof (Remove_shorter db p O Hp).
      pose proof (Remove_all_length l _ (tree.Remove_ordered db p O)). lia. }
    destruct (IH _ _ E' (Remove_all_ordered (p :: l) db O)) as [B1 B2].
    + lia.
    + split; [exact B1|]. unfold Len in *. lia.
Qed.

(** Every scan of [pruneUnsatisfied] that does not end the loop leaves the
    database shorter, so the loop ends within as many further scans as the
    database has entries; the database is never longer afterwards. *)
Theorem pruneUnsatisfied_breaks (fuel : nat) (candidateDB : loc) (h : Heap)
    (db : DB) :
  h !! candidateDB = Some db -> ordered db -> (length db <= fuel)%nat ->
  snd (pruneUnsatisfied fuel candidateDB h) = true
  /\ (Len (deref (fst (pruneUnsatisfied fuel candidateDB h)) candidateDB)
      <= Len db)%nat.
Proof.
  apply pruneUnsatisfied_scans.
Qed.

(** *** Where the dependencies and the selection come from *)

Lemma resolvedPackages_from (pool candidates : DB) packageList q :
  In q (resolvedPackages pool candidates packageList) ->
  (forall x, In x packageList -> In x pool) -> In q pool.
Proof.
  unfold resolvedPackages. rewrite in_flat_map.
  intros (pkg & Hp & Hq) F.
  destruct (types.IsVirtual pkg).
  - destruct (resolveVirtualPackage pool candidates pkg) as [found|e] eqn:E;
      [|destruct Hq].
    destruct Hq as [<-|[]].
    apply virtuals.resolveVirtualPackage_In in E.
    now apply virtuals.virtualProviders_sound in E.
  - destruct Hq as [<-|[]]. now apply F.
Qed.

Lemma resolveRelation_from (pool candidates : DB) possis resolved :
  resolveRelation pool candidates possis = Ok (Some resolved) ->
  forall q, In q resolved -> In q pool.
Proof.
  induction possis as [|possi possis IH]; simpl; [discriminate|].
  destruct (packageListFor pool possi) as [packageList|e] eqn:E;
    [|discriminate].
  destruct (0 <? length (resolvedPackages pool candidates packageList))%nat.
  - intros [= <-] q Hq. apply (resolvedPackages_from _ _ _ _ Hq).
    intros x Hx. now apply (resolver.packageListFor_sound pool possi _ x E).
  - exact IH.
Qed.

Lemma dependenciesOf_from (pool candidates : DB) relations :
  forall dependencies result,
  dependenciesOf pool candidates relations dependencies = Ok result ->
  (forall d, In d dependencies -> In d pool) ->
  forall d, In d result -> In d pool.
Proof.
  induction relations as [|rel relations IH]; intros dependencies result;
    simpl.
  - intros [= <-] F. exact F.
  - destruct (resolveRelation pool candidates (dependency.Possibilities rel))
      as [[resolved|]|e] eqn:E; try discriminate.
    intros R F. apply (IH _ _ R). intros d Hd. apply in_app_iff in Hd.
    destruct Hd as [Hd|Hd]; [now apply F|].
    now apply (resolveRelation_from _ _ _ _ E).
Qed.

(** The dependencies that [getDependencies] returns are entries of the
    database it was given as the pool. *)
Theorem getDependencies_from_pool (packageDB candidateDB : DB)
    (pkg : Package) (dependencies : list Package) :
  getDependencies packageDB candidateDB pkg = Ok dependencies ->
  forall d, In d dependencies -> In d packageDB.
Proof.
  unfold getDependencies. intros E.
  apply (dependenciesOf_from _ _ _ _ _ E). intros d [].
Qed.

(** A database whose concrete packages are packages of the pool. *)
Definition within (pool db : DB) : Prop :=
  ordered db /\ forall x, In x db -> types.IsVirtual x = false -> In x pool.

(** The concrete packages of the pool have an architecture. *)
Definition archful (pool : DB) : Prop :=
  forall x, In x pool -> types.IsVirtual x = false ->
    arch.String (types.Architecture x) <> arch.String arch.zero.

Section Within.
Variable pool : DB.
Hypothesis pool_archful : archful pool.

Lemma found_virtual (db : DB) possi existing :
  within pool db ->
  btree.Get types.less (virtualFor possi) db = Some existing ->
  In existing db /\ types.IsVirtual existing = true.
Proof.
  intros [O W] G.
  apply (sorted.Get_Some_iff cmp pkgorder.cmp_total types.less
           pkgorder.less_cmp _ _ O) in G.
  destruct G as [Hin S]. split; [exact Hin|].
  destruct (types.IsVirtual existing) eqn:V; [reflexivity|].
  exfalso. apply (pool_archful existing (W existing Hin V) V).
  apply pkgorder.cmp_Eq_iff in S. apply S.
Qed.

Lemma RoI_within (db : DB) item :
  within pool db -> (types.IsVirtual item = false -> In item pool) ->
  within pool (btree.ReplaceOrInsert types.less item db).
Proof.
  intros [O W] I. split; [now apply database.RoI_ordered|].
  intros x Hx V. apply btree.ReplaceOrInsert_In in Hx.
  destruct Hx as [->|Hx]; auto.
Qed.

Lemma Del_within (db : DB) item :
  within pool db -> within pool (btree.Delete types.less item db).
Proof.
  intros [O W]. split; [now apply database.Del_ordered|].
  intros x Hx V. apply btree.Delete_incl in Hx. auto.
Qed.

Lemma provide_within p (db : DB) possi :
  within pool db -> within pool (provide p db possi).
Proof.
  intros T. unfold provide.
  destruct (btree.Get types.less (virtualFor possi) db) as [existing|] eqn:G.
  - destruct (found_virtual db possi existing T G) as [_ V].
    destruct (existsb _ _); [exact T|].
    apply RoI_within; [exact T|]. simpl. congruence.
  - destruct (existsb _ _); [exact T|].
    apply RoI_within; [exact T|]. simpl. discriminate.
Qed.

Lemma unprovide_within p (db : DB) possi :
  within pool db -> within pool (unprovide p db possi).
Proof.
  intros T. unfold unprovide.
  destruct (btree.Get types.less (virtualFor possi) db) as [existing|] eqn:G;
    [|exact T].
  destruct (found_virtual db possi existing T G) as [_ V].
  destruct (length _ =? 0)%nat; [now apply Del_within|].
  apply RoI_within; [exact T|]. simpl. congruence.
Qed.

Lemma fold_within {A} (f : DB -> A -> DB) (l : list A) (P : A -> Prop) :
  (forall db x, P x -> within pool db -> within pool (f db x)) ->
  (forall x, In x l -> P x) ->
  forall db, within pool db -> within pool (fold_left f l db).
Proof.
  intros F. induction l as [|x l IH]; intros Q db T; simpl; [exact T|].
  apply IH; [intros y Hy; apply Q; now right|].
  apply F; [apply Q; now left|exact T].
Qed.

Definition fromPool (p : Package) : Prop :=
  types.IsVirtual p = false -> In p pool.

Lemma Add_within (db : DB) p :
  fromPool p -> within pool db -> within pool (Add db p).
Proof.
  intros I T. unfold Add, addPackage.
  apply (fold_within _ _ (fun _ => True)); auto.
  - intros d possi _. apply provide_within.
  - now apply RoI_within.
Qed.

Lemma AddAll_within (db : DB) ps :
  (forall p, In p ps -> fromPool p) -> within pool db ->
  within pool (AddAll db ps).
Proof.
  intros I T. unfold AddAll.
  apply (fold_within _ _ fromPool); auto.
  intros d p Hp Td. now apply Add_within.
Qed.

Lemma Remove_within (db : DB) p : within pool db -> within pool (Remove db p).
Proof.
  intros T. unfold Remove.
  apply (fold_within _ _ (fun _ => True)); auto.
  - intros d possi _. apply unprovide_within.
  - now apply Del_within.
Qed.

Lemma selectPackage_within rq (sel : DB) c :
  fromPool c -> within pool sel -> within pool (selectPackage rq sel c).
Proof.
  intros I T. unfold selectPackage.
  assert (B : within pool
                match Get sel (types.Name c) with
                | existing0 :: _ =>
                    if 0 <? version.Compare (types.Version c)
                                            (types.Version existing0)
                    then Add (Remove sel existing0) c
                    else sel
                | [] => Add sel c
                end).
  { destruct (Get sel (types.Name c)) as [|existing0 rest];
      [now apply Add_within|].
    destruct (0 <? _); [|exact T].
    apply Add_within; [exact I|]. now apply Remove_within. }
  destruct (rq !! types.Name c) as [[pv|]|]; [|exact B|exact B].
  destruct (_ =? 0); [now apply Add_within|exact T].
Qed.

(** The state of the heap during a call: the pool is where the resolver
    has it, and the database at [db] is within the pool. *)
Definition kept (r : Resolver) (db : loc) (h : Heap) : Prop :=
  packageDB r <> db
  /\ deref h (packageDB r) = pool
  /\ exists d, h !! db = Some d /\ within pool d.

Lemma update_kept r db (f : DB -> DB) (h : Heap) :
  (forall d, within pool d -> within pool (f d)) ->
  kept r db h -> kept r db (update db f h).
Proof.
  intros F (Ne & E & d & L & T). split; [exact Ne|]. split.
  - rewrite <- E. unfold deref. f_equal.
    apply (proj2 (resolver.update_onlyAt db f h)). exact Ne.
  - exists (f d). split; [|now apply F].
    unfold update, packages.Heap, loc, PackageDB in *.
    rewrite list_lookup_alter, L.
    destruct (decide (db = db)); [reflexivity|congruence].
Qed.

Lemma seed_kept r db reqs : forall rq (h : Heap),
  kept r db h -> kept r db (fst (seed r db reqs rq h)).
Proof.
  induction reqs as [|s reqs IH]; intros rq h K; simpl; [exact K|].
  destruct (parseRequest s) as [[name [v|]]|e]; simpl; [| |exact K].
  - destruct (ExactlyEqual (deref h (packageDB r)) name v) as [pkg|] eqn:E;
      simpl; [|exact K].
    apply IH. apply update_kept; [|exact K].
    intros d. apply Add_within. intros _.
    apply lookup.ExactlyEqual_sound in E.
    destruct K as (_ & <- & _). apply E.
  - destruct (length _ =? 0)%nat; simpl; [exact K|].
    apply IH. apply update_kept; [|exact K].
    intros d. apply AddAll_within. intros p Hp _.
    apply lookup.Get_sound in Hp. destruct K as (_ & <- & _). apply Hp.
Qed.

Lemma expand_kept fuel r db : forall queue visited (h : Heap),
  kept r db h -> kept r db (fst (expand fuel r db queue visited h)).
Proof.
  induction fuel as [|fuel IH]; intros queue visited h K.
  - destruct queue; exact K.
  - destruct queue as [|pkg queue]; [exact K|]. simpl.
    destruct (isVisited visited (types.ID pkg)); [now apply IH|].
    destruct (getDependencies _ _ pkg) as [deps|e] eqn:E; [|exact K].
    apply IH. apply update_kept; [|exact K].
    intros d. apply AddAll_within. intros p Hp _.
    apply filter_In in Hp. destruct Hp as [Hp _].
    apply (getDependencies_from_pool _ _ _ _ E) in Hp.
    destruct K as (_ & <- & _). exact Hp.
Qed.

Lemma fold_update_kept {A} r db (f : A -> DB -> DB) (l : list A) :
  (forall x d, In x l -> within pool d -> within pool (f x d)) ->
  forall h : Heap, kept r db h ->
  kept r db (fold_left (fun h x => update db (f x) h) l h).
Proof.
  induction l as [|x l IH]; intros F h K; simpl; [exact K|].
  apply IH; [intros y d Hy; apply F; now right|].
  apply update_kept; [|exact K]. intros d. apply F. now left.
Qed.

Lemma pruneUnsatisfied_kept fuel r db : forall h : Heap,
  kept r db h -> kept r db (fst (pruneUnsatisfied fuel db h)).
Proof.
  induction fuel as [|fuel IH]; intros h K;
    rewrite resolver.pruneUnsatisfied_unfold; cbv zeta;
    assert (K' : kept r db
                   (resolver.removeAll db
                      (resolver.pruneListOf (deref h db)) h))
      by (apply (fold_update_kept r db (fun pkg d => Remove d pkg));
          [intros x d _; apply Remove_within|exact K]);
    destruct (length _ =? 0)%nat; simpl; auto.
Qed.

Lemma alloc_kept r (h : Heap) :
  (packageDB r < length h)%nat -> deref h (packageDB r) = pool ->
  kept r (length h) (h ++ [NewPackageDB]).
Proof.
  intros L E. split; [lia|]. split.
  - rewrite <- E. unfold deref. f_equal. now apply lookup_app_l.
  - exists NewPackageDB. split.
    + unfold packages.Heap, loc, PackageDB in *.
      rewrite lookup_app_r by lia. now rewrite Nat.sub_diag.
    + split; [constructor|intros x []].
Qed.

End Within.

(** The database that [Resolve] returns is within the pool. *)
Lemma Resolve_within (fuel : nat) (r : Resolver)
    (packageNameVersions : list string) (h h' : Heap) (selectedDB : loc) :
  (packageDB r < length h)%nat ->
  archful (deref h (packageDB r)) ->
  Resolve fuel r packageNameVersions h = (h', Done selectedDB) ->
  within (deref h (packageDB r)) (deref h' selectedDB).
Proof.
  intros L A. set (pool := deref h (packageDB r)) in *.
  unfold Resolve, alloc. cbv iota beta.
  pose proof (alloc_kept pool r h L eq_refl) as K0.
  pose proof (seed_kept pool A r (length h) packageNameVersions ∅ _ K0) as K1.
  destruct (seed r _ packageNameVersions ∅ _) as [h1 [requested|e]];
    [|discriminate].
  cbn [fst] in K1.
  pose proof (expand_kept pool A fuel r (length h)
                (ForEach (deref h1 (length h))) ∅ h1 K1) as K2.
  destruct (expand fuel r _ _ ∅ h1) as [h2 [[]|e|]]; try discriminate.
  cbn [fst] in K2.
  pose proof (pruneUnsatisfied_kept pool A fuel r (length h) h2 K2) as K3.
  destruct (pruneUnsatisfied fuel (length h) h2) as [h3 [|]]; [|discriminate].
  cbn [fst] in K3.
  assert (L3 : (packageDB r < length h3)%nat).
  { destruct K3 as (_ & _ & d & E & _). apply lookup_lt_Some in E. lia. }
  pose proof (alloc_kept pool r h3 L3 (proj1 (proj2 K3))) as K4.
  assert (C4 : forall x, In x (ForEach (deref (h3 ++ [NewPackageDB])
                                              (length h)))
                 -> fromPool pool x).
  { destruct K3 as (_ & _ & d & E & T). intros x Hx V.
    unfold ForEach, btree.Ascend, deref in Hx.
    unfold packages.Heap, loc, PackageDB in *.
    rewrite lookup_app_l in Hx by (now apply lookup_lt_Some in E).
    rewrite E in Hx. simpl in Hx. now apply (proj2 T). }
  pose proof (fold_update_kept pool r (length h3)
                (fun pkg d => selectPackage requested d pkg)
                (ForEach (deref (h3 ++ [NewPackageDB]) (length h)))
                (fun x d Hx T => selectPackage_within pool A requested d x
                                   (C4 x Hx) T)
                _ K4) as K5.
  fold (selectNewest requested (length h) (length h3) (h3 ++ [NewPackageDB]))
    in K5.
  pose proof (pruneUnsatisfied_kept pool A fuel r (length h3) _ K5) as K6.
  destruct (pruneUnsatisfied fuel (length h3) _) as [h6 [|]]; [|discriminate].
  cbn [fst] in K6.
  destruct (confirmRequested requested _); [|discriminate].
  intros [= <- <-].
  destruct K6 as (_ & _ & d & E & T).
  now rewrite (deref_lookup _ _ _ E).
Qed.

(** The concrete packages of the database that [Resolve] returns are
    packages of the pool, when the concrete packages of the pool have an
    architecture. *)
Theorem Resolve_selects_from_pool (fuel : nat) (r : Resolver)
    (packageNameVersions : list string) (h h' : Heap) (selectedDB : loc) :
  (packageDB r < length h)%nat ->
  archful (deref h (packageDB r)) ->
  Resolve fuel r packageNameVersions h = (h', Done selectedDB) ->
  forall x, In x (deref h' selectedDB) -> types.IsVirtual x = false ->
    In x (deref h (packageDB r)).
Proof.
  intros L A R.
  exact (proj2 (Resolve_within fuel r packageNameVersions h h' selectedDB
                  L A R)).
Qed.

(** *** The requests *)

(** The request names a package of the pool: by name, or by name and
    version. *)
Definition located (pool : DB) (packageNameVersion : string) : Prop :=
  exists name,
    (parseRequest packageNameVersion = Ok (name, None)
     /\ Get pool name <> [])
    \/ (exists v pkg,
          parseRequest packageNameVersion = Ok (name, Some v)
          /\ ExactlyEqual pool name v = Some pkg).

(** [requestedPackages] after the requests. *)
Definition recorded (packageNameVersions : list string)
    (requestedPackages : gmap string (option Ver))
  : gmap string (option Ver) :=
  fold_left
    (fun m packageNameVersion =>
       match parseRequest packageNameVersion with
       | Ok (name, packageVersion) => <[name := packageVersion]> m
       | Err _ => m
       end)
    packageNameVersions requestedPackages.

Lemma seed_recorded r db reqs : forall rq (h h' : Heap) rq',
  seed r db reqs rq h = (h', Ok rq') -> rq' = recorded reqs rq.
Proof.
  induction reqs as [|s reqs IH]; intros rq h h' rq'; simpl.
  - now intros [= _ <-].
  - destruct (parseRequest s) as [[name [v|]]|e]; [| |discriminate].
    + destruct (ExactlyEqual _ name v); [apply IH|discriminate].
    + destruct (length _ =? 0)%nat; [discriminate|apply IH].
Qed.

Lemma recorded_last pre s post name pin (rq : gmap string (option Ver)) :
  parseRequest s = Ok (name, pin) ->
  (forall s' name' pin', In s' post -> parseRequest s' = Ok (name', pin') ->
     name' <> name) ->
  recorded (pre ++ s :: post) rq !! name = Some pin.
Proof.
  intros P F. unfold recorded. rewrite fold_left_app. simpl. rewrite P.
  fold (recorded pre rq).
  assert (X : forall m : gmap string (option Ver),
            m !! name = Some pin ->
            fold_left
              (fun m packageNameVersion =>
                 match parseRequest packageNameVersion with
                 | Ok (name, packageVersion) => <[name := packageVersion]> m
                 | Err _ => m
                 end) post m !! name = Some pin).
  { clear P. induction post as [|s' post IH]; intros m E; simpl; [exact E|].
    apply IH; [intros s'' n' p' Hs; apply F; now right|].
    destruct (parseRequest s') as [[name' pin']|e] eqn:P'; [|exact E].
    rewrite lookup_insert_ne; [exact E|].
    apply (F s' name' pin'); [now left|exact P']. }
  apply X. apply lookup_insert_eq.
Qed.

Lemma confirmRequested_met (rq : gmap string (option Ver)) (sel : DB) :
  confirmRequested rq sel = Ok tt ->
  forall name pin, rq !! name = Some pin -> isSelected sel name pin = true.
Proof.
  unfold confirmRequested.
  destruct (List.find _ (map_to_list rq)) as [[n p]|] eqn:F; [discriminate|].
  intros _ name pin E.
  assert (X : In (name, pin) (map_to_list rq)).
  { apply list_elem_of_In, elem_of_map_to_list. exact E. }
  apply (List.find_none _ _ F) in X. simpl in X.
  now apply negb_false_iff in X.
Qed.

(** When [Resolve] returns a database, the last request for each name is
    met in it: its version is found there when it has one, and an entry of
    its name otherwise, whatever the requests before it for that name
    were. *)
Theorem Resolve_meets_last_request (fuel : nat) (r : Resolver)
    (pre : list string) (packageNameVersion : string) (post : list string)
    (h h' : Heap) (selectedDB : loc) (name : string) (pin : option Ver) :
  Resolve fuel r (pre ++ packageNameVersion :: post) h
  = (h', Done selectedDB) ->
  parseRequest packageNameVersion = Ok (name, pin) ->
  (forall s' name' pin', In s' post -> parseRequest s' = Ok (name', pin') ->
     name' <> name) ->
  match pin with
  | Some v => exists pkg, ExactlyEqual (deref h' selectedDB) name v = Some pkg
  | None => Get (deref h' selectedDB) name <> []
  end.
Proof.
  unfold Resolve, alloc. cbv iota beta.
  destruct (seed r _ _ ∅ _) as [h1 [requested|e]] eqn:S; [|discriminate].
  apply seed_recorded in S.
  destruct (expand fuel r _ _ ∅ h1) as [h2 [[]|e|]]; try discriminate.
  destruct (pruneUnsatisfied fuel (length h) h2) as [h3 [|]]; [|discriminate].
  destruct (pruneUnsatisfied fuel (length h3) _) as [h6 [|]]; [|discriminate].
  destruct (confirmRequested requested _) as [[]|e] eqn:C; [|discriminate].
  intros [= <- <-] P F.
  pose proof (confirmRequested_met _ _ C name pin) as M.
  rewrite S in M. specialize (M (recorded_last pre _ post name pin ∅ P F)).
  unfold isSelected in M. destruct pin as [v|].
  - destruct (ExactlyEqual _ name v) as [pkg|]; [now exists pkg|discriminate].
  - intros E. rewrite E in M. discriminate.
Qed.

(** The pool is not touched while the candidates are seeded. *)
Lemma seed_located r db pre rest : forall rq (h : Heap),
  packageDB r <> db ->
  Forall (located (deref h (packageDB r))) pre ->
  exists h1,
    seed r db (pre ++ rest) rq h = seed r db rest (recorded pre rq) h1
    /\ deref h1 (packageDB r) = deref h (packageDB r).
Proof.
  induction pre as [|s pre IH]; intros rq h Ne F; simpl.
  - exists h. auto.
  - apply Forall_cons_iff in F. destruct F as [Ls F].
    assert (U : forall f, deref (update db f h) (packageDB r)
                          = deref h (packageDB r)).
    { intros f. unfold deref. f_equal.
      apply (proj2 (resolver.update_onlyAt db f h)). exact Ne. }
    destruct Ls as (name & [[P G]|(v & pkg & P & E)]); rewrite P.
    + destruct (length (Get (deref h (packageDB r)) name) =? 0)%nat eqn:Z.
      * apply Nat.eqb_eq, length_zero_iff_nil in Z. contradiction.
      * destruct (IH (<[name := None]> rq)
                     (update db (fun d => AddAll d
                        (Get (deref h (packageDB r)) name)) h) Ne)
          as (h1 & E1 & D1).
        { now rewrite U. }
        exists h1. split; [exact E1|]. now rewrite D1, U.
    + rewrite E.
      destruct (IH (<[name := Some v]> rq)
                   (update db (fun d => Add d pkg) h) Ne)
        as (h1 & E1 & D1).
      { now rewrite U. }
      exists h1. split; [exact E1|]. now rewrite D1, U.
Qed.

(** [Resolve] fails at the first request that names no package of the pool,
    with the error that names the request, and at the first request whose
    version does not parse, with the error of the parse; the requests that
    follow it, and the bound of the loops, do not matter. *)
Theorem Resolve_fails_at_request (fuel : nat) (r : Resolver)
    (pre : list string) (packageNameVersion : string) (post : list string)
    (h : Heap) :
  (packageDB r < length h)%nat ->
  Forall (located (deref h (packageDB r))) pre ->
  let result :=
    snd (Resolve fuel r (pre ++ packageNameVersion :: post) h) in
  (forall name, parseRequest packageNameVersion = Ok (name, None) ->
     Get (deref h (packageDB r)) name = [] ->
     result = Failed (UnableToLocate packageNameVersion))
  /\ (forall name v, parseRequest packageNameVersion = Ok (name, Some v) ->
        ExactlyEqual (deref h (packageDB r)) name v = None ->
        result = Failed (UnableToLocate packageNameVersion))
  /\ (forall e, parseRequest packageNameVersion = Err e ->
        result = Failed e).
Proof.
  intros L F result. unfold result, Resolve, alloc. cbv iota beta.
  assert (D0 : deref (h ++ [NewPackageDB]) (packageDB r)
               = deref h (packageDB r)).
  { unfold deref. f_equal. now apply lookup_app_l. }
  destruct (seed_located r (length h) pre (packageNameVersion :: post) ∅
              (h ++ [NewPackageDB])) as (h1 & E1 & D1); [lia|now rewrite D0|].
  rewrite E1. simpl. rewrite D1, D0.
  split; [|split].
  - intros name P G. rewrite P, G. reflexivity.
  - intros name v P E. rewrite P, E. reflexivity.
  - intros e P. rewrite P. reflexivity.
Qed.

(** With nothing requested, [Resolve] returns a new, empty database. *)
Theorem Resolve_nothing (fuel : nat) (r : Resolver) (h : Heap) :
  Resolve fuel r [] h
  = (h ++ [NewPackageDB; NewPackageDB], Done (S (length h))).
Proof.
  unfold Resolve, alloc. cbv iota beta. cbn [seed].
  assert (D : deref (h ++ [NewPackageDB]) (length h) = NewPackageDB).
  { unfold deref, packages.Heap, loc, PackageDB in *.
    rewrite lookup_app_r by lia. now rewrite Nat.sub_diag. }
  rewrite D. unfold ForEach, btree.Ascend, NewPackageDB at 1.
  assert (E : forall q v (g : Heap), expand fuel r q [] v g = (g, Done tt))
    by (intros; destruct fuel; reflexivity).
  rewrite E.
  assert (P : forall db (g : Heap), deref g db = [] ->
            pruneUnsatisfied fuel db g = (g, true)).
  { intros db g Dg. rewrite resolver.pruneUnsatisfied_unfold. cbv zeta.
    rewrite Dg. destruct fuel; reflexivity. }
  rewrite (P _ _ D).
  assert (L : length (h ++ [NewPackageDB]) = S (length h))
    by (rewrite length_app; simpl; lia).
  rewrite L. unfold selectNewest.
  assert (D3 : deref ((h ++ [NewPackageDB]) ++ [NewPackageDB]) (length h)
               = NewPackageDB).
  { transitivity (deref (h ++ [NewPackageDB]) (length h)); [|exact D].
    unfold deref, packages.Heap, loc, PackageDB. f_equal.
    apply lookup_app_l. rewrite length_app. simpl. lia. }
  rewrite D3. cbn [fold_left ForEach btree.Ascend NewPackageDB].
  assert (D2 : deref ((h ++ [NewPackageDB]) ++ [NewPackageDB]) (S (length h))
               = NewPackageDB).
  { unfold deref, packages.Heap, loc, PackageDB in *.
    rewrite lookup_app_r by (rewrite length_app; simpl; lia).
    rewrite length_app. simpl.
    replace (S (length h) - (length h + 1))%nat with 0%nat by lia.
    reflexivity. }
  rewrite (P _ _ D2), D2. unfold confirmRequested.
  rewrite map_to_list_empty. simpl. now rewrite <- app_assoc.
Qed.

End Loops.
End loops.

(** ** What a component accepts, and what its table holds *)

Module integrity.
Section Integrity.
Context {Ver Arc : Type} `{version.Ops Ver} `{arch.Ops Arc}.
Context (Join : list string -> string) (URLString : source.URL -> string).
Context (httpGet : string -> source.Response)
        (gzipNewReader xzNewReader : list byte -> option (list byte))
        (decodePackages : list byte -> source.Decoding (Ver := Ver) (Arc := Arc))
        (sha256 : list byte -> list byte).
Import source.

Abbreviation attempt :=
  (source.attempt Join URLString httpGet gzipNewReader xzNewReader decodePackages sha256).
Abbreviation Packages :=
  (source.Packages Join URLString httpGet gzipNewReader xzNewReader decodePackages
     sha256).

(** The URL that [Packages] asks for a candidate name. *)
Definition packagesURL (c : Component (Arc := Arc)) (name : string) : string :=
  URLString (withPath (ComponentURL c) (Join [Path (ComponentURL c); name])).

Lemma bytesEqual_eq (a : list byte) : forall b,
  util.bytesEqual a b = true <-> a = b.
Proof.
  induction a as [|x a IH]; intros [|y b]; simpl;
    try (split; [discriminate|discriminate]); [tauto|].
  rewrite andb_true_iff, IH. split.
  - intros [E ->]. apply byte_dec_bl in E. now subst.
  - intros [= -> ->]. split; [now apply byte_dec_lb|reflexivity].
Qed.

Lemma attempt_accepts (c : Component (Arc := Arc)) name packageList :
  attempt c name = inr packageList ->
  exists status body,
    httpGet (packagesURL c name) = Responded 200 status body
    /\ (8 <= length body)%nat
    /\ sha256 body = statedSum c name.
Proof.
  intros A.
  apply (component.attempt_success Join URLString httpGet gzipNewReader xzNewReader
           decodePackages sha256) in A.
  destruct A as (status & body & dr & G & D & _ & V).
  exists status, body. split; [exact G|]. split.
  - rewrite decompress.Decompress_unfold in D.
    destruct (length body <? 8)%nat eqn:L; [discriminate|].
    now apply Nat.ltb_ge in L.
  - unfold util.Verify in V. now apply bytesEqual_eq in V.
Qed.


End Integrity.
End integrity.

Module sums.
Import source.

(** Every entry of the table of a component comes from a path of the
    Release file that begins with the text of the directory; and a path that
    begins with that text without lying under the directory (as
    [main/binary-mipsel/...] does for [main/binary-mips]) is carried into
    the table under its whole name. *)
Theorem componentSums_entries (dir : string)
    (releaseSHA256Sums : gmap string (list byte)) :
  (forall k sum,
     componentSums dir releaseSHA256Sums !! k = Some sum ->
     exists filename,
       releaseSHA256Sums !! filename = Some sum
       /\ strings.HasPrefix filename dir = true
       /\ strings.TrimPrefix filename (dir ++ "/") = k)
  /\ (forall k,
        strings.HasPrefix k dir = true ->
        strings.HasPrefix k (dir ++ "/") = false ->
        releaseSHA256Sums !! (dir ++ "/" ++ k)%string = None ->
        componentSums dir releaseSHA256Sums !! k = releaseSHA256Sums !! k).
Proof.
  unfold componentSums.
  apply (map_fold_weak_ind
           (fun (r : gmap string (list byte)) (m : gmap string (list byte)) =>
              (forall k sum, r !! k = Some sum ->
                 exists filename,
                   m !! filename = Some sum
                   /\ strings.HasPrefix filename dir = true
                   /\ strings.TrimPrefix filename (dir ++ "/") = k)
              /\ (forall k,
                    strings.HasPrefix k dir = true ->
                    strings.HasPrefix k (dir ++ "/") = false ->
                    m !! (dir ++ "/" ++ k)%string = None ->
                    r !! k = m !! k))).
  - split; [intros k sum E; now rewrite lookup_empty in E|].
    intros k _ _ _. now rewrite !lookup_empty.
  - intros filename sum m r N [IH1 IH2].
    assert (Keep : forall k s, (exists f, m !! f = Some s
                    /\ strings.HasPrefix f dir = true
                    /\ strings.TrimPrefix f (dir ++ "/") = k) ->
                  exists f, <[filename := sum]> m !! f = Some s
                    /\ strings.HasPrefix f dir = true
                    /\ strings.TrimPrefix f (dir ++ "/") = k).
    { intros k s (f & Ef & Pf & Tf). exists f. split; [|auto].
      rewrite lookup_insert_ne; [exact Ef|]. intros ->. congruence. }
    destruct (strings.HasPrefix filename dir) eqn:P.
    + split.
      * intros k s E.
        destruct (String.eqb_spec (strings.TrimPrefix filename (dir ++ "/")) k)
          as [Ek|Nk].
        -- rewrite Ek, lookup_insert_eq in E. injection E as <-.
           exists filename. split; [apply lookup_insert_eq|auto].
        -- rewrite lookup_insert_ne in E by exact Nk. apply Keep. now apply IH1.
      * intros k Pk Sk Nd.
        assert (Nd' : m !! (dir ++ "/" ++ k)%string = None).
        { destruct (String.eqb_spec filename (dir ++ "/" ++ k)%string)
            as [->|Ne]; [now rewrite lookup_insert_eq in Nd|].
          now rewrite lookup_insert_ne in Nd by exact Ne. }
        destruct (String.eqb_spec filename k) as [->|Ne].
        -- unfold strings.TrimPrefix, strings.HasPrefix in *.
           destruct (strings.CutPrefix k (dir ++ "/")); [discriminate Sk|].
           now rewrite !lookup_insert_eq.
        -- rewrite (lookup_insert_ne m filename k sum Ne).
           rewrite lookup_insert_ne; [now apply IH2|].
           unfold strings.TrimPrefix.
           destruct (strings.CutPrefix filename (dir ++ "/")) as [rest|] eqn:C;
             [|exact Ne].
           intros ->. apply components.CutPrefix_Some in C.
           rewrite components.string_app_assoc in C. subst filename.
           now rewrite lookup_insert_eq in Nd.
    + split.
      * intros k s E. apply Keep. now apply IH1.
      * intros k Pk Sk Nd.
        assert (Ne : filename <> k) by (intros ->; congruence).
        rewrite (lookup_insert_ne m filename k sum Ne). apply IH2; auto.
        destruct (String.eqb_spec filename (dir ++ "/" ++ k)%string)
          as [->|Ne']; [now rewrite lookup_insert_eq in Nd|].
        now rewrite lookup_insert_ne in Nd by exact Ne'.
Qed.

End sums.

(** ** Operations that change nothing *)

Module again.
Section Again.
Context {Ver Arc : Type} `{VL : version.Laws Ver} `{AP : arch.Plain Arc}.
Import packages.

Abbreviation Package := (types.Package Ver Arc).
Abbreviation Possibility := (dependency.Possibility Ver).
Abbreviation DB := (PackageDB Ver Arc).
Abbreviation cmp := (pkgorder.cmp (Ver := Ver) (Arc := Arc)).
Abbreviation ordered := (sorted.ordered cmp).
Abbreviation same := (database.same (Ver := Ver) (Arc := Arc)).

(** Writing an entry of the tree over itself. *)
Lemma RoI_same (t : DB) x :
  ordered t -> In x t -> btree.ReplaceOrInsert types.less x t = t.
Proof.
  induction 1 as [|a t O IH F]; intros Hx; [destruct Hx|]. simpl.
  rewrite List.Forall_forall in F.
  destruct (types.less a x) eqn:L1.
  - destruct Hx as [->|Hx]; [now rewrite tree.less_irrefl in L1|].
    now rewrite (IH Hx).
  - destruct Hx as [->|Hx].
    + now rewrite L1.
    + specialize (F x Hx). apply pkgorder.less_cmp in F. congruence.
Qed.

Lemma withProviders_same (e : Package) :
  types.withProviders e (types.Providers e) = e.
Proof. now destruct e. Qed.

Lemma filter_all {A} (f : A -> bool) (l : list A) :
  (forall x, In x l -> f x = true) -> List.filter f l = l.
Proof.
  induction l as [|a l IH]; intros F; simpl; [reflexivity|].
  rewrite (F a (or_introl eq_refl)), IH; [reflexivity|].
  intros x Hx. apply F. now right.
Qed.

(** *** Removing a package that is not there *)

Lemma unprovide_absent p (db : DB) possi :
  database.Inv db -> (forall x, In x db -> ~ same x p) ->
  unprovide p db possi = db.
Proof.
  intros I F. unfold unprovide.
  destruct (btree.Get types.less (virtualFor possi) db) as [existing|] eqn:G;
    [|reflexivity].
  destruct (database.Get_virtual db possi existing (database.i_ordered db I)
              (database.i_kinds db I) G) as (He & _ & (V & _ & Ne)).
  rewrite filter_all.
  - rewrite withProviders_same.
    destruct (types.Providers existing) as [|q ps]; [congruence|]. simpl.
    apply RoI_same; [apply I|exact He].
  - intros q Hq. apply negb_true_iff.
    destruct (types.Compare q p =? 0) eqn:E; [|reflexivity].
    exfalso. apply pkgorder.Compare_eqb in E.
    apply (database.i_providers db I existing He V) in Hq.
    now apply (F q (proj1 Hq)).
Qed.

(** On a database that admissible operations built, [Remove] of a package
    changes nothing when no entry of the database has its identity. *)
Theorem Remove_absent (ops : list (database.Op Ver Arc)) (p : Package) :
  database.wellFormed NewPackageDB ops ->
  (forall x, In x (database.run ops) -> types.Compare x p <> 0) ->
  Remove (database.run ops) p = database.run ops.
Proof.
  intros W F. pose proof (database.run_Inv ops W) as I.
  set (db := database.run ops) in *.
  assert (F' : forall x, In x db -> ~ same x p).
  { intros x Hx S. apply (F x Hx). now apply pkgorder.Compare_zero. }
  unfold Remove. rewrite tree.Delete_absent by exact F'.
  induction (types.possibilities (types.Provides p)) as [|possi l IH];
    simpl; [reflexivity|].
  now rewrite (unprovide_absent p db possi I F').
Qed.

(** *** Adding a package again *)

(** The virtual entry of the possibility lists the package. *)
Definition listed (p : Package) (db : DB) (possi : Possibility) : Prop :=
  exists e,
    btree.Get types.less (virtualFor possi) db = Some e
    /\ existsb (fun provider => types.Compare provider p =? 0)
               (types.Providers e) = true.

Lemma provide_listed p (db : DB) possi : listed p db possi ->
  provide p db possi = db.
Proof.
  intros (e & G & X). unfold provide. now rewrite G, X.
Qed.

Lemma Get_RoI_other (db : DB) item key :
  ordered db -> ~ same key item ->
  btree.Get types.less key (btree.ReplaceOrInsert types.less item db)
  = btree.Get types.less key db.
Proof.
  intros O NS.
  pose proof (database.RoI_ordered db item O) as O'.
  destruct (btree.Get types.less key db) as [e|] eqn:G.
  - apply (sorted.Get_Some_iff cmp pkgorder.cmp_total types.less
             pkgorder.less_cmp _ _ O) in G. destruct G as [He S].
    apply (sorted.Get_Some_iff cmp pkgorder.cmp_total types.less
             pkgorder.less_cmp _ _ O').
    split; [|exact S]. apply (database.RoI_In db item O). right.
    split; [exact He|]. intros S'. apply NS.
    apply (database.same_trans _ e); [now apply database.same_sym|exact S'].
  - apply (sorted.Get_None_iff cmp pkgorder.cmp_total types.less
             pkgorder.less_cmp _ _ O').
    pose proof (proj1 (sorted.Get_None_iff cmp pkgorder.cmp_total types.less
                         pkgorder.less_cmp _ _ O) G) as N.
    intros x Hx S. apply (database.RoI_In db item O) in Hx.
    destruct Hx as [->|[Hx _]]; [|now apply (N x Hx)].
    apply NS. now apply database.same_sym.
Qed.

Lemma Get_RoI_same (db : DB) item key :
  ordered db -> same key item ->
  btree.Get types.less key (btree.ReplaceOrInsert types.less item db)
  = Some item.
Proof.
  intros O S.
  apply (sorted.Get_Some_iff cmp pkgorder.cmp_total types.less
           pkgorder.less_cmp _ _ (database.RoI_ordered db item O)).
  split; [|now apply database.same_sym].
  apply (database.RoI_In db item O). now left.
Qed.

Lemma existsb_app_r {A} (f : A -> bool) l x :
  f x = true -> existsb f (l ++ [x]) = true.
Proof.
  intros E. rewrite existsb_app. simpl. rewrite E.
  apply orb_true_r.
Qed.

(** A turn of the loop of [addPackage] lists the package under its
    possibility, and leaves it listed where it was. *)
Lemma provide_lists p (db : DB) possi :
  ordered db ->
  listed p (provide p db possi) possi
  /\ forall possi', listed p db possi' -> listed p (provide p db possi) possi'.
Proof.
  intros O.
  assert (Rp : (types.Compare p p =? 0) = true)
    by (apply pkgorder.Compare_eqb, database.same_refl).
  unfold provide.
  destruct (btree.Get types.less (virtualFor possi) db) as [existing|] eqn:G.
  - pose proof G as G0.
    apply (sorted.Get_Some_iff cmp pkgorder.cmp_total types.less
             pkgorder.less_cmp _ _ O) in G0. destruct G0 as [He S].
    destruct (existsb _ (types.Providers existing)) eqn:X.
    + split; [exists existing; auto|auto].
    + set (new := types.withProviders existing
                    (types.Providers existing ++ [p])).
      assert (Sn : same (virtualFor possi) new).
      { apply database.same_sym.
        apply (database.same_trans _ existing);
          [apply database.same_withProviders|exact S]. }
      split.
      * exists new. split; [now apply Get_RoI_same|].
        simpl. now apply existsb_app_r.
      * intros possi' (e & Ge & Xe).
        destruct (database.same_dec (virtualFor possi') new) as [S'|NS'].
        -- exists new. split; [now apply Get_RoI_same|].
           simpl. now apply existsb_app_r.
        -- exists e. split; [|exact Xe].
           now rewrite Get_RoI_other.
  - cbn [existsb types.Providers virtualFor types.keyOf app].
    set (new := types.withProviders (virtualFor possi) [p]).
    assert (Sn : same (virtualFor possi) new)
      by apply database.same_sym, database.same_withProviders.
    split.
    + exists new. split; [now apply Get_RoI_same|]. simpl. now rewrite Rp.
    + intros possi' (e & Ge & Xe).
      destruct (database.same_dec (virtualFor possi') new) as [S'|NS'].
      * exists new. split; [now apply Get_RoI_same|]. simpl. now rewrite Rp.
      * exists e. split; [|exact Xe]. now rewrite Get_RoI_other.
Qed.

Lemma provide_all_lists p l : forall db : DB,
  ordered db ->
  forall possi, In possi l \/ listed p db possi ->
    listed p (fold_left (provide p) l db) possi.
Proof.
  induction l as [|a l IH]; intros db O possi; simpl.
  - intros [[]|X]. exact X.
  - destruct (provide_lists p db a O) as [L1 L2].
    intros [[<-|Hp]|X]; apply IH; auto using tree.provide_ordered.
Qed.

Lemma provide_all_listed p l : forall db : DB,
  (forall possi, In possi l -> listed p db possi) ->
  fold_left (provide p) l db = db.
Proof.
  induction l as [|a l IH]; intros db F; simpl; [reflexivity|].
  rewrite (provide_listed p db a (F a (or_introl eq_refl))).
  apply IH. intros possi Hp. apply F. now right.
Qed.

Lemma provide_keeps p (db : DB) possi x :
  ordered db -> In x db ->
  arch.String (types.Architecture x) <> arch.String arch.zero ->
  In x (provide p db possi).
Proof.
  intros O Hx A. unfold provide.
  destruct (existsb _ _); [exact Hx|].
  apply (database.RoI_In db _ O). right. split; [exact Hx|].
  intros S. apply A. apply pkgorder.cmp_Eq_iff in S.
  destruct S as (_ & _ & S). rewrite S. simpl.
  destruct (btree.Get types.less (virtualFor possi) db) as [existing|] eqn:G;
    [|reflexivity].
  apply (sorted.Get_Some_iff cmp pkgorder.cmp_total types.less
           pkgorder.less_cmp _ _ O) in G. destruct G as [_ G].
  apply pkgorder.cmp_Eq_iff in G. apply G.
Qed.

Lemma provide_all_keeps p l x : forall db : DB,
  ordered db -> In x db ->
  arch.String (types.Architecture x) <> arch.String arch.zero ->
  In x (fold_left (provide p) l db).
Proof.
  induction l as [|a l IH]; intros db O Hx A; simpl; [exact Hx|].
  apply IH; [now apply tree.provide_ordered| |exact A].
  now apply provide_keeps.
Qed.

(** On a database that operations built, adding a package that has an
    architecture a second time changes nothing. *)
Theorem Add_again (ops : list (database.Op Ver Arc)) (p : Package) :
  arch.String (types.Architecture p) <> arch.String arch.zero ->
  Add (Add (database.run ops) p) p = Add (database.run ops) p.
Proof.
  intros A. pose proof (tree.run_ordered ops) as O.
  set (db := database.run ops) in *.
  assert (O1 : ordered (Add db p)) by now apply tree.Add_ordered.
  assert (Hp : In p (Add db p)).
  { unfold Add, addPackage. apply provide_all_keeps; [| |exact A].
    - now apply database.RoI_ordered.
    - apply (database.RoI_In db p O). now left. }
  assert (L : forall possi,
            In possi (types.possibilities (types.Provides p)) ->
            listed p (Add db p) possi).
  { intros possi Hpo. unfold Add, addPackage.
    apply provide_all_lists; [now apply database.RoI_ordered|now left]. }
  unfold Add at 1. unfold addPackage at 1.
  rewrite (RoI_same _ p O1 Hp). now apply provide_all_listed.
Qed.

End Again.
End again.

(** ** The command: resolve, then list *)

Module main.
Section Main.
Context {Ver Arc : Type} `{VL : version.Laws Ver} `{AP : arch.Plain Arc}.
Import packages.

Abbreviation Package := (types.Package Ver Arc).
Abbreviation DB := (PackageDB Ver Arc).
Abbreviation Heap := (packages.Heap Ver Arc).

(** The operands of the [fmt.Println] calls of the last [ForEach] of the
    action: the name and the version of every entry that is not virtual. *)
Definition printed (selectedDB : DB) : list (string * Ver) :=
  map (fun pkg => (types.Name pkg, types.Version pkg))
      (List.filter (fun pkg => negb (types.IsVirtual pkg))
                   (ForEach selectedDB)).

(** The action from the loaded database on: the count that is logged and
    the lines that are printed, or the error of [Resolve]. *)
Definition resolveAndList (fuel : nat) (packageDB : loc)
    (packageNameVersions : list string) (h : Heap)
  : Outcome Ver (nat * list (string * Ver)) :=
  match Resolve fuel (NewResolver packageDB) packageNameVersions h with
  | (h', Done selectedDB) =>
      Done (Len (deref h' selectedDB), printed (deref h' selectedDB))
  | (_, Failed e) => Failed e
  | (_, OutOfFuel) => OutOfFuel
  end.

Lemma SS_map {A B} (R : A -> A -> Prop) (R' : B -> B -> Prop) (f : A -> B) l :
  (forall x y, R x y -> R' (f x) (f y)) ->
  StronglySorted R l -> StronglySorted R' (map f l).
Proof.
  intros F. induction 1 as [|a l S IH X]; simpl; constructor; [exact IH|].
  rewrite List.Forall_forall in *. intros y Hy. apply in_map_iff in Hy.
  destruct Hy as (x & <- & Hx). apply F. now apply X.
Qed.

(** Every line that the command prints is the name and the version of a
    concrete package of the loaded database; the lines come in the order of
    the names and, under one name, of the versions; and there are no more of
    them than the count that is logged. *)
Theorem resolveAndList_lists (fuel : nat) (packageDB : loc)
    (packageNameVersions : list string) (h : Heap)
    (count : nat) (lines : list (string * Ver)) :
  (packageDB < length h)%nat ->
  loops.archful (deref h packageDB) ->
  resolveAndList fuel packageDB packageNameVersions h = Done (count, lines) ->
  (forall name v, In (name, v) lines ->
     exists pkg, In pkg (deref h packageDB)
                 /\ types.IsVirtual pkg = false
                 /\ types.Name pkg = name /\ types.Version pkg = v)
  /\ StronglySorted
       (fun a b => String.compare (fst a) (fst b) = Lt
                   \/ (fst a = fst b /\ version.Compare (snd a) (snd b) <= 0))
       lines
  /\ (length lines <= count)%nat.
Proof.
  intros L A. unfold resolveAndList.
  destruct (Resolve fuel (NewResolver packageDB) packageNameVersions h)
    as [h' [selectedDB|e|]] eqn:R; try discriminate.
  intros [= <- <-].
  destruct (loops.Resolve_within fuel (NewResolver packageDB)
              packageNameVersions h h' selectedDB L A R) as [O W].
  simpl in W. split; [|split].
  - intros name v Hin. unfold printed in Hin. apply in_map_iff in Hin.
    destruct Hin as (pkg & [= <- <-] & Hp). apply filter_In in Hp.
    destruct Hp as [Hp V]. apply negb_true_iff in V.
    exists pkg. split; [now apply W|auto].
  - unfold printed, ForEach, btree.Ascend.
    apply (SS_map (sorted.lt pkgorder.cmp)); [|now apply tree.filter_ordered].
    intros x y Lt. unfold sorted.lt in Lt. cbn [fst snd].
    destruct (String.compare (types.Name x) (types.Name y)) eqn:C.
    + right. apply String.compare_eq_iff in C. split; [exact C|].
      apply tree.cmp_by_version; [exact C|congruence].
    + now left.
    + exfalso. apply (tree.cmp_by_name x y); [congruence|exact C].
  - unfold printed, Len. rewrite length_map.
    apply List.filter_length_le.
Qed.

End Main.
End main.

(** ** The resolver comes to an end *)

Module termination.
Section Termination.
Context {Ver Arc : Type} `{VL : version.Laws Ver} `{AP : arch.Plain Arc}.
Import packages.

Abbreviation Package := (types.Package Ver Arc).
Abbreviation Possibility := (dependency.Possibility Ver).
Abbreviation Relation := (dependency.Relation Ver).
Abbreviation DB := (PackageDB Ver Arc).
Abbreviation Heap := (packages.Heap Ver Arc).
Abbreviation cmp := (pkgorder.cmp (Ver := Ver) (Arc := Arc)).
Abbreviation ordered := (sorted.ordered cmp).

(** *** How many packages a lookup can return *)

Lemma walk_length {A} (f : list A -> Package -> list A * bool) l :
  (forall acc x, (length (fst (f acc x)) <= S (length acc))%nat) ->
  forall acc, (length (btree.walk f acc l) <= length acc + length l)%nat.
Proof.
  intros F. induction l as [|x l IH]; intros acc; simpl; [lia|].
  pose proof (F acc x) as Fx. destruct (f acc x) as [acc' continue].
  simpl in Fx. destruct continue; [|lia].
  pose proof (IH acc'). lia.
Qed.

Lemma AGE_length pivot (db : DB) :
  (length (btree.AscendGreaterOrEqual types.less pivot db) <= length db)%nat.
Proof.
  induction db as [|a db IH]; simpl; [lia|].
  destruct (types.less a pivot); simpl; lia.
Qed.

Lemma DLE_length pivot (db : DB) :
  (length (btree.DescendLessOrEqual types.less pivot db) <= length db)%nat.
Proof.
  unfold btree.DescendLessOrEqual. rewrite length_rev.
  induction db as [|a db IH]; simpl; [lia|].
  destruct (types.less pivot a); simpl; lia.
Qed.

Lemma visitAll_length name (acc : list Package) x :
  (length (fst (if negb (String.eqb (types.Name x) name)
                then (acc, false) else (acc ++ [x], true)))
   <= S (length acc))%nat.
Proof.
  destruct (negb _); simpl; [lia|]. rewrite length_app. simpl. lia.
Qed.

Lemma packageListFor_length (pool : DB) possi packageList :
  packageListFor pool possi = Ok packageList ->
  (length packageList <= length pool)%nat.
Proof.
  unfold packageListFor.
  assert (L : forall name v, (length (LaterOrEqual pool name v)
                              <= length pool)%nat).
  { intros name v. unfold LaterOrEqual.
    pose proof (walk_length _ (btree.AscendGreaterOrEqual types.less
                                 (types.keyOf name v false) pool)
                  (visitAll_length name) []) as W.
    pose proof (AGE_length (types.keyOf name v false) pool). simpl in W. lia. }
  assert (E : forall name v, (length (EarlierOrEqual pool name v)
                              <= length pool)%nat).
  { intros name v. unfold EarlierOrEqual.
    pose proof (walk_length _ (btree.DescendLessOrEqual types.less
                                 (types.keyOf name v false) pool)
                  (visitAll_length name) []) as W.
    pose proof (DLE_length (types.keyOf name v false) pool). simpl in W. lia. }
  destruct (dependency.PossiVersion possi) as [rel|].
  - destruct (String.eqb _ "<<"); [intros [= <-]; apply E|].
    destruct (String.eqb _ "<="); [intros [= <-]; apply E|].
    destruct (String.eqb _ "=").
    + intros [= <-].
      destruct (ExactlyEqual pool _ _) as [pkg|] eqn:X; simpl; [|lia].
      apply lookup.ExactlyEqual_sound in X. destruct X as [X _].
      destruct pool; [destruct X|simpl; lia].
    + destruct (String.eqb _ ">="); [intros [= <-]; apply L|].
      destruct (String.eqb _ ">>"); [intros [= <-]; apply L|discriminate].
  - intros [= <-]. apply (L _ version.zero).
Qed.

Lemma resolvedPackages_length (pool candidates : DB) packageList :
  (length (resolvedPackages pool candidates packageList)
   <= length packageList)%nat.
Proof.
  unfold resolvedPackages.
  induction packageList as [|pkg l IH]; simpl; [lia|].
  rewrite length_app.
  destruct (types.IsVirtual pkg); [|simpl; lia].
  destruct (resolveVirtualPackage pool candidates pkg); simpl; lia.
Qed.

Lemma resolveRelation_length (pool candidates : DB) possis resolved :
  resolveRelation pool candidates possis = Ok (Some resolved) ->
  (length resolved <= length pool)%nat.
Proof.
  induction possis as [|possi possis IH]; simpl; [discriminate|].
  destruct (packageListFor pool possi) as [packageList|e] eqn:E;
    [|discriminate].
  destruct (0 <? length (resolvedPackages pool candidates packageList))%nat;
    [|exact IH].
  intros [= <-].
  pose proof (resolvedPackages_length pool candidates packageList).
  pose proof (packageListFor_length pool possi packageList E). lia.
Qed.

Lemma dependenciesOf_length (pool candidates : DB) relations :
  forall dependencies result,
  dependenciesOf pool candidates relations dependencies = Ok result ->
  (length result
   <= length dependencies + length relations * length pool)%nat.
Proof.
  induction relations as [|rel relations IH]; intros dependencies result;
    simpl.
  - intros [= <-]. lia.
  - destruct (resolveRelation pool candidates (dependency.Possibilities rel))
      as [[resolved|]|e] eqn:E; try discriminate.
    intros R. apply IH in R. rewrite length_app in R.
    pose proof (resolveRelation_length _ _ _ _ E). lia.
Qed.

Lemma getDependencies_length (pool candidates : DB) pkg dependencies :
  getDependencies pool candidates pkg = Ok dependencies ->
  (length dependencies <= length (relationsOf pkg) * length pool)%nat.
Proof.
  unfold getDependencies. intros E. apply dependenciesOf_length in E.
  simpl in E. exact E.
Qed.

(** *** The work queue *)

Section Queue.
Variables (r : Resolver) (candidateDB : loc) (pool : DB).
Variable universe : list string.
Variable D : nat.
Hypothesis apart : packageDB r <> candidateDB.

Definition unvisited (visited : gmap string bool) : list string :=
  List.filter (fun id => negb (isVisited visited id)) universe.

(** The packages that the queue can hold. *)
Definition known (pkg : Package) : Prop :=
  In (types.ID pkg) universe
  /\ (length (relationsOf pkg) * length pool <= D)%nat.

Hypothesis pool_known : forall pkg, In pkg pool -> known pkg.

Lemma isVisited_marked (visited : gmap string bool) id b :
  isVisited (<[id := true]> visited) b
  = String.eqb id b || isVisited visited b.
Proof.
  unfold isVisited. destruct (String.eqb_spec id b) as [->|Ne].
  - now rewrite lookup_insert_eq.
  - now rewrite lookup_insert_ne by exact Ne.
Qed.

Lemma unvisited_marked visited id :
  In id universe -> isVisited visited id = false ->
  (length (unvisited (<[id := true]> visited)) < length (unvisited visited))%nat.
Proof.
  unfold unvisited. induction universe as [|a l IH]; intros Hin V;
    [destruct Hin|]. simpl.
  assert (Mono : (length (List.filter
                    (fun id0 => negb (isVisited (<[id := true]> visited) id0)) l)
                  <= length (List.filter
                    (fun id0 => negb (isVisited visited id0)) l))%nat).
  { clear. induction l as [|b l IH]; simpl; [lia|].
    rewrite isVisited_marked.
    destruct (String.eqb id b), (isVisited visited b); simpl; lia. }
  rewrite isVisited_marked.
  destruct (String.eqb_spec id a) as [->|Ne]; simpl.
  - rewrite V. simpl. lia.
  - destruct Hin as [->|Hin]; [congruence|].
    specialize (IH Hin V).
    destruct (isVisited visited a); simpl; lia.
Qed.

(** With as much fuel as the queue is long, and [D] more for every
    identifier not visited yet, the loop ends: with the queue empty, or with
    the error of [getDependencies]. *)
Lemma expand_ends fuel : forall queue visited (h : Heap),
  deref h (packageDB r) = pool ->
  (forall pkg, In pkg queue -> known pkg) ->
  (length queue + D * length (unvisited visited) <= fuel)%nat ->
  snd (expand fuel r candidateDB queue visited h) <> OutOfFuel.
Proof.
  induction fuel as [|fuel IH]; intros queue visited h P K F.
  - destruct queue; [discriminate|simpl in F; lia].
  - destruct queue as [|pkg queue]; [discriminate|]. simpl.
    destruct (isVisited visited (types.ID pkg)) eqn:V.
    + apply IH; [exact P|intros x Hx; apply K; now right|simpl in F; lia].
    + destruct (getDependencies _ _ pkg) as [deps|e] eqn:G; [|discriminate].
      destruct (K pkg (or_introl eq_refl)) as [Ku Kd].
      pose proof (unvisited_marked visited (types.ID pkg) Ku V) as U.
      rewrite P in G.
      pose proof (getDependencies_length _ _ _ _ G) as Ld.
      apply IH.
      * rewrite <- P. unfold deref. f_equal.
        apply (proj2 (resolver.update_onlyAt candidateDB _ h)). exact apart.
      * intros x Hx. apply in_app_iff in Hx. destruct Hx as [Hx|Hx].
        -- apply K. now right.
        -- apply filter_In in Hx. destruct Hx as [Hx _].
           apply pool_known.
           now apply (loops.getDependencies_from_pool _ _ _ _ G).
      * rewrite length_app.
        pose proof (List.filter_length_le
                      (fun pkg0 => negb (isVisited
                         (<[types.ID pkg := true]> visited) (types.ID pkg0)))
                      deps) as Lf.
        simpl in F. nia.
Qed.

End Queue.

(** More fuel does not change how a loop that ended has ended. *)
Lemma expand_more fuel r db : forall queue visited (h : Heap) fuel',
  snd (expand fuel r db queue visited h) <> OutOfFuel ->
  (fuel <= fuel')%nat ->
  expand fuel' r db queue visited h = expand fuel r db queue visited h.
Proof.
  induction fuel as [|fuel IH]; intros queue visited h fuel' N L.
  - destruct queue; [destruct fuel'; reflexivity|]. now simpl in N.
  - destruct fuel' as [|fuel']; [lia|].
    destruct queue as [|pkg queue]; [reflexivity|]. simpl in *.
    destruct (isVisited visited (types.ID pkg)); [apply IH; [exact N|lia]|].
    destruct (getDependencies _ _ pkg); [|reflexivity].
    apply IH; [exact N|lia].
Qed.

Lemma pruneUnsatisfied_more fuel db : forall (h : Heap) fuel',
  snd (pruneUnsatisfied fuel db h) = true ->
  (fuel <= fuel')%nat ->
  pruneUnsatisfied fuel' db h = pruneUnsatisfied fuel db h.
Proof.
  induction fuel as [|fuel IH]; intros h fuel' N L.
  - rewrite resolver.pruneUnsatisfied_unfold in N.
    rewrite (resolver.pruneUnsatisfied_unfold fuel'),
            (resolver.pruneUnsatisfied_unfold 0). cbv zeta in *.
    destruct (length _ =? 0)%nat; [reflexivity|discriminate N].
  - destruct fuel' as [|fuel']; [lia|].
    rewrite resolver.pruneUnsatisfied_unfold in N.
    rewrite (resolver.pruneUnsatisfied_unfold (S fuel')),
            (resolver.pruneUnsatisfied_unfold (S fuel)). cbv zeta in *.
    destruct (length _ =? 0)%nat; [reflexivity|].
    apply IH; [exact N|lia].
Qed.

(** *** The databases of a call stay ordered *)

Definition sortedAt (db : loc) (h : Heap) : Prop :=
  exists d, h !! db = Some d /\ ordered d.

Lemma update_sortedAt db (f : DB -> DB) (h : Heap) :
  (forall d, ordered d -> ordered (f d)) ->
  sortedAt db h -> sortedAt db (update db f h).
Proof.
  intros F (d & E & O). exists (f d). split; [|now apply F].
  unfold update, packages.Heap, loc, PackageDB in *.
  rewrite list_lookup_alter, E.
  destruct (decide (db = db)); [reflexivity|congruence].
Qed.

Lemma seed_sortedAt r db reqs : forall rq (h : Heap),
  sortedAt db h -> sortedAt db (fst (seed r db reqs rq h)).
Proof.
  induction reqs as [|s reqs IH]; intros rq h K; simpl; [exact K|].
  destruct (parseRequest s) as [[name [v|]]|e]; simpl; [| |exact K].
  - destruct (ExactlyEqual (deref h (packageDB r)) name v) as [pkg|];
      simpl; [|exact K].
    apply IH. apply update_sortedAt; [|exact K].
    intros d. apply tree.Add_ordered.
  - destruct (length _ =? 0)%nat; simpl; [exact K|].
    apply IH. apply update_sortedAt; [|exact K].
    intros d. apply tree.AddAll_ordered.
Qed.

Lemma expand_sortedAt fuel r db : forall queue visited (h : Heap),
  sortedAt db h -> sortedAt db (fst (expand fuel r db queue visited h)).
Proof.
  induction fuel as [|fuel IH]; intros queue visited h K.
  - destruct queue; exact K.
  - destruct queue as [|pkg queue]; [exact K|]. simpl.
    destruct (isVisited visited (types.ID pkg)); [now apply IH|].
    destruct (getDependencies _ _ pkg) as [deps|e]; [|exact K].
    apply IH. apply update_sortedAt; [|exact K].
    intros d. apply tree.AddAll_ordered.
Qed.

Lemma fold_update_sortedAt {A} db (f : A -> DB -> DB) (l : list A) :
  (forall x d, ordered d -> ordered (f x d)) ->
  forall h : Heap, sortedAt db h ->
  sortedAt db (fold_left (fun h x => update db (f x) h) l h).
Proof.
  intros F. induction l as [|x l IH]; intros h K; simpl; [exact K|].
  apply IH. apply update_sortedAt; [|exact K]. intros d. apply F.
Qed.

Lemma selectPackage_ordered rq (sel : DB) c :
  ordered sel -> ordered (selectPackage rq sel c).
Proof.
  intros O. unfold selectPackage.
  assert (B : ordered
                match Get sel (types.Name c) with
                | existing0 :: _ =>
                    if 0 <? version.Compare (types.Version c)
                                            (types.Version existing0)
                    then Add (Remove sel existing0) c
                    else sel
                | [] => Add sel c
                end).
  { destruct (Get sel (types.Name c)) as [|existing0 rest];
      [now apply tree.Add_ordered|].
    destruct (0 <? _); [|exact O].
    apply tree.Add_ordered. now apply tree.Remove_ordered. }
  destruct (rq !! types.Name c) as [[pv|]|]; [|exact B|exact B].
  destruct (_ =? 0); [now apply tree.Add_ordered|exact O].
Qed.

Lemma list_max_In (l : list nat) x : In x l -> (x <= list_max l)%nat.
Proof.
  induction l as [|a l IH]; intros Hx; [destruct Hx|]. simpl.
  destruct Hx as [->|Hx]; [lia|]. specialize (IH Hx). lia.
Qed.

(** [Resolve] returns: there is a bound of the loops from which on the
    result is the same, a database or an error. *)
Theorem Resolve_returns (r : Resolver) (packageNameVersions : list string)
    (h : Heap) :
  (packageDB r < length h)%nat ->
  exists fuel0, forall fuel, (fuel0 <= fuel)%nat ->
    Resolve fuel r packageNameVersions h
    = Resolve fuel0 r packageNameVersions h
    /\ snd (Resolve fuel r packageNameVersions h) <> OutOfFuel.
Proof.
  intros L. unfold Resolve, alloc. cbv iota beta.
  set (c := length h). set (h0 := h ++ [NewPackageDB]).
  assert (S0 : sortedAt c h0).
  { exists NewPackageDB. split; [|constructor].
    unfold h0, c, packages.Heap, loc, PackageDB in *.
    rewrite lookup_app_r by lia. now rewrite Nat.sub_diag. }
  pose proof (seed_sortedAt r c packageNameVersions ∅ h0 S0) as S1.
  destruct (seed r c packageNameVersions ∅ h0) as [h1 [requested|e]];
    [|exists 0%nat; intros fuel _; split; [reflexivity|discriminate]].
  cbn [fst] in S1.
  set (queue := ForEach (deref h1 c)).
  set (pool := deref h1 (packageDB r)).
  set (universe := map types.ID (queue ++ pool)).
  set (D := (list_max (map (fun pkg : Package => length (relationsOf pkg))
                           (queue ++ pool)) * length pool)%nat).
  assert (K : forall pkg, In pkg (queue ++ pool) ->
                known pool universe D pkg).
  { intros pkg Hp. split; [now apply in_map|].
    apply Nat.mul_le_mono_r. apply list_max_In.
    apply (in_map (fun pkg : Package => length (relationsOf pkg))) in Hp.
    exact Hp. }
  set (e0 := (length queue + D * length universe)%nat).
  assert (E0 : snd (expand e0 r c queue ∅ h1) <> OutOfFuel).
  { apply (expand_ends r c pool universe D); [unfold c; lia| | | |].
    - intros pkg Hp. apply K, in_app_iff. now right.
    - reflexivity.
    - intros pkg Hp. apply K, in_app_iff. now left.
    - unfold e0.
      pose proof (List.filter_length_le
                    (fun id => negb (isVisited ∅ id)) universe).
      unfold unvisited. nia. }
  pose proof (expand_sortedAt e0 r c queue ∅ h1 S1) as S2.
  pose proof (fun fuel => expand_more e0 r c queue ∅ h1 fuel E0) as M2.
  destruct (expand e0 r c queue ∅ h1) as [h2 o] eqn:X2.
  cbn [fst snd] in *.
  destruct o as [[]|e|]; [| |congruence].
  2:{ exists e0. intros fuel Lf. rewrite (M2 fuel Lf), (M2 e0 (le_n _)).
      split; [reflexivity|discriminate]. }
  destruct S2 as (d2 & L2 & O2).
  set (p1 := length d2).
  destruct (loops.pruneUnsatisfied_scans p1 c h2 d2 L2 O2 (le_n _))
    as [B3 _].
  pose proof (fun fuel => pruneUnsatisfied_more p1 c h2 fuel B3) as M3.
  destruct (pruneUnsatisfied p1 c h2) as [h3 b3] eqn:X3.
  cbn [fst snd] in B3. subst b3.
  set (s := length h3).
  set (h5 := selectNewest requested c s (h3 ++ [NewPackageDB])).
  assert (S5 : sortedAt s h5).
  { unfold h5, selectNewest. apply fold_update_sortedAt.
    - intros pkg d. apply selectPackage_ordered.
    - exists NewPackageDB. split; [|constructor].
      unfold s, packages.Heap, loc, PackageDB in *.
      rewrite lookup_app_r by lia. now rewrite Nat.sub_diag. }
  destruct S5 as (d5 & L5 & O5).
  set (p2 := length d5).
  destruct (loops.pruneUnsatisfied_scans p2 s h5 d5 L5 O5 (le_n _))
    as [B6 _].
  pose proof (fun fuel => pruneUnsatisfied_more p2 s h5 fuel B6) as M6.
  destruct (pruneUnsatisfied p2 s h5) as [h6 b6] eqn:X6.
  cbn [fst snd] in B6. subst b6.
  exists (Nat.max e0 (Nat.max p1 p2)). intros fuel Lf.
  rewrite (M2 fuel) by lia. rewrite (M2 (Nat.max e0 (Nat.max p1 p2))) by lia.
  rewrite (M3 fuel) by lia. rewrite (M3 (Nat.max e0 (Nat.max p1 p2))) by lia.
  fold s. fold h5.
  rewrite (M6 fuel) by lia. rewrite (M6 (Nat.max e0 (Nat.max p1 p2))) by lia.
  split; [reflexivity|].
  destruct (confirmRequested requested (deref h6 s)); discriminate.
Qed.

End Termination.
End termination.

(** * The model at work

    A small archive, over Debian versions and architectures known by name. *)

Module archive.
Import packages.

Abbreviation Package := (types.Package debian.Version archname.Arch).
Abbreviation Possibility := (dependency.Possibility debian.Version).
Abbreviation Dependency := (dependency.Dependency debian.Version).

(** The version that a text stands for (the zero version for a text that
    [Parse] refuses). *)
Definition ver (s : string) : debian.Version :=
  default version.zero (debian.Parse s).

(** A possibility without a version relation, and one with. *)
Definition any (name : string) : Possibility :=
  {| dependency.Name := name; dependency.PossiVersion := None |}.

Definition versioned (name operator v : string) : Possibility :=
  {| dependency.Name := name;
     dependency.PossiVersion :=
       Some {| dependency.Operator := operator; dependency.Version := ver v |} |}.

(** A dependency field, as the list of its relations' alternatives. *)
Definition field (relations : list (list Possibility)) : Dependency :=
  {| dependency.Relations :=
       map (fun possis => {| dependency.Possibilities := possis |}) relations |}.

(** A package of the archive, as a Packages paragraph gives it. *)
Definition package (name v architecture : string)
    (provides depends : list (list Possibility)) : Package :=
  {| types.Name := name; types.Version := ver v;
     types.Architecture := architecture;
     types.Provides := field provides; types.Depends := field depends;
     types.PreDepends := dependency.none; types.Priority := "optional";
     types.Filename := ""; types.URLs := []; types.IsVirtual := false;
     types.Providers := [] |}.

Definition shell : Package :=
  package "shell" "1.0" "amd64" []
          [[versioned "libc" ">=" "2.0"]; [any "awk"]].
Definition libc2 : Package := package "libc" "2.0" "amd64" [] [].
Definition libc3 : Package := package "libc" "3.0" "amd64" [] [].
Definition mawk : Package := package "mawk" "1.3" "amd64" [[any "awk"]] [].
Definition broken : Package :=
  package "broken" "1.0" "amd64" [] [[any "missing"]].

Definition pool : PackageDB debian.Version archname.Arch :=
  AddAll NewPackageDB [shell; libc2; libc3; mawk; broken].

(** The heap before a call: the pool at location 0. *)
Definition heap0 : Heap debian.Version archname.Arch := [pool].

Definition resolver0 : Resolver := NewResolver 0%nat.

(** The names, versions and kinds of the entries of a database. *)
Definition contents (db : PackageDB debian.Version archname.Arch)
  : list (string * bool) :=
  map (fun p => (types.ID p, types.IsVirtual p)) db.

Example Resolve_shell :
  let '(h, outcome) := Resolve 10 resolver0 ["shell"%string] heap0 in
  outcome = Done 2%nat
  /\ contents (deref h 2%nat)
     = [("awk__", true); ("libc_3.0_amd64", false);
        ("mawk_1.3_amd64", false); ("shell_1.0_amd64", false)]%string.
Proof. vm_compute. split; reflexivity. Qed.


(** The pool is what it was after a call that selects, and after one that
    fails. *)
Lemma Resolve_preserves_pool_witness :
  deref (fst (Resolve 10 resolver0 ["shell"%string] heap0)) 0%nat = pool
  /\ forall l, (l < 1)%nat ->
       fst (Resolve 10 resolver0 ["shell"%string] heap0) !! l = heap0 !! l.
Proof.
  apply (resolver.Resolve_preserves_pool 10 resolver0 ["shell"%string] heap0).
  simpl. lia.
Defined.

End archive.

(** Two editors that provide one name under two versions, and one that
    provides it without a version. *)

Module editors.
Import packages database.

Abbreviation Package := (types.Package debian.Version archname.Arch).

Definition vim : Package :=
  archive.package "vim" "9.0" "amd64"
    [[archive.versioned "editor" "=" "1.0"]] [].
Definition nano : Package :=
  archive.package "nano" "7.2" "amd64"
    [[archive.versioned "editor" "=" "2.0"]] [].
Definition ed : Package :=
  archive.package "ed" "1.19" "amd64" [[archive.any "editor"]] [].

Definition shelf : PackageDB debian.Version archname.Arch :=
  AddAll NewPackageDB [vim; nano].

Example shelf_contents :
  map (fun p => (types.ID p, map types.ID (types.Providers p))) shelf
  = [("editor_1.0_", ["vim_9.0_amd64"]);
     ("editor_2.0_", ["nano_7.2_amd64"]);
     ("nano_7.2_amd64", []); ("vim_9.0_amd64", [])]%string.
Proof. vm_compute. reflexivity. Qed.


Definition session : list (Op debian.Version archname.Arch) :=
  [DoAdd vim; DoAddAll [nano; ed]; DoRemove vim; DoAdd vim; DoRemove ed].

Example session_contents :
  map (fun p => (types.ID p, map types.ID (types.Providers p))) (run session)
  = [("editor_1.0_", ["vim_9.0_amd64"]);
     ("editor_2.0_", ["nano_7.2_amd64"]);
     ("nano_7.2_amd64", []); ("vim_9.0_amd64", [])]%string.
Proof. vm_compute. reflexivity. Qed.

Local Ltac fresh_in :=
  let x := fresh "x" in let Hx := fresh "Hx" in let S := fresh "S" in
  intros x Hx S; vm_compute in Hx;
  repeat (destruct Hx as [<-|Hx]; [vm_compute in S; discriminate S|]);
  destruct Hx.

Lemma session_wellFormed : wellFormed NewPackageDB session.
Proof.
  repeat match goal with
  | |- wellFormed _ _ => split
  | |- admissible _ _ => cbv [admissible]
  | |- addableAll _ _ => split
  | |- addable _ _ => split
  | |- concrete _ => split; [reflexivity|split; [reflexivity|discriminate]]
  | |- _ /\ _ => split
  | |- True => exact I
  | |- forall x, In x _ -> _ -> _ => fresh_in
  | |- types.IsVirtual _ = false => reflexivity
  | |- In _ _ => vm_compute; auto 10
  end.
Qed.

(** The invariant needs the packages added to be new: adding a package
    again with another Provides field leaves the entry of the name it no
    longer provides, with the former copy as its provider. *)
Example Add_again_keeps_provider :
  let vim' := archive.package "vim" "9.0" "amd64" [] [] in
  map (fun p => (types.ID p, map types.ID (types.Providers p)))
      (Add (Add NewPackageDB vim) vim')
  = [("editor_1.0_", ["vim_9.0_amd64"]); ("vim_9.0_amd64", [])]%string.
Proof. vm_compute. reflexivity. Qed.


End editors.

(** A small mirror: one Release file, over architectures known by name. *)

Module mirror.
Import source.

(** [path.Join] on elements that need no cleaning: the elements that are not
    empty, with a slash between them. *)
Fixpoint Join (elems : list string) : string :=
  match elems with
  | [] => ""
  | e :: rest =>
      if String.eqb e "" then Join rest
      else if String.eqb (Join rest) "" then e
      else (e ++ "/" ++ Join rest)%string
  end.

(** [path.Base] on a path with no slash at its end: its last element. *)
Definition Base (p : string) : string :=
  match debian.splitLast "/" p with
  | Some (_, last) => last
  | None => p
  end.

(** The text of a URL that has nothing to escape: what comes before the
    path, and the path. *)
Definition urlString (u : URL) : string := (Host u ++ Path u)%string.

Definition debianURL : URL := {| Host := "http://deb.example"; Path := "/debian" |}.

(** A source configured with its URL only: distribution [stable],
    component [main]. *)
Definition stable : Source :=
  NewSource {| ConfURL := debianURL; ConfDistribution := "";
               ConfComponents := [] |}.

Definition stableSums : gmap string (list byte) :=
  <["main/binary-all/Packages.gz"%string := [x01]]>
  (<["main/binary-amd64/Packages.gz"%string := [x02]]>
  (<["contrib/binary-amd64/Packages.gz"%string := [x03]]> ∅)).

Definition stableRelease : Release (Arc := archname.Arch) :=
  {| Architectures := ["all"; "amd64"; "arm64"]%string;
     ReleaseComponents := ["main"; "contrib"]%string;
     SHA256Sums := Some stableSums |}.

(** The mirror serves the Release file, signed, at every URL asked. *)
Definition serveStable (url : string) : InRelease (Arc := archname.Arch) :=
  Signed stableRelease.

(** The scenario of the test of the sources: for [amd64], the components
    (main, all) and (main, amd64). *)
Lemma Components_enumerates_witness :
  Components Join Base urlString serveStable stable ("amd64"%string : archname.Arch)
  = inr (map (fun '(comp, a) => componentFor Join Base stable stableSums comp a)
             (list_prod (availableComponents stable stableRelease)
                        (availableArchitectures stableRelease
                           ("amd64"%string : archname.Arch)))).
Proof.
  assert (NA : availableArchitectures stableRelease
                 ("amd64"%string : archname.Arch) <> [])
    by (intros E; vm_compute in E; discriminate E).
  assert (NC : availableComponents stable stableRelease <> [])
    by (intros E; vm_compute in E; discriminate E).
  exact (proj1 (proj2 (proj2
    (components.Components_enumerates Join Base urlString serveStable stable
       ("amd64"%string : archname.Arch) stableRelease stableSums
       eq_refl eq_refl NA NC)))).
Defined.

Example Components_stable_amd64 :
  match Components Join Base urlString serveStable stable
          ("amd64"%string : archname.Arch) with
  | inr cs =>
      map (fun c => (Name c, Arch c, urlString (ComponentURL c),
                     map_to_list (ComponentSHA256Sums c))) cs
      = [("main", "all", "http://deb.example/debian/dists/stable/main/binary-all",
          [("Packages.gz", [x01])]);
         ("main", "amd64",
          "http://deb.example/debian/dists/stable/main/binary-amd64",
          [("Packages.gz", [x02])])]%string
  | inl _ => False
  end.
Proof. vm_compute. reflexivity. Qed.

(** A security archive names its components [updates/main], and lists its
    files under [main/]. *)
Definition security : Source :=
  NewSource {| ConfURL := debianURL; ConfDistribution := "";
               ConfComponents := ["updates/main"%string] |}.

Definition securitySums : gmap string (list byte) :=
  <["main/binary-amd64/Packages"%string := [x01]]> ∅.

Definition securityRelease : Release (Arc := archname.Arch) :=
  {| Architectures := ["amd64"%string];
     ReleaseComponents := ["updates/main"%string];
     SHA256Sums := Some securitySums |}.

Definition serveSecurity (url : string) : InRelease (Arc := archname.Arch) :=
  Signed securityRelease.

(** C6, as stated, fails for a component whose name has a slash.  The
    component [updates/main] of the security archive gets the URL
    [.../dists/stable/updates/main/binary-amd64]; the Release file has no sum
    under [updates/main/binary-amd64], its only path being
    [main/binary-amd64/Packages]; yet the component carries that sum, under
    the key [Packages]: its sums are those under the last element of its
    name, not those of the subtree of its URL. *)
Lemma Components_base_counterexample :
  exists c,
    Components Join Base urlString serveSecurity security
      ("amd64"%string : archname.Arch) = inr [c]
    /\ Name c = "updates/main"%string
    /\ Path (ComponentURL c)
       = "/debian/dists/stable/updates/main/binary-amd64"%string
    /\ map_to_list securitySums
       = [("main/binary-amd64/Packages"%string, [x01])]
    /\ securitySums !! "updates/main/binary-amd64/Packages"%string = None
    /\ ComponentSHA256Sums c !! "Packages"%string = Some [x01].
Proof.
  eexists. split; [vm_compute; reflexivity|].
  vm_compute. repeat split; reflexivity.
Qed.

End mirror.

(** The databases of [archive] and [editors], queried. *)

Module stock.
Import packages.

Abbreviation Package := (types.Package debian.Version archname.Arch).
Abbreviation Op := (database.Op debian.Version archname.Arch).

(** The operations that build the pool of [archive]. *)
Definition deliveries : list Op :=
  [database.DoAddAll
     [archive.shell; archive.libc2; archive.libc3; archive.mawk;
      archive.broken]].

Example deliveries_pool : database.run deliveries = archive.pool.
Proof. reflexivity. Qed.

Lemma Compare_orders_witness :
  Z.sgn (types.Compare archive.libc2 archive.libc3)
  = - Z.sgn (types.Compare archive.libc3 archive.libc2).
Proof.
  exact (proj1 (tree.Compare_orders archive.libc2 archive.libc3
                  archive.shell)).
Defined.

Lemma ForEach_ascending_witness :
  StronglySorted (fun a b : Package => types.Compare a b < 0)
                 (ForEach (database.run deliveries))
  /\ forall x y, In x (database.run deliveries) ->
       In y (database.run deliveries) -> types.Compare x y = 0 -> x = y.
Proof. exact (tree.ForEach_ascending deliveries). Defined.

(** A second copy of [libc] 2.0 takes the place of the first. *)
Lemma Add_then_Remove_witness :
  types.possibilities (types.Provides archive.libc2) = []
  /\ Remove (Add (database.run deliveries) archive.libc2) archive.libc2
     = Remove (database.run deliveries) archive.libc2.
Proof.
  split; [reflexivity|].
  exact (proj1 (tree.Add_then_Remove deliveries archive.libc2 eq_refl)).
Defined.

Lemma Get_returns_witness :
  forallb (fun x : Package => String.eqb (types.Name x) "libc")
          (Get (database.run deliveries) "libc") = true
  /\ (forall x, In x (Get (database.run deliveries) "libc") ->
        In x (database.run deliveries) /\ types.Name x = "libc"%string).
Proof.
  split; [vm_compute; reflexivity|].
  exact (proj1 (proj2 (tree.Get_returns deliveries "libc"))).
Defined.

Lemma later_queries_witness :
  map types.ID (StrictlyLater (database.run deliveries) "libc"
                              (archive.ver "2.0"))
  = ["libc_3.0_amd64"%string]
  /\ (forall x, In x (LaterOrEqual (database.run deliveries) "libc"
                                   (archive.ver "2.0")) ->
        0 <= version.Compare (types.Version x) (archive.ver "2.0")).
Proof.
  split; [vm_compute; reflexivity|].
  exact (proj1 (proj2 (tree.later_queries deliveries "libc"
                         (archive.ver "2.0")))).
Defined.

Lemma earlier_queries_witness :
  map types.ID (StrictlyEarlier (database.run deliveries) "libc"
                                (archive.ver "3.0"))
  = ["libc_2.0_amd64"%string]
  /\ (forall x, In x (EarlierOrEqual (database.run deliveries) "libc"
                                     (archive.ver "3.0")) ->
        version.Compare (types.Version x) (archive.ver "3.0") <= 0).
Proof.
  split; [vm_compute; reflexivity|].
  exact (proj1 (proj2 (tree.earlier_queries deliveries "libc"
                         (archive.ver "3.0")))).
Defined.

(** [libc] 2.0 for amd64 is listed from version 2.0 on, and is not listed up
    to version 2.0. *)
Lemma equal_version_queries_witness :
  In archive.libc2
     (LaterOrEqual (database.run deliveries) "libc" (archive.ver "2.0"))
  /\ ~ In archive.libc2
       (EarlierOrEqual (database.run deliveries) "libc" (archive.ver "2.0")).
Proof.
  assert (I : In archive.libc2 (database.run deliveries))
    by (vm_compute; do 2 right; left; reflexivity).
  assert (E : version.Compare (types.Version archive.libc2)
                              (archive.ver "2.0") = 0)
    by (vm_compute; reflexivity).
  destruct (tree.equal_version_queries deliveries "libc" (archive.ver "2.0")
              archive.libc2 I eq_refl E) as [A B].
  split.
  - apply A. vm_compute. discriminate.
  - apply B. vm_compute. reflexivity.
Defined.

Lemma ExactlyEqual_finds_witness :
  ExactlyEqual (database.run deliveries) "libc" (archive.ver "9.9") = None
  <-> forall x : Package,
        ~ (In x (database.run deliveries) /\ types.Name x = "libc"%string
           /\ version.Compare (types.Version x) (archive.ver "9.9") = 0
           /\ types.less x (types.keyOf "libc" (archive.ver "9.9") false)
              = false).
Proof.
  exact (proj2 (tree.ExactlyEqual_finds deliveries "libc"
                  (archive.ver "9.9"))).
Defined.

(** [ed], which the session of [editors] has removed, is added again and
    removed again. *)
Lemma Add_then_Remove_provider_witness :
  database.wellFormed NewPackageDB editors.session
  /\ database.concrete editors.ed
  /\ forall k,
       database.hasVirtual
         (Remove (Add (database.run editors.session) editors.ed) editors.ed) k
       <-> database.hasVirtual (database.run editors.session) k.
Proof.
  assert (C : database.concrete editors.ed).
  { split; [reflexivity|]. split; [reflexivity|discriminate]. }
  assert (B : forallb (fun x : Package =>
                         negb (types.Compare x editors.ed =? 0))
                      (database.run editors.session) = true)
    by (vm_compute; reflexivity).
  assert (F : forall x, In x (database.run editors.session) ->
                types.Compare x editors.ed <> 0).
  { intros x Hx. apply (proj1 (forallb_forall _ _) B) in Hx.
    apply negb_true_iff, Z.eqb_neq in Hx. exact Hx. }
  split; [exact editors.session_wellFormed|]. split; [exact C|].
  exact (proj2 (tree.Add_then_Remove_provider editors.session editors.ed
                  editors.session_wellFormed C F)).
Defined.

End stock.
(** Mail transport agents: two packages that provide the name of a third
    under versions of their own. *)

Module mail.
Import packages.

Abbreviation Package := (types.Package debian.Version archname.Arch).

Definition exim : Package :=
  archive.package "exim" "4.9" "amd64"
    [[archive.versioned "mta" "=" "5.0"]] [].
Definition mta : Package := archive.package "mta" "1.0" "amd64" [] [].
Definition zmailer : Package :=
  archive.package "zmailer" "2.9" "amd64"
    [[archive.versioned "mta" "=" "0.5"]] [].

Definition candidates : PackageDB debian.Version archname.Arch :=
  AddAll NewPackageDB [exim; mta; zmailer].

(** The candidate database at location 0, the selected one at location 1,
    empty. *)
Definition heap1 : Heap debian.Version archname.Arch :=
  [candidates; NewPackageDB].

Definition pinned : gmap string (option debian.Version) :=
  {[ "mta"%string := Some (archive.ver "1.0") ]}.

Example candidates_contents :
  archive.contents candidates
  = [("exim_4.9_amd64", false); ("mta_0.5_", true); ("mta_1.0_amd64", false);
     ("mta_5.0_", true); ("zmailer_2.9_amd64", false)]%string.
Proof. vm_compute. reflexivity. Qed.

(** The walk needs the name not to be provided: here [mta] is provided
    under two versions, and the walk leaves their two virtual entries and
    not the package [mta]; with [mta] pinned, it leaves all three. *)
Example collapse_over_provided_name :
  archive.contents (deref (selectNewest ∅ 0%nat 1%nat heap1) 1%nat)
  = [("exim_4.9_amd64", false); ("mta_0.5_", true); ("mta_5.0_", true);
     ("zmailer_2.9_amd64", false)]%string
  /\ archive.contents (deref (selectNewest pinned 0%nat 1%nat heap1) 1%nat)
     = [("exim_4.9_amd64", false); ("mta_0.5_", true);
        ("mta_1.0_amd64", false); ("mta_5.0_", true);
        ("zmailer_2.9_amd64", false)]%string.
Proof. split; vm_compute; reflexivity. Qed.

Example Resolve_mta :
  let '(h, outcome) :=
    Resolve 10 (NewResolver 0%nat) ["exim"; "mta"; "zmailer"]%string
            [candidates] in
  outcome = Done 2%nat
  /\ archive.contents (deref h 2%nat)
     = [("exim_4.9_amd64", false); ("mta_0.5_", true); ("mta_5.0_", true);
        ("zmailer_2.9_amd64", false)]%string.
Proof. vm_compute. split; reflexivity. Qed.

(** The walk over the pool of [archive], for the name [libc] that nothing
    provides and that is not pinned: one entry of the name is selected, and
    no candidate of the name has a higher version. *)
Lemma selectNewest_collapses_witness :
  (forall e,
     In e (deref (selectNewest ∅ 0%nat 1%nat [archive.pool; NewPackageDB])
                 1%nat) ->
     types.Name e = "libc"%string ->
     In e (ForEach (deref [archive.pool; NewPackageDB] 0%nat))
     /\ forall c, In c (ForEach (deref [archive.pool; NewPackageDB] 0%nat)) ->
          types.Name c = "libc"%string ->
          version.Compare (types.Version c) (types.Version e) <= 0)
  /\ map types.ID
         (Get (deref (selectNewest ∅ 0%nat 1%nat [archive.pool; NewPackageDB])
                     1%nat) "libc")
     = ["libc_3.0_amd64"%string].
Proof.
  split; [|vm_compute; reflexivity].
  assert (O : sorted.ordered pkgorder.cmp
                (deref [archive.pool; NewPackageDB] 0%nat))
    by exact (tree.run_ordered stock.deliveries).
  assert (BQ : forallb
                 (fun c : Package =>
                    forallb (fun possi =>
                               negb (String.eqb (dependency.Name possi) "libc"))
                            (types.possibilities (types.Provides c)))
                 (deref [archive.pool; NewPackageDB] 0%nat) = true)
    by (vm_compute; reflexivity).
  assert (Q : forall c possi,
            In c (deref [archive.pool; NewPackageDB] 0%nat) ->
            In possi (types.possibilities (types.Provides c)) ->
            dependency.Name possi <> "libc"%string).
  { intros c possi Hc Hp.
    apply (proj1 (forallb_forall _ _) BQ) in Hc.
    apply (proj1 (forallb_forall _ _) Hc) in Hp.
    apply negb_true_iff, String.eqb_neq in Hp. exact Hp. }
  assert (BF : forallb
                 (fun c : Package =>
                    negb (String.eqb (types.Name c) "libc")
                    || negb (types.less c
                               (types.keyOf "libc" version.zero false)))
                 (deref [archive.pool; NewPackageDB] 0%nat) = true)
    by (vm_compute; reflexivity).
  assert (F : forall c,
            In c (deref [archive.pool; NewPackageDB] 0%nat) ->
            types.Name c = "libc"%string ->
            types.less c (types.keyOf "libc"%string version.zero false)
            = false).
  { intros c Hc Nc. apply (proj1 (forallb_forall _ _) BF) in Hc.
    apply String.eqb_eq in Nc. rewrite Nc in Hc. simpl in Hc.
    now apply negb_true_iff in Hc. }
  exact (proj1 (collapse.selectNewest_collapses "libc"%string ∅ 0%nat 1%nat
                  [archive.pool; NewPackageDB] eq_refl O Q F)).
Defined.

End mail.

(** Calls of the resolver on the pool of [archive]. *)

Module calls.
Import packages.

Abbreviation Package := (types.Package debian.Version archname.Arch).

Lemma pool_ordered : sorted.ordered pkgorder.cmp archive.pool.
Proof. exact (tree.run_ordered stock.deliveries). Qed.

Lemma pool_archful : loops.archful archive.pool.
Proof.
  assert (B : forallb
                (fun x : Package =>
                   types.IsVirtual x
                   || negb (String.eqb (arch.String (types.Architecture x))
                                       (arch.String (arch.zero
                                          (Arch := archname.Arch)))))
                archive.pool = true)
    by (vm_compute; reflexivity).
  intros x Hx V. apply (proj1 (forallb_forall _ _) B) in Hx.
  rewrite V in Hx. simpl in Hx. now apply negb_true_iff, String.eqb_neq in Hx.
Qed.

(** Pruning the pool itself, which holds [broken]. *)
Lemma pruneUnsatisfied_breaks_witness :
  snd (pruneUnsatisfied 6 0%nat archive.heap0) = true
  /\ (Len (deref (fst (pruneUnsatisfied 6 0%nat archive.heap0)) 0%nat)
      <= Len archive.pool)%nat.
Proof.
  apply (loops.pruneUnsatisfied_breaks 6 0%nat archive.heap0 archive.pool
           eq_refl pool_ordered).
  vm_compute. lia.
Defined.

Lemma getDependencies_from_pool_witness :
  exists dependencies,
    getDependencies archive.pool archive.pool archive.shell = Ok dependencies
    /\ forall d, In d dependencies -> In d archive.pool.
Proof.
  assert (E : isErr (getDependencies archive.pool archive.pool archive.shell)
              = false) by (vm_compute; reflexivity).
  destruct (getDependencies archive.pool archive.pool archive.shell)
    as [dependencies|e] eqn:G; [|discriminate E].
  exists dependencies. split; [reflexivity|].
  exact (loops.getDependencies_from_pool _ _ _ _ G).
Defined.

Lemma Resolve_selects_from_pool_witness :
  loops.archful (deref archive.heap0 0%nat)
  /\ forall x,
       In x (deref (fst (Resolve 10 archive.resolver0 ["shell"%string]
                                 archive.heap0)) 2%nat) ->
       types.IsVirtual x = false -> In x (deref archive.heap0 0%nat).
Proof.
  split; [exact pool_archful|].
  assert (E : Resolve 10 archive.resolver0 ["shell"%string] archive.heap0
              = (fst (Resolve 10 archive.resolver0 ["shell"%string]
                              archive.heap0), Done 2%nat))
    by (vm_compute; reflexivity).
  apply (loops.Resolve_selects_from_pool 10 archive.resolver0
           ["shell"%string] archive.heap0 _ 2%nat); [|exact pool_archful|exact E].
  simpl. lia.
Defined.

(** Two pins on [libc]: the call succeeds, and the second is met. *)
Lemma Resolve_meets_last_request_witness :
  exists pkg,
    ExactlyEqual
      (deref (fst (Resolve 10 archive.resolver0 ["libc=2.0"; "libc=3.0"]%string
                           archive.heap0)) 2%nat)
      "libc" (archive.ver "3.0") = Some pkg.
Proof.
  assert (E : Resolve 10 archive.resolver0 (["libc=2.0"%string] ++ "libc=3.0"%string :: [])
                      archive.heap0
              = (fst (Resolve 10 archive.resolver0
                              ["libc=2.0"; "libc=3.0"]%string archive.heap0),
                 Done 2%nat))
    by (vm_compute; reflexivity).
  assert (P : parseRequest "libc=3.0"
              = Ok ("libc"%string, Some (archive.ver "3.0")))
    by (vm_compute; reflexivity).
  exact (loops.Resolve_meets_last_request 10 archive.resolver0
           ["libc=2.0"%string] "libc=3.0" [] archive.heap0 _ 2%nat
           "libc" (Some (archive.ver "3.0")) E P
           (fun s' name' pin' (F : In s' []) _ => match F with end)).
Defined.

Lemma Resolve_fails_at_request_witness :
  snd (Resolve 10 archive.resolver0 ["shell"; "nosuch"; "libc"]%string
               archive.heap0)
  = Failed (UnableToLocate "nosuch").
Proof.
  assert (L : loops.located (deref archive.heap0 (packageDB archive.resolver0))
                            "shell").
  { exists "shell"%string. left. split; [vm_compute; reflexivity|].
    vm_compute. discriminate. }
  destruct (loops.Resolve_fails_at_request 10 archive.resolver0
              ["shell"%string] "nosuch" ["libc"%string] archive.heap0)
    as [A _].
  - simpl. lia.
  - constructor; [exact L|constructor].
  - apply (A "nosuch"%string); vm_compute; reflexivity.
Defined.

End calls.

(** Operations on the databases of [archive] and [editors] that change
    nothing, and the listing of a selection. *)

Module listing.
Import packages.

Abbreviation Package := (types.Package debian.Version archname.Arch).

Lemma Remove_absent_witness :
  database.wellFormed NewPackageDB editors.session
  /\ Remove (database.run editors.session) editors.ed
     = database.run editors.session.
Proof.
  split; [exact editors.session_wellFormed|].
  assert (B : forallb (fun x : Package =>
                         negb (types.Compare x editors.ed =? 0))
                      (database.run editors.session) = true)
    by (vm_compute; reflexivity).
  apply (again.Remove_absent editors.session editors.ed
           editors.session_wellFormed).
  intros x Hx. apply (proj1 (forallb_forall _ _) B) in Hx.
  now apply negb_true_iff, Z.eqb_neq in Hx.
Defined.

Lemma Add_again_witness :
  arch.String (types.Architecture archive.mawk)
  <> arch.String (arch.zero (Arch := archname.Arch))
  /\ Add (Add (database.run stock.deliveries) archive.mawk) archive.mawk
     = Add (database.run stock.deliveries) archive.mawk.
Proof.
  assert (A : arch.String (types.Architecture archive.mawk)
              <> arch.String (arch.zero (Arch := archname.Arch)))
    by discriminate.
  split; [exact A|].
  exact (again.Add_again stock.deliveries archive.mawk A).
Defined.

Example resolveAndList_shell :
  main.resolveAndList 10 0%nat ["shell"%string] archive.heap0
  = Done (4%nat, [("libc"%string, archive.ver "3.0");
                  ("mawk"%string, archive.ver "1.3");
                  ("shell"%string, archive.ver "1.0")]).
Proof. vm_compute. reflexivity. Qed.

Lemma resolveAndList_lists_witness :
  loops.archful (deref archive.heap0 0%nat)
  /\ forall name v,
       In (name, v) [("libc"%string, archive.ver "3.0");
                     ("mawk"%string, archive.ver "1.3");
                     ("shell"%string, archive.ver "1.0")] ->
       exists pkg, In pkg (deref archive.heap0 0%nat)
                   /\ types.IsVirtual pkg = false
                   /\ types.Name pkg = name /\ types.Version pkg = v.
Proof.
  split; [exact calls.pool_archful|].
  apply (main.resolveAndList_lists 10 0%nat ["shell"%string] archive.heap0
           4%nat _ (Nat.lt_0_succ 0) calls.pool_archful resolveAndList_shell).
Defined.

End listing.

(** ** A call that comes to an end *)

Module ends.
Import packages.

Lemma Resolve_returns_witness :
  exists fuel0, forall fuel, (fuel0 <= fuel)%nat ->
    Resolve fuel archive.resolver0 ["shell"%string] archive.heap0
    = Resolve fuel0 archive.resolver0 ["shell"%string] archive.heap0
    /\ snd (Resolve fuel archive.resolver0 ["shell"%string] archive.heap0)
       <> OutOfFuel.
Proof.
  apply (termination.Resolve_returns archive.resolver0 ["shell"%string]
           archive.heap0).
  simpl. lia.
Defined.

End ends.
